(** * openMindMap: a shallow embedding of the outline parser, the layout
      engine, the undo manager and the click / edit controllers.

    The development follows the TypeScript sources:

    - [src/utils/mindmap-utils.ts]: text utilities, the Markdown parser
      [parseMarkdownContent] and the serialiser [generateMarkdownFromNodes];
    - [src/renderers/layout-calculator.ts]: the two-pass tree layout;
    - [UndoManager]: snapshot based undo / redo;
    - [NodeEditor]: commit of an inline edit;
    - [D3InteractionHandler] and [MouseInteraction]: click handling.

    Conventions.  A JavaScript string is a list of UTF-16 code units
    ([N]).  A JavaScript number used by the layout is an IEEE 754 double
    (the primitive type [float]), with the operations and the rounding of
    the language.  Mutable node
    objects live in a store (a list of records addressed by index), so
    that aliasing between the node stack, the parent links and the
    children arrays is the one of the source. *)

From Stdlib Require Import ZArith NArith Lia List String Ascii Bool.
From Stdlib Require PrimFloat.
From stdpp Require Import base tactics option list.
Import ListNotations.

Set Default Proof Using "Type".
Set Warnings "-register-all".

(** ** JavaScript strings *)

Abbreviation char := N.
Abbreviation jsstring := (list N).

(** [js "abc"] is the JavaScript string literal "abc" (ASCII only). *)
Definition js (s : string) : jsstring :=
  map N_of_ascii (list_ascii_of_string s).

(** ** Nodes, stores and trees ([mindmap-interfaces.ts]) *)

(** The own fields of a [MindMapNode] object, that is all of its fields
    but the links [parent] and [children].  [nodeX] and [nodeY] are the
    optional [x] and [y] of the interface.  Levels are non-negative
    integers. *)
Record NodeData := mkData {
  text : jsstring;
  level : nat;
  color : option jsstring;
  icon : option jsstring;
  link : option jsstring;
  expanded : bool;
  selected : option bool;
  hovered : option bool;
  nodeX : option PrimFloat.float;
  nodeY : option PrimFloat.float;
  nodeWidth : option PrimFloat.float;
  nodeHeight : option PrimFloat.float;
  subtreeWidth : option PrimFloat.float;
  subtreeHeight : option PrimFloat.float
}.

(** The object literal [{ text, level, parent: null, children: [],
    expanded: true }] of the parser, without its links. *)
Definition newNodeData (t : jsstring) (lv : nat) : NodeData :=
  {| text := t; level := lv; color := None; icon := None; link := None;
     expanded := true; selected := None; hovered := None;
     nodeX := None; nodeY := None; nodeWidth := None; nodeHeight := None;
     subtreeWidth := None; subtreeHeight := None |}.

Definition setText (t : jsstring) (d : NodeData) : NodeData :=
  {| text := t; level := level d; color := color d; icon := icon d;
     link := link d; expanded := expanded d; selected := selected d;
     hovered := hovered d; nodeX := nodeX d; nodeY := nodeY d;
     nodeWidth := nodeWidth d; nodeHeight := nodeHeight d;
     subtreeWidth := subtreeWidth d; subtreeHeight := subtreeHeight d |}.

(** A [MindMapNode] object in the store: node objects are mutable and
    shared (the node stack of the parser, the [children] array of the
    parent and [allNodes] refer to the same object), so an object is
    addressed by its index in the store, and links are indices. *)
Record MindMapNode := mkNode {
  data : NodeData;
  parent : option nat;
  children : list nat
}.

Abbreviation Store := (list MindMapNode).

(** [MindMapData]. *)
Record MindMapData := mkMindMapData {
  rootNode : option nat;
  allNodes : list nat;
  maxLevel : nat
}.

(** The tree a node stands for when its [children] arrays are followed:
    the value that the renderer, the serialiser and the clone traverse. *)
Inductive Tree := TNode (d : NodeData) (kids : list Tree).

Definition treeData (t : Tree) : NodeData := match t with TNode d _ => d end.
Definition treeKids (t : Tree) : list Tree := match t with TNode _ kids => kids end.

Fixpoint size (t : Tree) : nat :=
  match t with TNode _ kids => S (list_sum (map size kids)) end.

Fixpoint height (t : Tree) : nat :=
  match t with TNode _ kids => S (list_max (map height kids)) end.

(** Reading a tree out of the store; [fuel] bounds the depth, [None] means
    a dangling index or not enough fuel. *)
Fixpoint treeOf (fuel : nat) (st : Store) (i : nat) : option Tree :=
  match fuel with
  | O => None
  | S fuel' =>
      match st !! i with
      | None => None
      | Some n =>
          match mapM (treeOf fuel' st) (children n) with
          | Some kids => Some (TNode (data n) kids)
          | None => None
          end
      end
  end.

(** [represents st t i]: following [children] from the object [i] of the
    store [st] one reads exactly the tree [t]. *)
Fixpoint represents (st : Store) (t : Tree) (i : nat) {struct t} : Prop :=
  match t with
  | TNode d kids =>
      exists n, st !! i = Some n /\ data n = d /\
        (fix all2 (kids : list Tree) (cs : list nat) {struct kids} : Prop :=
           match kids, cs with
           | [], [] => True
           | k :: kids', c :: cs' => represents st k c /\ all2 kids' cs'
           | _, _ => False
           end) kids (children n)
  end.

(** The canonical layout of a tree in the store: the nodes in pre-order
    from index [base] on, the root with parent [top].  With [linked] the
    other nodes point to their parent, without it their [parent] is
    [null].  This is the layout produced by the parser (nodes are created
    in document order) and by [deepCloneNode]. *)
Fixpoint flatten (linked : bool) (top : option nat) (base : nat) (t : Tree)
    {struct t} : list MindMapNode :=
  match t with
  | TNode d kids =>
      let inner := if linked then Some base else None in
      let ids :=
        (fix ids (kids : list Tree) (b : nat) {struct kids} : list nat :=
           match kids with
           | [] => []
           | k :: kids' => b :: ids kids' (b + size k)
           end) kids (S base) in
      let segs :=
        (fix segs (kids : list Tree) (b : nat) {struct kids} : list MindMapNode :=
           match kids with
           | [] => []
           | k :: kids' => flatten linked inner b k ++ segs kids' (b + size k)
           end) kids (S base) in
      {| data := d; parent := top; children := ids |} :: segs
  end.

(** The two local loops of [flatten], for a forest. *)
Fixpoint rootIds (kids : list Tree) (b : nat) : list nat :=
  match kids with
  | [] => []
  | k :: kids' => b :: rootIds kids' (b + size k)
  end.

Fixpoint flattenForest (linked : bool) (top : option nat) (kids : list Tree)
    (b : nat) : list MindMapNode :=
  match kids with
  | [] => []
  | k :: kids' => flatten linked top b k ++ flattenForest linked top kids' (b + size k)
  end.

(** What two trees must share to be structurally identical: the texts,
    the levels and the children in order. *)
Inductive Outline := Item (t : jsstring) (lv : nat) (kids : list Outline).

Fixpoint outline (t : Tree) : Outline :=
  match t with TNode d kids => Item (text d) (level d) (map outline kids) end.

(** [linkedClone st lo t i p]: following [children] from the object [i]
    one reads the tree [t]; the object [i] has the parent link [p] and
    every other object met has a parent link to the object it was reached
    from; and every object met has an index of at least [lo], that is, it
    was allocated after the first [lo] objects of the store. *)
Fixpoint linkedClone (st : Store) (lo : nat) (t : Tree) (i : nat)
    (p : option nat) {struct t} : Prop :=
  match t with
  | TNode d kids =>
      exists n, st !! i = Some n /\ data n = d /\ parent n = p /\ (lo <= i)%nat /\
        (fix all2 (kids : list Tree) (cs : list nat) {struct kids} : Prop :=
           match kids, cs with
           | [], [] => True
           | k :: kids', c :: cs' => linkedClone st lo k c (Some i) /\ all2 kids' cs'
           | _, _ => False
           end) kids (children n)
  end.

(** [cloneFrom st lo t i]: following [children] from the object [i] one
    reads the tree [t], and every object met has an index of at least
    [lo]: none of them is among the first [lo] objects of the store. *)
Fixpoint cloneFrom (st : Store) (lo : nat) (t : Tree) (i : nat)
    {struct t} : Prop :=
  match t with
  | TNode d kids =>
      exists n, st !! i = Some n /\ data n = d /\ (lo <= i)%nat /\
        (fix all2 (kids : list Tree) (cs : list nat) {struct kids} : Prop :=
           match kids, cs with
           | [], [] => True
           | k :: kids', c :: cs' => cloneFrom st lo k c /\ all2 kids' cs'
           | _, _ => False
           end) kids (children n)
  end.

(** ** JavaScript string primitives *)

Definition inRange (lo hi c : N) : bool := (lo <=? c)%N && (c <=? hi)%N.

(** The characters matched by the regular expression class [\s] and removed
    by [String.prototype.trim]: WhiteSpace and LineTerminator of ECMAScript. *)
Definition isWhiteSpace (c : char) : bool :=
  inRange 9 13 c || (c =? 32)%N || (c =? 160)%N || (c =? 5760)%N
  || inRange 8192 8202 c || (c =? 8232)%N || (c =? 8233)%N || (c =? 8239)%N
  || (c =? 8287)%N || (c =? 12288)%N || (c =? 65279)%N.

(** LineTerminator: the characters that [.] does not match. *)
Definition isLineTerminator (c : char) : bool :=
  (c =? 10)%N || (c =? 13)%N || (c =? 8232)%N || (c =? 8233)%N.

Fixpoint dropWhile (p : char -> bool) (s : jsstring) : jsstring :=
  match s with
  | c :: s' => if p c then dropWhile p s' else s
  | [] => []
  end.

Fixpoint takeWhile (p : char -> bool) (s : jsstring) : jsstring :=
  match s with
  | c :: s' => if p c then c :: takeWhile p s' else []
  | [] => []
  end.

(** [s.trim()]. *)
Definition trimStart (s : jsstring) : jsstring := dropWhile isWhiteSpace s.
Definition trimEnd (s : jsstring) : jsstring := rev (dropWhile isWhiteSpace (rev s)).
Definition trim (s : jsstring) : jsstring := trimEnd (trimStart s).

(** [s.startsWith(p)] and [s.includes(p)]. *)
Fixpoint startsWith (s p : jsstring) : bool :=
  match p, s with
  | [], _ => true
  | a :: p', b :: s' => (a =? b)%N && startsWith s' p'
  | _ :: _, [] => false
  end.

Fixpoint includes (s p : jsstring) : bool :=
  startsWith s p || match s with [] => false | _ :: s' => includes s' p end.

(** [s.split(sep)] for a one-character separator: never empty. *)
Fixpoint split (sep : char) (s : jsstring) : list jsstring :=
  match s with
  | [] => [[]]
  | c :: s' =>
      if (c =? sep)%N then [] :: split sep s'
      else match split sep s' with
           | l :: ls => (c :: l) :: ls
           | [] => [[c]]
           end
  end.

Definition LF : char := 10%N.
Definition SPACE : char := 32%N.

(** [" ".repeat(n)] and friends. *)
Definition repeatStr (s : jsstring) (n : nat) : jsstring := concat (repeat s n).

(** ** Regular expressions *)

(** The regular expressions of the sources are sequences of atoms: a
    character class, or a character class under a greedy quantifier, or
    the end anchor [$].  [rmatch] is the backtracking matcher of
    ECMAScript for such sequences, anchored at the start of its input: a
    quantifier first takes as many characters as it can and gives them
    back one by one while the rest of the pattern fails.  It returns the
    text matched by every atom and the input that is left. *)
Inductive Atom :=
  | One (p : char -> bool)     (* [c]  *)
  | Opt (p : char -> bool)     (* [c?] *)
  | Star (p : char -> bool)    (* [c*] *)
  | Plus (p : char -> bool)    (* [c+] *)
  | Eoi.                       (* [$], without the [m] flag *)

Definition Regex := list Atom.

Definition Match : Type := list jsstring * jsstring.

Definition withSeg (seg : jsstring) (m : option Match) : option Match :=
  match m with
  | Some (segs, rest) => Some (seg :: segs, rest)
  | None => None
  end.

Definition growSeg (c : char) (m : option Match) : option Match :=
  match m with
  | Some (seg :: segs, rest) => Some ((c :: seg) :: segs, rest)
  | _ => None
  end.

(** [c*] followed by the continuation [k]: longest first. *)
Fixpoint greedy (p : char -> bool) (k : jsstring -> option Match)
    (s : jsstring) : option Match :=
  match s with
  | c :: s' =>
      if p c then
        match greedy p k s' with
        | Some m => growSeg c (Some m)
        | None => withSeg [] (k s)
        end
      else withSeg [] (k s)
  | [] => withSeg [] (k [])
  end.

Fixpoint rmatch (r : Regex) (s : jsstring) {struct r} : option Match :=
  match r with
  | [] => Some ([], s)
  | a :: r' =>
      match a with
      | One p =>
          match s with
          | c :: s' => if p c then withSeg [c] (rmatch r' s') else None
          | [] => None
          end
      | Opt p =>
          match s with
          | c :: s' =>
              if p c then
                match rmatch r' s' with
                | Some m => withSeg [c] (Some m)
                | None => withSeg [] (rmatch r' s)
                end
              else withSeg [] (rmatch r' s)
          | [] => withSeg [] (rmatch r' [])
          end
      | Star p => greedy p (rmatch r') s
      | Plus p =>
          match s with
          | c :: s' => if p c then growSeg c (greedy p (rmatch r') s') else None
          | [] => None
          end
      | Eoi =>
          match s with
          | [] => withSeg [] (rmatch r' [])
          | _ :: _ => None
          end
      end
  end.

(** [/^r/.test(s)]. *)
Definition test (r : Regex) (s : jsstring) : bool :=
  match rmatch r s with Some _ => true | None => false end.

(** [s.replace(/^r/, '')]. *)
Definition replaceAnchored (r : Regex) (s : jsstring) : jsstring :=
  match rmatch r s with Some (_, rest) => rest | None => s end.

(** [s.replace(/r/, '')]: the leftmost match is removed. *)
Fixpoint replaceFirst (r : Regex) (s : jsstring) : jsstring :=
  match rmatch r s with
  | Some (_, rest) => rest
  | None => match s with [] => [] | c :: s' => c :: replaceFirst r s' end
  end.

(** [s.replace(/r/g, '')]: matches are searched from left to right, each
    search starting where the match before it ended; [skip] counts the
    characters of the current match that are still to be dropped. *)
Fixpoint replaceAllFrom (r : Regex) (skip : nat) (s : jsstring) : jsstring :=
  match s with
  | [] => []
  | c :: s' =>
      match skip with
      | S skip' => replaceAllFrom r skip' s'
      | O =>
          match rmatch r s with
          | Some (_, rest) =>
              match length s - length rest with
              | O => c :: replaceAllFrom r 0 s'
              | S n => replaceAllFrom r n s'
              end
          | None => c :: replaceAllFrom r 0 s'
          end
      end
  end.

Definition replaceAll (r : Regex) (s : jsstring) : jsstring := replaceAllFrom r 0 s.

(** Character classes. *)
Definition isChar (a : N) (c : char) : bool := (c =? a)%N.
Definition isBlank (c : char) : bool := isChar 32 c || isChar 9 c.               (* [ \t] *)
Definition isMarker (c : char) : bool := isChar 42 c || isChar 45 c || isChar 43 c.  (* [*\-+] *)
Definition isDigit (c : char) : bool := inRange 48 57 c.                 (* \d *)
Definition isDot (c : char) : bool := isChar 46 c.                           (* \. *)
Definition nonSpace (c : char) : bool := negb (isWhiteSpace c).          (* \S *)
Definition anyChar (c : char) : bool := negb (isLineTerminator c).       (* . *)
Definition isIdentStart (c : char) : bool :=
  inRange 97 122 c || inRange 65 90 c || isChar 95 c.                        (* [a-zA-Z_] *)
Definition isIdentChar (c : char) : bool := isIdentStart c || isDigit c. (* [a-zA-Z0-9_] *)
Definition notCloseBracket (c : char) : bool := negb (isChar 93 c).          (* [^\]] *)
Definition isSlash (c : char) : bool := isChar 92 c || isChar 47 c.              (* [\\\/] *)

(** A literal. *)
Definition lit (s : string) : Regex := map (fun c => One (isChar c)) (js s).

(** ** Text utilities and the Markdown parser ([mindmap-utils.ts]) *)

(** Modelled from the spec: [MINDMAP_IDENTIFIER] is declared in
    [constants/mindmap-constants], which is not part of the sources at
    hand; the identifier line of the document format is [#mindmap], as
    in the regular expression of [parseMarkdownContent]. *)
Definition MINDMAP_IDENTIFIER : jsstring := js "#mindmap".

(** [/\[([a-zA-Z_][a-zA-Z0-9_]*:[^\]]+)\]/g] *)
Definition attributeRegex : Regex :=
  [One (isChar 91); One isIdentStart; Star isIdentChar; One (isChar 58);
   Plus notCloseBracket; One (isChar 93)].

(** [cleanTextContent]. *)
Definition cleanTextContent (text : jsstring) : jsstring :=
  match text with
  | [] => []
  | _ => trim (replaceAll attributeRegex text)
  end.

(** [getFileNameWithoutExtension]: [/^.*[\\\/]/] and [/\.md$/]. *)
Definition getFileNameWithoutExtension (filePath : jsstring) : jsstring :=
  match filePath with
  | [] => js "Untitled"
  | _ =>
      let fileName := replaceAnchored [Star anyChar; One isSlash] filePath in
      replaceFirst (lit ".md" ++ [Eoi]) fileName
  end.

(** [isListItem]: [/^[ \t]*[*\-+]\s+\S/] or [/^[ \t]*\d+\.\s+\S/]. *)
Definition isListItem (line : jsstring) : bool :=
  test [Star isBlank; One isMarker; Plus isWhiteSpace; One nonSpace] line
  || test [Star isBlank; Plus isDigit; One isDot; Plus isWhiteSpace; One nonSpace] line.

Record ListItem := mkListItem {
  itemLevel : nat;
  content : jsstring;
  indent : jsstring
}.

(** [parseListItem]: the regular expression is
    [^ (\s* ) ([*\-+]? \d* \.? ) \s+ (.+) $], written here with spaces
    between its atoms; groups 1 and 3 are the indent and the content. *)
Definition parseListItem (line : jsstring) : option ListItem :=
  match rmatch [Star isWhiteSpace; Opt isMarker; Star isDigit; Opt isDot;
                Plus isWhiteSpace; Plus anyChar; Eoi] line with
  | Some ([indent; _; _; _; _; content; _], _) =>
      Some {| itemLevel := length indent / 4;
              content := cleanTextContent content;
              indent := indent |}
  | _ => None
  end.

(** [generateMarkdownFromNodes]: the local closure [generateNodeMarkdown]
    appends to the result, so its output is the concatenation, in order,
    of the lines of the node and of the outputs for the children. *)
Fixpoint generateNodeMarkdown (node : Tree) (indentLevel : nat) : jsstring :=
  match node with
  | TNode d kids =>
      match level d with
      | O => []
      | S _ =>
          let indent := repeatStr (js "    ") (indentLevel - 1) in
          let listPrefix := js "*" in
          let lines := split LF (text d) in
          let continuationIndent := indent ++ js "  " in
          (indent ++ listPrefix ++ js " " ++ hd [] lines ++ [LF])
          ++ concat (map (fun l => continuationIndent ++ l ++ [LF]) (tl lines))
          ++ concat (map (fun child => generateNodeMarkdown child (indentLevel + 1)) kids)
      end
  end.

Definition generateMarkdownFromNodes (rootNode : Tree) : jsstring :=
  (MINDMAP_IDENTIFIER ++ [LF; LF])
  ++ concat (map (fun child => generateNodeMarkdown child (level (treeData child)))
                 (treeKids rootNode)).

(** The variables of the loop of [parseMarkdownContent]; [store] holds the
    node objects, in the order of their creation, which is also the order
    of the array [allNodes]. *)
Record ParseState := mkParseState {
  store : Store;
  nodeStack : list nat;            (* bottom first, as the array *)
  parsedMaxLevel : nat;
  lastNode : option nat;
  lastIndentLength : nat
}.

Definition pushChild (c : nat) (n : MindMapNode) : MindMapNode :=
  {| data := data n; parent := parent n; children := children n ++ [c] |}.

Definition appendLine (lineContent : jsstring) (n : MindMapNode) : MindMapNode :=
  {| data := setText (text (data n) ++ [LF] ++ lineContent) (data n);
     parent := parent n; children := children n |}.

(** One iteration of [for (const line of lines)]. *)
Definition parseLine (s : ParseState) (line : jsstring) : ParseState :=
  match trim line with
  | [] => s
  | _ =>
      if isListItem line then
        match parseListItem line with
        | None => s
        | Some parsed =>
            let level := itemLevel parsed in
            let newId := length (store s) in
            (* while (nodeStack.length > level + 1) nodeStack.pop() *)
            let stack := take (level + 1) (nodeStack s) in
            let parentNode := last stack in
            let newNode :=
              {| data := newNodeData (content parsed) (level + 1);
                 parent := parentNode; children := [] |} in
            let st :=
              match parentNode with
              | Some p => alter (pushChild newId) p (store s)
              | None => store s
              end in
            {| store := st ++ [newNode];
               nodeStack := stack ++ [newId];
               parsedMaxLevel := Nat.max (parsedMaxLevel s) (level + 1);
               lastNode := Some newId;
               lastIndentLength := length (indent parsed) |}
        end
      else
        let currentIndent := length (takeWhile isWhiteSpace line) in
        match lastNode s with
        | Some ln =>
            if (lastIndentLength s <? currentIndent)%nat then
              match trim line with
              | [] => s
              | lineContent =>
                  {| store := alter (appendLine lineContent) ln (store s);
                     nodeStack := nodeStack s;
                     parsedMaxLevel := parsedMaxLevel s;
                     lastNode := lastNode s;
                     lastIndentLength := lastIndentLength s |}
              end
            else s
        | None => s
        end
  end.

(** The lines of the document: [content.replace(/^#mindmap\s*\n?/, '').split('\n')]. *)
Definition documentLines (content : jsstring) : list jsstring :=
  split LF (replaceAnchored (lit "#mindmap" ++ [Star isWhiteSpace; Opt (isChar 10)]) content).

Definition initialParseState (filePath : jsstring) : ParseState :=
  {| store := [ {| data := newNodeData (getFileNameWithoutExtension filePath) 0;
                   parent := None; children := [] |} ];
     nodeStack := [0%nat];
     parsedMaxLevel := 0;
     lastNode := None;
     lastIndentLength := 0 |}.

Definition parseLines (filePath : jsstring) (lines : list jsstring) : ParseState :=
  fold_left parseLine lines (initialParseState filePath).

(** [parseMarkdownContent]: the store of node objects and the returned
    [{ rootNode, allNodes, maxLevel }]. *)
Definition parseMarkdownContent (content filePath : jsstring)
    : Store * MindMapData :=
  let s := parseLines filePath (documentLines content) in
  (store s,
   {| rootNode := Some 0%nat;
      allNodes := seq 0 (length (store s));
      maxLevel := parsedMaxLevel s |}).

(** The tree below the returned [rootNode]. *)
Definition parsedTree (content filePath : jsstring) : option Tree :=
  let '(st, d) := parseMarkdownContent content filePath in
  match rootNode d with
  | Some r => treeOf (length st) st r
  | None => None
  end.

(** The list items of a document, as the loop of [parseMarkdownContent]
    accepts them, and their levels [floor(indent / 4)]. *)
Definition acceptedItem (line : jsstring) : option ListItem :=
  match trim line with
  | [] => None
  | _ => if isListItem line then parseListItem line else None
  end.

Definition itemLevels (lines : list jsstring) : list nat :=
  omap (fun line => itemLevel <$> acceptedItem line) lines.

(** No list item is indented more than one level deeper than the open
    item before it; [depth] is the level of the innermost open node. *)
Fixpoint noLevelSkip (depth : nat) (levels : list nat) : bool :=
  match levels with
  | [] => true
  | l :: levels' => (l <=? depth)%nat && noLevelSkip (S l) levels'
  end.

(** The invariant of the loop for documents without level skips: the
    node stack holds, at position [k], a node of level [k], and every node
    but the root has a parent one level above it. *)
Definition levelInvariant (s : ParseState) : Prop :=
  nodeStack s <> [] /\
  (forall k id, nodeStack s !! k = Some id ->
     exists n, store s !! id = Some n /\ level (data n) = k) /\
  (forall i n, store s !! i = Some n -> i <> 0%nat ->
     exists p pn, parent n = Some p /\ store s !! p = Some pn /\
       level (data n) = level (data pn) + 1).


(** Sample documents: Scenario 1 of the specification, a document whose
    second item skips a level, and one whose only item is a bare
    attribute. *)
Definition scenario1 : jsstring := js "#mindmap

* A
    * B
    * C
".

Definition skippedLevel : jsstring := js "#mindmap

* A
        * B
".

Definition bareAttribute : jsstring := js "#mindmap

* [k:v]
".

(** ** Notions used to state the round trip *)

Fixpoint allItems (P : NodeData -> bool) (t : Tree) : bool :=
  match t with TNode d kids => P d && forallb (allItems P) kids end.

(** The text of an item is written back and read again unchanged when its
    first line is not empty and is left alone by [cleanTextContent], and
    none of its further lines is a list item. *)
Definition serialisableText (t : jsstring) : bool :=
  let l0 := hd [] (split LF t) in
  negb (bool_decide (l0 = [])) && bool_decide (cleanTextContent l0 = l0)
  && forallb (fun l => negb (isListItem l)) (tl (split LF t)).

(** The tree of a document: the items below the root are at level 1, the
    indent the serialiser starts from, and every item has such a text. *)
Definition serialisable (root : Tree) : bool :=
  forallb (fun child =>
             (level (treeData child) =? 1)%nat
             && allItems (fun d => serialisableText (text d)) child)
          (treeKids root).

(** The level of every node is its depth. *)
Fixpoint levelsFollowDepth (depth : nat) (t : Tree) : bool :=
  match t with
  | TNode d kids =>
      (level d =? depth)%nat && forallb (levelsFollowDepth (S depth)) kids
  end.

(** Texts and children in order, without the levels. *)
Inductive Shape := ShapeNode (t : jsstring) (kids : list Shape).

Fixpoint shape (t : Tree) : Shape :=
  match t with TNode d kids => ShapeNode (text d) (map shape kids) end.

(** The tree of [scenario1], for a file [plan.md]. *)
Definition scenario1Tree : Tree :=
  TNode (newNodeData (js "plan") 0)
    [TNode (newNodeData (js "A") 1)
       [TNode (newNodeData (js "B") 2) []; TNode (newNodeData (js "C") 2) []]].

(** ** Trees that are read back as they were written *)

(** These conditions are on any tree handed to the serialiser, parsed or
    edited.  A node text survives serialisation and a parse when its
    first line is not empty, has no line terminator, and is left alone by
    [cleanTextContent], and when every further line is not empty, is
    trimmed and is not itself a list item. *)
Definition stableFirstLine (l : jsstring) : bool :=
  negb (bool_decide (l = [])) && bool_decide (cleanTextContent l = l)
  && forallb anyChar l.

Definition stableContinuation (l : jsstring) : bool :=
  negb (bool_decide (l = [])) && bool_decide (trim l = l)
  && negb (isListItem l).

Definition stableText (t : jsstring) : bool :=
  stableFirstLine (hd [] (split LF t))
  && forallb stableContinuation (tl (split LF t)).

Fixpoint stableNode (t : Tree) : bool :=
  match t with
  | TNode d kids =>
      negb (level d =? 0)%nat && stableText (text d) && forallb stableNode kids
  end.

(** The whole tree: the children of the root are at level 1 (their level
    is the indent the serialiser starts from), and all nodes below the
    root are stable. *)
Definition roundTripStable (root : Tree) : bool :=
  forallb (fun child => (level (treeData child) =? 1)%nat && stableNode child)
          (treeKids root).

(** The lines that [generateNodeMarkdown] emits for a node, each of them
    followed by a line feed in the output. *)
Fixpoint nodeLines (node : Tree) (indentLevel : nat) : list jsstring :=
  match node with
  | TNode d kids =>
      match level d with
      | O => []
      | S _ =>
          let indent := repeatStr (js "    ") (indentLevel - 1) in
          let lines := split LF (text d) in
          (indent ++ js "*" ++ js " " ++ hd [] lines)
          :: map (fun l => (indent ++ js "  ") ++ l) (tl lines)
          ++ flat_map (fun child => nodeLines child (indentLevel + 1)) kids
      end
  end.

(** A line without line feed. *)
Definition noLF (l : jsstring) : bool := forallb (fun c => negb (c =? LF)%N) l.

(** The nodes that the parser creates when it reads a tree back: the text
    is kept, the level is the depth, the other fields are those of a new
    node. *)
Fixpoint reparsed (lv : nat) (t : Tree) : Tree :=
  match t with
  | TNode d kids => TNode (newNodeData (text d) lv) (map (reparsed (S lv)) kids)
  end.

Definition addChildren (ids : list nat) (n : MindMapNode) : MindMapNode :=
  {| data := data n; parent := parent n; children := children n ++ ids |}.

(** What the parser does on the lines of one node, given where it is to
    be attached: [p] is the node at position [lv] of the stack. *)
Definition attaches (lv : nat) (t : Tree) : Prop :=
  forall s p, nodeStack s !! lv = Some p -> (p < length (store s))%nat ->
    let s' := fold_left parseLine (nodeLines t (S lv)) s in
    store s' = alter (pushChild (length (store s))) p (store s)
               ++ flatten true (Some p) (length (store s)) (reparsed (S lv) t) /\
    take (S lv) (nodeStack s') = take (S lv) (nodeStack s).

(** ** Invariants of the parser loop, for every document *)

(** What an atom of a regular expression can have matched. *)
Definition segOk (a : Atom) (seg : jsstring) : Prop :=
  match a with
  | One p | Opt p | Star p | Plus p => forallb p seg = true
  | Eoi => seg = []
  end.

(** The node objects are created in document order: the store is not
    empty, the nodes on the stack exist, the last item is an object other
    than the root, and the children of an object were created after
    it. *)
Definition wellFormed (s : ParseState) : Prop :=
  (0 < length (store s))%nat /\
  Forall (fun id => (id < length (store s))%nat) (nodeStack s) /\
  (forall ln, lastNode s = Some ln -> (0 < ln < length (store s))%nat) /\
  (forall i n, store s !! i = Some n ->
     Forall (fun c => (i < c < length (store s))%nat) (children n)).

(** The text of an item built by the parser: a first line without line
    terminator, then continuation lines that are trimmed and not empty;
    its level is not 0. *)
Definition parsedText (t : jsstring) : bool :=
  forallb anyChar (hd [] (split LF t))
  && forallb (fun l => negb (bool_decide (l = [])) && bool_decide (trim l = l))
             (tl (split LF t)).

Definition parsedItem (d : NodeData) : bool :=
  negb (level d =? 0)%nat && parsedText (text d).

(** The root object keeps the data it was created with, every other
    object is a parsed item. *)
Definition dataInvariant (fileName : jsstring) (s : ParseState) : Prop :=
  (exists n0, store s !! 0%nat = Some n0 /\ data n0 = newNodeData fileName 0) /\
  (forall i n, store s !! i = Some n -> i <> 0%nat -> parsedItem (data n) = true).

(** Every child points back to the object that lists it. *)
Definition parentLinks (st : Store) : Prop :=
  forall i n, st !! i = Some n ->
    Forall (fun c => exists nc, st !! c = Some nc /\ parent nc = Some i)
           (children n).
(** ** The layout engine ([layout-calculator.ts]) *)

Module Layout.
Import PrimFloat.

(** [NodeDimensions]: only [width] and [height] are read by the layout. *)
Record NodeDimensions := mkDims { width : float; height : float }.

(** A [d3.HierarchyNode<MindMapNode>]: the own fields of the wrapped data
    object, the depth, the coordinates [x] (vertical centre) and [y] (left
    edge), which are undefined before the layout, and the children, which
    mirror the children of the data object.  The layout never accesses
    the optional [x] and [y] of the data object itself. *)
Inductive HierarchyNode := HNode {
  data : NodeData;
  depth : nat;
  x : option float;
  y : option float;
  children : list HierarchyNode
}.

(** [v || 0] on an optional number: [undefined], [NaN], [+0] and [-0] are
    falsy and give [0]. *)
Definition or0 (v : option float) : float :=
  match v with
  | Some f => if is_nan f || is_zero f then 0%float else f
  | None => 0%float
  end.

Definition isPosZero (f : float) : bool :=
  match classify f with FloatClass.PZero => true | _ => false end.
Definition isNegZero (f : float) : bool :=
  match classify f with FloatClass.NZero => true | _ => false end.

(** [Math.max(...args)]: [NaN] if an argument is [NaN]; otherwise the
    loop of the standard, which starts from [-Infinity] and counts [+0]
    as larger than [-0]. *)
Definition Math_max (args : list float) : float :=
  if existsb is_nan args then nan
  else
    fold_left
      (fun highest number =>
         if isPosZero number && isNegZero highest then number
         else if ltb highest number then number else highest)
      args neg_infinity.

Definition verticalGap : float := 10.

(** The [forEach] loop that sums the children's [subtreeHeight] with a gap
    after every child but the last ([index < children.length - 1]); the
    same loop occurs in [calculateAllSubtreeDimensions] and in
    [distributeChildrenVerticalSpace]. *)
Fixpoint sumChildrenHeight (cs : list HierarchyNode) (total : float) : float :=
  match cs with
  | [] => total
  | c :: rest =>
      let total := (total + or0 (subtreeHeight (data c)))%float in
      let total :=
        match rest with [] => total | _ => (total + verticalGap)%float end in
      sumChildrenHeight rest total
  end.

(** The callback of [root.eachAfter] in [calculateAllSubtreeDimensions],
    for a node whose children [cs] have been visited already. *)
Definition visitAfter (cb : nat -> jsstring -> NodeDimensions)
    (dep : nat) (d : NodeData) (cs : list HierarchyNode) : NodeData :=
  let dims := cb dep (text d) in
  let sub :=
    match cs with
    | [] => (width dims, height dims)
    | _ :: _ =>
        let maxChildWidth :=
          Math_max (map (fun c => or0 (subtreeWidth (data c))) cs) in
        (Math_max [width dims; maxChildWidth],
         Math_max [height dims; sumChildrenHeight cs 0])
    end in
  {| text := text d; level := level d;
     color := color d; icon := icon d; link := link d; expanded := expanded d;
     selected := selected d; hovered := hovered d;
     nodeX := nodeX d; nodeY := nodeY d;
     nodeWidth := Some (width dims);
     nodeHeight := Some (height dims);
     subtreeWidth := Some (fst sub);
     subtreeHeight := Some (snd sub) |}.

(** Pass 1: post-order traversal, children before their parent. *)
Fixpoint calculateAllSubtreeDimensions (cb : nat -> jsstring -> NodeDimensions)
    (node : HierarchyNode) : HierarchyNode :=
  match node with
  | HNode d dep nx ny cs =>
      let cs' := map (calculateAllSubtreeDimensions cb) cs in
      HNode (visitAfter cb dep d cs') dep nx ny cs'
  end.

(** [horizontalSpacing] of [distributeChildrenVerticalSpace]. *)
Definition horizontalSpacing (parentDepth : nat) : float :=
  match parentDepth with O => 80 | S _ => 30 end.

(** The second [forEach] of [distributeChildrenVerticalSpace]: every child
    is centred in its slot, [currentY] being the running top edge, and is
    handed to [setNodePositionsTopDown] (here [setPos]) with the common
    horizontal position [childY]. *)
Fixpoint placeChildren (setPos : HierarchyNode -> float -> float -> HierarchyNode)
    (childY : float) (cs : list HierarchyNode) (currentY : float)
    : list HierarchyNode :=
  match cs with
  | [] => []
  | c :: rest =>
      let h := or0 (subtreeHeight (data c)) in
      setPos c (currentY + h / 2)%float childY
        :: placeChildren setPos childY rest (currentY + (h + verticalGap))%float
  end.

(** [distributeChildrenVerticalSpace], as a function of the parent's fields. *)
Definition distributeChildrenVerticalSpace
    (setPos : HierarchyNode -> float -> float -> HierarchyNode)
    (d : NodeData) (dep : nat) (px py : float) (cs : list HierarchyNode)
    : list HierarchyNode :=
  let horizontalSpacing := horizontalSpacing dep in
  let totalChildrenHeight := sumChildrenHeight cs 0 in
  let currentY := (px - totalChildrenHeight / 2)%float in
  let childY := (py + or0 (nodeWidth d) + horizontalSpacing)%float in
  placeChildren setPos childY cs currentY.

(** Pass 2: [setNodePositionsTopDown], pre-order. *)
Fixpoint setNodePositionsTopDown (node : HierarchyNode) (nx ny : float)
    : HierarchyNode :=
  match node with
  | HNode d dep _ _ cs =>
      HNode d dep (Some nx) (Some ny)
        (distributeChildrenVerticalSpace setNodePositionsTopDown d dep nx ny cs)
  end.

(** [createRecursiveTreeLayout]: both passes, the root placed at (100, 100). *)
Definition createRecursiveTreeLayout (cb : nat -> jsstring -> NodeDimensions)
    (root : HierarchyNode) : HierarchyNode :=
  setNodePositionsTopDown (calculateAllSubtreeDimensions cb root) 100 100.

Definition createCustomTreeLayout := createRecursiveTreeLayout.

(** All nodes of a hierarchy, the node itself first. *)
Fixpoint descendants (n : HierarchyNode) : list HierarchyNode :=
  n :: flat_map descendants (children n).

(** [d3.hierarchy(rootNode)]: the hierarchy mirrors the tree below the
    root, the depth of a node being its distance from the root. *)
Fixpoint hierarchyFrom (dep : nat) (t : Tree) : HierarchyNode :=
  match t with
  | TNode d kids => HNode d dep None None (map (hierarchyFrom (S dep)) kids)
  end.

Definition hierarchy (rootNode : Tree) : HierarchyNode := hierarchyFrom 0 rootNode.

(** What the layout may not touch: the data fields other than the four
    layout fields, the depth and the children, in order. *)
Inductive Skeleton :=
  Skel (t : jsstring) (lv : nat) (col ico lnk : option jsstring) (ex : bool)
       (sel hov : option bool) (nx ny : option float) (dep : nat)
       (kids : list Skeleton).

Fixpoint skeleton (n : HierarchyNode) : Skeleton :=
  match n with
  | HNode d dep _ _ cs =>
      Skel (text d) (level d) (color d) (icon d) (link d) (expanded d)
           (selected d) (hovered d) (nodeX d) (nodeY d) dep (map skeleton cs)
  end.

(** *** The quantities the layout is described with *)



(** The total height of the first [k] children of a list of [hs]: each
    height is added in turn, followed by the gap unless the child is the
    last one of the list. *)
Fixpoint totalAfter (hs : list float) (k : nat) : float :=
  match k with
  | O => 0
  | S k' =>
      let total := (totalAfter hs k' + default 0%float (hs !! k'))%float in
      if (k <? length hs)%nat then (total + 10)%float else total
  end.

Definition totalChildrenHeight (hs : list float) : float :=
  totalAfter hs (length hs).



(** *** The formulas of the specification, read without the guard *)


(** A natural number as a double. *)
Fixpoint ofNat (n : nat) : float :=
  match n with O => 0 | S n' => (ofNat n' + 1)%float end.



(** *** Sample inputs *)

(** A sample measurer and the hierarchy of Scenario 1
    (root -> A -> {B, C}), used to exercise the layout. *)
Definition sampleDims (dep : nat) (t : jsstring) : NodeDimensions :=
  {| width := (ofNat (length t) * 8 + 20)%float;
     height := match dep with O => 40 | _ => 30 end |}.

Definition sampleRoot : HierarchyNode :=
  HNode (newNodeData (js "doc") 0) 0 None None
    [ HNode (newNodeData (js "A") 1) 1 None None
        [ HNode (newNodeData (js "B") 2) 2 None None [];
          HNode (newNodeData (js "C") 2) 2 None None [] ] ].



(** A measurer with the positive box heights 34, 2 and 2^59 for the
    three children B, C and D of a root. *)
Definition hugeDims (dep : nat) (t : jsstring) : NodeDimensions :=
  {| width := 50;
     height := if decide (t = js "B") then 34
               else if decide (t = js "C") then 2
               else if decide (t = js "D") then 0x1p+59
               else 30 |}.

Definition hugeRoot : HierarchyNode :=
  HNode (newNodeData (js "doc") 0) 0 None None
    [ HNode (newNodeData (js "B") 1) 1 None None [];
      HNode (newNodeData (js "C") 1) 1 None None [];
      HNode (newNodeData (js "D") 1) 1 None None [] ].

End Layout.
(** ** The inline editor ([NodeEditor]) *)

Module NodeEditor.

(** User-visible texts are referred to by their key in [messages]. *)
Inductive Message := nodeTextEmpty | saveFailed | focusSetFailed | enterEditModeFailed.

(** Effects that leave the editor: the validation toast appended to the
    document, and the three callbacks of [NodeEditorCallbacks];
    [onBeforeTextChange] is where the coordinator takes the undo snapshot. *)
Inductive Effect :=
  | ValidationError (m : Message)
  | OnBeforeTextChange (node : nat)
  | OnTextChanged (node : nat) (newText : jsstring)
  | OnCanvasInteractionChanged (enabled : bool)
  | HideEditingHint.

(** The editable [HTMLDivElement]. *)
Record Element := mkElement {
  textContent : jsstring;
  contentEditable : bool;
  editingClass : bool
}.

(** [EditingState]; nodes and elements are references. *)
Record EditingState := mkEditing {
  isEditing : bool;
  currentNode : option nat;
  originalText : jsstring;
  editElement : option nat
}.

(** The editor together with the objects it reaches: [nodeText n] is
    [n.data.text], [dom e] the element behind the reference [e], [effects]
    the effects so far, most recent first. *)
Record Editor := mkEditor {
  editingState : EditingState;
  canvasInteractionEnabled : bool;
  nodeText : nat -> jsstring;
  dom : nat -> Element;
  effects : list Effect
}.

Definition update {A} (f : nat -> A) (k : nat) (v : A) : nat -> A :=
  fun k' => if Nat.eqb k' k then v else f k'.

Definition emit (e : Effect) (ed : Editor) : Editor :=
  {| editingState := editingState ed;
     canvasInteractionEnabled := canvasInteractionEnabled ed;
     nodeText := nodeText ed; dom := dom ed;
     effects := e :: effects ed |}.

Definition setDom (e : nat) (el : Element) (ed : Editor) : Editor :=
  {| editingState := editingState ed;
     canvasInteractionEnabled := canvasInteractionEnabled ed;
     nodeText := nodeText ed; dom := update (dom ed) e el;
     effects := effects ed |}.

Definition setNodeText (n : nat) (t : jsstring) (ed : Editor) : Editor :=
  {| editingState := editingState ed;
     canvasInteractionEnabled := canvasInteractionEnabled ed;
     nodeText := update (nodeText ed) n t; dom := dom ed;
     effects := effects ed |}.

Definition setEditingState (s : EditingState) (ed : Editor) : Editor :=
  {| editingState := s;
     canvasInteractionEnabled := canvasInteractionEnabled ed;
     nodeText := nodeText ed; dom := dom ed;
     effects := effects ed |}.

(** [setCanvasInteraction]. *)
Definition setCanvasInteraction (enabled : bool) (ed : Editor) : Editor :=
  emit (OnCanvasInteractionChanged enabled)
    {| editingState := editingState ed;
       canvasInteractionEnabled := enabled;
       nodeText := nodeText ed; dom := dom ed;
       effects := effects ed |}.

(** [exitEditMode]. *)
Definition exitEditMode (ed : Editor) : Editor :=
  if negb (isEditing (editingState ed)) then ed
  else
    let editElement := editElement (editingState ed) in
    let ed := setCanvasInteraction true ed in
    let ed :=
      match editElement with
      | Some e =>
          setDom e {| textContent := textContent (dom ed e);
                      contentEditable := false;
                      editingClass := false |} ed
      | None => ed
      end in
    let ed := emit HideEditingHint ed in
    setEditingState
      {| isEditing := false; currentNode := None;
         originalText := []; editElement := None |} ed.

(** [showValidationError]: the toast, then the recovery
    [if (this.editingState.isEditing) this.exitEditMode()]. *)
Definition showValidationError (m : Message) (ed : Editor) : Editor :=
  let ed := emit (ValidationError m) ed in
  if isEditing (editingState ed) then exitEditMode ed else ed.

Section Validation.

(** [VALIDATION_CONSTANTS] is declared in [constants/mindmap-constants],
    which is not part of the sources at hand: the two constants are
    parameters of the model. *)
Variable MAX_TEXT_LENGTH : nat.
Variable INVALID_CHARACTERS : list jsstring.

(** [validateText]. *)
Definition validateText (text : jsstring) : bool :=
  if match text with [] => true | _ => false end
     || Nat.eqb (length (trim text)) 0
  then false
  else if Nat.ltb MAX_TEXT_LENGTH (length text) then false
  else if existsb (fun char => includes text char) INVALID_CHARACTERS then false
  else true.

(** The callbacks run user code inside the [try] block of [saveText];
    [throws e] tells whether the callback behind the effect [e] throws. *)
Variable throws : Effect -> bool.

(** [saveText]. *)
Definition saveText (ed : Editor) : Editor :=
  match isEditing (editingState ed),
        currentNode (editingState ed),
        editElement (editingState ed) with
  | true, Some currentNode, Some editElement =>
      let newText := trim (textContent (dom ed editElement)) in
      if negb (validateText newText) then
        showValidationError nodeTextEmpty ed
      else if decide (newText = originalText (editingState ed)) then
        exitEditMode ed
      else
        let catch (ed : Editor) : Editor :=
          let ed := showValidationError saveFailed ed in
          let el := dom ed editElement in
          setDom editElement
            {| textContent := originalText (editingState ed);
               contentEditable := contentEditable el;
               editingClass := editingClass el |} ed in
        let ed := emit (OnBeforeTextChange currentNode) ed in
        if throws (OnBeforeTextChange currentNode) then exitEditMode (catch ed)
        else
          let ed := setNodeText currentNode newText ed in
          let ed := emit (OnTextChanged currentNode newText) ed in
          if throws (OnTextChanged currentNode newText)
          then exitEditMode (catch ed)
          else exitEditMode ed
  | _, _, _ => ed
  end.

End Validation.

(** A sample session: node 1, whose text is "B", is being edited in
    element 0, and the user has cleared the text. *)
Definition sampleEditor : Editor :=
  {| editingState := {| isEditing := true; currentNode := Some 1%nat;
                        originalText := js "B"; editElement := Some 0%nat |};
     canvasInteractionEnabled := false;
     nodeText := fun n => match n with 1%nat => js "B" | _ => js "A" end;
     dom := fun _ => {| textContent := js "  "; contentEditable := true;
                        editingClass := true |};
     effects := [] |}.

End NodeEditor.

(** ** Click handling ([D3InteractionHandler] and [MouseInteraction]) *)

(** Both handlers read the clock ([Date.now()], milliseconds) and arm
    one-shot timers with [setTimeout].  The event loop is modelled by a
    list of pending timers: before a click stamped [t] is dispatched,
    every pending timer that is due at [t] or earlier has fired, in the
    order in which the timers were armed.  Nodes are compared by identity
    ([===]), here the equality of their references. *)

Module Clicks.

Inductive Effect :=
  | PerformNodeSelection (node : nat)   (* [performNodeSelection(node, _)] *)
  | NodeDoubleClick (node : nat).       (* the double-click handler / callback *)

Record Timer := mkTimer { timerId : nat; due : Z; timerNode : nat }.

(** The fields of the double-click detection, the pending timers and the
    effects so far (most recent first). *)
Record Handler := mkHandler {
  clickTimeout : option nat;
  lastClickTime : Z;
  clickNode : option nat;
  timers : list Timer;
  nextTimerId : nat;
  effects : list Effect
}.

Definition initial : Handler :=
  {| clickTimeout := None; lastClickTime := 0; clickNode := None;
     timers := []; nextTimerId := 1; effects := [] |}.

(** [clearTimeout(id)]. *)
Definition clearTimeout (id : nat) (ts : list Timer) : list Timer :=
  filter (fun t => negb (Nat.eqb (timerId t) id)) ts.

Definition sameNode (a : option nat) (node : nat) : bool :=
  match a with Some n => Nat.eqb n node | None => false end.

End Clicks.

Module D3InteractionHandler.
Import Clicks.

(** The callback armed by [handleNodeClick]:
    [performNodeSelection(node, nodeRect); clickTimeout = null; clickNode = null]. *)
Definition onTimer (node : nat) (h : Handler) : Handler :=
  {| clickTimeout := None; lastClickTime := lastClickTime h;
     clickNode := None; timers := timers h; nextTimerId := nextTimerId h;
     effects := PerformNodeSelection node :: effects h |}.

(** Fire the timers that are due at time [now]. *)
Fixpoint fire (now : Z) (pending : list Timer) (h : Handler) : Handler :=
  match pending with
  | [] => h
  | t :: rest =>
      if (due t <=? now)%Z
      then fire now rest
             (onTimer (timerNode t)
                {| clickTimeout := clickTimeout h;
                   lastClickTime := lastClickTime h;
                   clickNode := clickNode h;
                   timers := clearTimeout (timerId t) (timers h);
                   nextTimerId := nextTimerId h; effects := effects h |})
      else fire now rest h
  end.

Definition advance (now : Z) (h : Handler) : Handler := fire now (timers h) h.

(** [handleNodeClick], at the moment [currentTime = Date.now()]. *)
Definition handleNodeClick (currentTime : Z) (node : nat) (h : Handler)
    : Handler :=
  let timeDiff := (currentTime - lastClickTime h)%Z in
  let isDoubleClick := (timeDiff <? 300)%Z && sameNode (clickNode h) node in
  if isDoubleClick then
    {| lastClickTime := 0; clickNode := None;
       clickTimeout := None;
       timers := match clickTimeout h with
                 | Some id => clearTimeout id (timers h)
                 | None => timers h
                 end;
       nextTimerId := nextTimerId h;
       effects := NodeDoubleClick node :: effects h |}
  else
    {| lastClickTime := currentTime; clickNode := Some node;
       clickTimeout := Some (nextTimerId h);
       timers := timers h
                 ++ [mkTimer (nextTimerId h) (currentTime + 250) node];
       nextTimerId := S (nextTimerId h);
       effects := effects h |}.

(** A click event stamped [t] on [node], dispatched by the event loop. *)
Definition click (t : Z) (node : nat) (h : Handler) : Handler :=
  handleNodeClick t node (advance t h).

End D3InteractionHandler.

Module MouseInteraction.
Import Clicks.

Definition doubleClickTimeout : Z := 300.

(** The callback armed by [handleNodeClick]:
    [lastClickTime = 0; clickNode = null; clickTimeout = null]. *)
Definition onTimer (h : Handler) : Handler :=
  {| clickTimeout := None; lastClickTime := 0;
     clickNode := None; timers := timers h; nextTimerId := nextTimerId h;
     effects := effects h |}.

Fixpoint fire (now : Z) (pending : list Timer) (h : Handler) : Handler :=
  match pending with
  | [] => h
  | t :: rest =>
      if (due t <=? now)%Z
      then fire now rest
             (onTimer
                {| clickTimeout := clickTimeout h;
                   lastClickTime := lastClickTime h;
                   clickNode := clickNode h;
                   timers := clearTimeout (timerId t) (timers h);
                   nextTimerId := nextTimerId h; effects := effects h |})
      else fire now rest h
  end.

Definition advance (now : Z) (h : Handler) : Handler := fire now (timers h) h.

(** [handleNodeClick]: the selection runs at once, the timer only closes
    the double-click window. *)
Definition handleNodeClick (currentTime : Z) (node : nat) (h : Handler)
    : Handler :=
  let timeDiff := (currentTime - lastClickTime h)%Z in
  let isDoubleClick :=
    (timeDiff <? doubleClickTimeout)%Z && sameNode (clickNode h) node in
  if isDoubleClick then
    {| lastClickTime := 0; clickNode := None;
       clickTimeout := None;
       timers := match clickTimeout h with
                 | Some id => clearTimeout id (timers h)
                 | None => timers h
                 end;
       nextTimerId := nextTimerId h;
       effects := NodeDoubleClick node :: effects h |}
  else
    {| lastClickTime := currentTime; clickNode := Some node;
       clickTimeout := Some (nextTimerId h);
       timers := match clickTimeout h with
                 | Some id => clearTimeout id (timers h)
                 | None => timers h
                 end
                 ++ [mkTimer (nextTimerId h)
                       (currentTime + doubleClickTimeout) node];
       nextTimerId := S (nextTimerId h);
       effects := PerformNodeSelection node :: effects h |}.

Definition click (t : Z) (node : nat) (h : Handler) : Handler :=
  handleNodeClick t node (advance t h).

End MouseInteraction.

(** ** The undo manager ([UndoManager]) *)

Module UndoManager.

Definition MAX_STACK_SIZE : nat := 5.

(** The two stacks, in array order: the most recent snapshot is last. *)
Record Stacks := mkStacks {
  undoStack : list MindMapData;
  redoStack : list MindMapData
}.

Definition empty : Stacks := {| undoStack := []; redoStack := [] |}.

Definition setChildren (cs : list nat) (n : MindMapNode) : MindMapNode :=
  {| data := data n; parent := parent n; children := cs |}.

Definition setParent (p : option nat) (n : MindMapNode) : MindMapNode :=
  {| data := data n; parent := p; children := children n |}.

(** [nodes.map(node => clone(node))] for a [clone] that allocates. *)
Fixpoint mapClone (clone : Store -> nat -> option (Store * nat))
    (st : Store) (nodes : list nat) : option (Store * list nat) :=
  match nodes with
  | [] => Some (st, [])
  | node :: nodes' =>
      match clone st node with
      | None => None
      | Some (st, c) =>
          match mapClone clone st nodes' with
          | None => None
          | Some (st, cs) => Some (st, c :: cs)
          end
      end
  end.

(** [deepCloneNode]: [{ ...node }] allocates the clone, a copy of all the
    fields of [node]; the children are cloned one after the other, then
    [clone.children] and [clone.parent = null] are written.  The recursion
    follows the [children] arrays: [fuel] bounds its depth. *)
Fixpoint deepCloneNode (fuel : nat) (st : Store) (node : nat)
    : option (Store * nat) :=
  match fuel with
  | O => None
  | S fuel' =>
      match st !! node with
      | None => None
      | Some n =>
          let clone := length st in
          let st := st ++ [n] in
          match mapClone (deepCloneNode fuel') st (children n) with
          | None => None
          | Some (st, cs) =>
              let st := alter (setChildren cs) clone st in
              let st := alter (setParent None) clone st in
              Some (st, clone)
          end
      end
  end.

(** The loop [for (const child of node.children)] of
    [rebuildParentReferences]. *)
Fixpoint rebuildChildren (rebuild : Store -> nat -> option Store)
    (node : nat) (st : Store) (cs : list nat) : option Store :=
  match cs with
  | [] => Some st
  | child :: cs' =>
      let st := alter (setParent (Some node)) child st in
      match rebuild st child with
      | None => None
      | Some st => rebuildChildren rebuild node st cs'
      end
  end.

(** [rebuildParentReferences]. *)
Fixpoint rebuildParentReferences (fuel : nat) (st : Store) (node : nat)
    : option Store :=
  match fuel with
  | O => None
  | S fuel' =>
      match st !! node with
      | None => None
      | Some n => rebuildChildren (rebuildParentReferences fuel') node st (children n)
      end
  end.

(** The snapshot built at the start of [saveSnapshot], [undo] and [redo]:
    a clone of the tree below [rootNode], a clone of every node of
    [allNodes], and the parent links of the first clone rebuilt. *)
Definition snapshot (fuel : nat) (st : Store) (d : MindMapData)
    : option (Store * MindMapData) :=
  match
    match rootNode d with
    | Some r =>
        match deepCloneNode fuel st r with
        | Some (st, c) => Some (st, Some c)
        | None => None
        end
    | None => Some (st, None)
    end
  with
  | None => None
  | Some (st, root') =>
      match mapClone (deepCloneNode fuel) st (allNodes d) with
      | None => None
      | Some (st, all') =>
          match
            match root' with
            | Some c => rebuildParentReferences fuel st c
            | None => Some st
            end
          with
          | None => None
          | Some st =>
              Some (st, {| rootNode := root'; allNodes := all';
                           maxLevel := maxLevel d |})
          end
      end
  end.

(** [saveSnapshot]: push, drop the oldest entry when the stack has grown
    beyond [MAX_STACK_SIZE], clear the redo stack. *)
Definition saveSnapshot (fuel : nat) (u : Stacks) (st : Store) (d : MindMapData)
    : option (Stacks * Store) :=
  match snapshot fuel st d with
  | None => None
  | Some (st, snap) =>
      let undoStack := undoStack u ++ [snap] in
      let undoStack :=
        if (MAX_STACK_SIZE <? length undoStack)%nat then tl undoStack
        else undoStack in
      Some ({| undoStack := undoStack; redoStack := [] |}, st)
  end.

(** [undo]: the result is [null] on an empty undo stack. *)
Definition undo (fuel : nat) (u : Stacks) (st : Store) (currentState : MindMapData)
    : option (Stacks * Store * option MindMapData) :=
  match undoStack u with
  | [] => Some (u, st, None)
  | _ =>
      match snapshot fuel st currentState with
      | None => None
      | Some (st, snap) =>
          Some ({| undoStack := removelast (undoStack u);
                   redoStack := redoStack u ++ [snap] |},
                st, last (undoStack u))
      end
  end.

(** [redo]. *)
Definition redo (fuel : nat) (u : Stacks) (st : Store) (currentState : MindMapData)
    : option (Stacks * Store * option MindMapData) :=
  match redoStack u with
  | [] => Some (u, st, None)
  | _ =>
      match snapshot fuel st currentState with
      | None => None
      | Some (st, snap) =>
          Some ({| undoStack := undoStack u ++ [snap];
                   redoStack := removelast (redoStack u) |},
                st, last (redoStack u))
      end
  end.

(** [reachable st i j]: the object [j] is [i] or is reached from [i]
    through [children] arrays. *)
Inductive reachable (st : Store) : nat -> nat -> Prop :=
  | reach_here i : reachable st i i
  | reach_child i n c j :
      st !! i = Some n -> c ∈ children n -> reachable st c j ->
      reachable st i j.

End UndoManager.

(** A sample history: the store and the data parsed from Scenario 1, the
    trees below its nodes, and the manager after one [saveSnapshot]. *)
Definition sampleStore : Store := fst (parseMarkdownContent scenario1 (js "doc.md")).
Definition sampleData : MindMapData := snd (parseMarkdownContent scenario1 (js "doc.md")).
Definition sampleTree : Tree :=
  default (TNode (newNodeData [] 0) []) (treeOf 10 sampleStore 0).
Definition sampleTrees : list Tree :=
  default [] (mapM (treeOf 10 sampleStore) (allNodes sampleData)).
Definition sampleSaved : UndoManager.Stacks * Store :=
  default (UndoManager.empty, sampleStore)
    (UndoManager.saveSnapshot 10 UndoManager.empty sampleStore sampleData).

(** ** Further notions for the text utilities and the parser *)

(** What the text matched by an atom looks like. *)
Definition segMatches (a : Atom) (seg : jsstring) : Prop :=
  match a with
  | One p => exists c, seg = [c] /\ p c = true
  | Opt p => seg = [] \/ exists c, seg = [c] /\ p c = true
  | Star p => forallb p seg = true
  | Plus p => seg <> [] /\ forallb p seg = true
  | Eoi => seg = []
  end.

Definition CR : char := 13%N.

(** A text whose lines all end with a carriage return and a line feed, as
    editors on Windows write it. *)
Definition crlfDocument (lines : list jsstring) : jsstring :=
  concat (map (fun l => l ++ [CR; LF]) lines).

(** The result of [parseMarkdownContent] that holds the root alone. *)
Definition rootOnly (filePath : jsstring) : Store * MindMapData :=
  ([ {| data := newNodeData (getFileNameWithoutExtension filePath) 0;
        parent := None; children := [] |} ],
   {| rootNode := Some 0%nat; allNodes := [0%nat]; maxLevel := 0 |}).

(** A line that the loop of [parseMarkdownContent] cannot turn into a
    node: it is empty or ends with a carriage return. *)
Definition deadLine (l : jsstring) : Prop :=
  l = [] \/ exists body, l = body ++ [CR].

(** The two shapes of a list marker: one of the characters [*], [-], [+],
    or digits followed by a dot. *)
Definition listMarker (mk : jsstring) : Prop :=
  (exists m, mk = [m] /\ isMarker m = true) \/
  (exists ds, mk = ds ++ [46%N] /\ ds <> [] /\ forallb isDigit ds = true).

(** The levels of the node objects, in the order of the store. *)
Definition nodeLevels (st : Store) : list nat :=
  map (fun n => level (data n)) st.

(** [validateNodeText]; the constants are parameters, as for the
    editor. *)
Section NodeTextValidation.

Variable MAX_TEXT_LENGTH : nat.
Variable INVALID_CHARACTERS : list jsstring.

(** The loop [for (const char of INVALID_CHARACTERS)] with its early
    [return false]. *)
Fixpoint noInvalidCharacter (text : jsstring) (chars : list jsstring) : bool :=
  match chars with
  | [] => true
  | char :: chars' =>
      if includes text char then false else noInvalidCharacter text chars'
  end.

Definition validateNodeText (text : jsstring) : bool :=
  if match text with [] => true | _ => false end
     || Nat.eqb (length (trim text)) 0
  then false
  else if Nat.ltb MAX_TEXT_LENGTH (length text) then false
  else noInvalidCharacter text INVALID_CHARACTERS.

End NodeTextValidation.

(** [isMindMapFile]; [MARKDOWN_EXTENSION] is declared with the other
    constants and is a parameter here. *)
Definition isMindMapFile (MARKDOWN_EXTENSION : jsstring)
    (content extension : jsstring) : bool :=
  bool_decide (extension = MARKDOWN_EXTENSION)
  && startsWith (trim content) MINDMAP_IDENTIFIER.

(** The content that [D3FileHandler.createMindMapFile] writes for a
    title: the identifier line, an empty line and one list item. *)
Definition createMindMapFileContent (title : jsstring) : jsstring :=
  js "#mindmap" ++ [LF; LF] ++ js "* " ++ title ++ [LF].
(** ** Node relationship utilities ([mindmap-utils.ts]) *)

(** The functions follow the [children] arrays and the [parent] links of
    the node objects; [fuel] bounds the depth of the recursion, and
    [None] means a dangling reference or not enough fuel. *)

(** [getNodeDescendants]: for every child, the child and then its
    descendants. *)
Fixpoint getNodeDescendants (fuel : nat) (st : Store) (node : nat)
    : option (list nat) :=
  match fuel with
  | O => None
  | S fuel' =>
      match st !! node with
      | None => None
      | Some n =>
          (fix loop (cs : list nat) : option (list nat) :=
             match cs with
             | [] => Some []
             | child :: cs' =>
                 match getNodeDescendants fuel' st child, loop cs' with
                 | Some sub, Some rest => Some (child :: sub ++ rest)
                 | _, _ => None
                 end
             end) (children n)
      end
  end.

(** [getNodeAncestors]: the chain of [parent] links, nearest first. *)
Fixpoint getNodeAncestors (fuel : nat) (st : Store) (node : nat)
    : option (list nat) :=
  match fuel with
  | O => None
  | S fuel' =>
      match st !! node with
      | None => None
      | Some n =>
          match parent n with
          | None => Some []
          | Some current =>
              match getNodeAncestors fuel' st current with
              | Some ancestors => Some (current :: ancestors)
              | None => None
              end
          end
      end
  end.

(** [isNodeDescendant]: [parent.children.includes(child)], then the
    search below every child, stopping at the first hit. *)
Fixpoint isNodeDescendant (fuel : nat) (st : Store) (parent child : nat)
    : option bool :=
  match fuel with
  | O => None
  | S fuel' =>
      match st !! parent with
      | None => None
      | Some n =>
          if existsb (Nat.eqb child) (children n) then Some true
          else
            (fix loop (cs : list nat) : option bool :=
               match cs with
               | [] => Some false
               | grandChild :: cs' =>
                   match isNodeDescendant fuel' st grandChild child with
                   | Some true => Some true
                   | Some false => loop cs'
                   | None => None
                   end
               end) (children n)
      end
  end.

(** The data of the nodes of a tree, parents before children. *)
Fixpoint preorder (t : Tree) : list NodeData :=
  match t with
  | TNode d kids => d :: flat_map preorder kids
  end.

(** The object [id] of the store carries the data [d]. *)
Definition carries (st : Store) (id : nat) (d : NodeData) : Prop :=
  exists n, st !! id = Some n /\ data n = d.

(** The root object has no parent. *)
Definition rootHasNoParent (st : Store) : Prop :=
  exists r, st !! 0%nat = Some r /\ parent r = None.
(** ** The rest of [UndoManager] *)

Module UndoHistory.
Import UndoManager.

Definition canUndo (u : Stacks) : bool := (0 <? length (undoStack u))%nat.
Definition canRedo (u : Stacks) : bool := (0 <? length (redoStack u))%nat.
Definition getUndoCount (u : Stacks) : nat := length (undoStack u).
Definition getRedoCount (u : Stacks) : nat := length (redoStack u).
Definition clearHistory (u : Stacks) : Stacks := {| undoStack := []; redoStack := [] |}.

(** The managers that can be reached from a new one by calls of its
    methods, whatever the store and the state handed to them are. *)
Inductive history : Stacks -> Prop :=
  | history_new : history empty
  | history_saveSnapshot fuel u st d u' st' :
      history u -> saveSnapshot fuel u st d = Some (u', st') -> history u'
  | history_undo fuel u st d u' st' res :
      history u -> undo fuel u st d = Some (u', st', res) -> history u'
  | history_redo fuel u st d u' st' res :
      history u -> redo fuel u st d = Some (u', st', res) -> history u'
  | history_clearHistory u :
      history u -> history (clearHistory u).

(** [detached st t i]: following [children] from the object [i] one reads
    the tree [t], and every object met has no [parent]. *)
Fixpoint detached (st : Store) (t : Tree) (i : nat) {struct t} : Prop :=
  match t with
  | TNode d kids =>
      exists n, st !! i = Some n /\ data n = d /\ parent n = None /\
        (fix all2 (kids : list Tree) (cs : list nat) {struct kids} : Prop :=
           match kids, cs with
           | [], [] => True
           | k :: kids', c :: cs' => detached st k c /\ all2 kids' cs'
           | _, _ => False
           end) kids (children n)
  end.

End UndoHistory.
(** ** The rest of the inline editor *)

Module NodeEditorCancel.
Import NodeEditor.

(** [cancelEdit]: the text of the element is restored when the original
    text is not empty, then the session is closed. *)
Definition cancelEdit (ed : Editor) : Editor :=
  if negb (isEditing (editingState ed)) then ed
  else
    let ed :=
      match editElement (editingState ed), originalText (editingState ed) with
      | Some e, _ :: _ =>
          setDom e {| textContent := originalText (editingState ed);
                      contentEditable := contentEditable (dom ed e);
                      editingClass := editingClass (dom ed e) |} ed
      | _, _ => ed
      end in
    exitEditMode ed.

End NodeEditorCancel.
(** ** Selection and hover state of the two interaction handlers *)

(** [node.data.selected] and [node.data.hovered] are optional booleans
    that the handlers only test for truthiness: a missing flag is [false].
    Every node has one [.node-rect] element, bound to the node; the
    classes [selected-rect] and [hovered-rect] of that element are
    [selectedRect] and [hoveredRect].  The callbacks are recorded in
    [calls], most recent first, and do not touch this state. *)

Module SelectionState.

Inductive Callback :=
  | OnNodeSelect (node : nat)
  | OnNodeHover (node : nat)
  | OnNodeLeave (node : nat)
  | OnCanvasClick.

Record Selection := mkSelection {
  selectedNode : option nat;
  hoveredNode : option nat;
  selected : nat -> bool;
  hovered : nat -> bool;
  selectedRect : nat -> bool;
  hoveredRect : nat -> bool;
  calls : list Callback
}.

Definition initial : Selection :=
  {| selectedNode := None; hoveredNode := None;
     selected := fun _ => false; hovered := fun _ => false;
     selectedRect := fun _ => false; hoveredRect := fun _ => false;
     calls := [] |}.

Definition setFlag (f : nat -> bool) (k : nat) (v : bool) : nat -> bool :=
  fun k' => if Nat.eqb k' k then v else f k'.

Definition isNode (a : option nat) (node : nat) : bool :=
  match a with Some n => Nat.eqb n node | None => false end.

Definition call (c : Callback) (s : Selection) : Selection :=
  {| selectedNode := selectedNode s; hoveredNode := hoveredNode s;
     selected := selected s; hovered := hovered s;
     selectedRect := selectedRect s; hoveredRect := hoveredRect s;
     calls := c :: calls s |}.

(** The state is consistent when the flags, the classes and the two
    references of the handler tell the same story. *)
Definition consistent (s : Selection) : Prop :=
  (forall n, selected s n = true <-> selectedNode s = Some n) /\
  (forall n, selectedRect s n = selected s n) /\
  (forall n, hovered s n = true <-> hoveredNode s = Some n) /\
  (forall n, hoveredRect s n = hovered s n) /\
  (forall n, selected s n = true -> hovered s n = false).

End SelectionState.

Module MouseSelection.
Import SelectionState.

(** [clearNodeHoverState(node, nodeRect)]. *)
Definition clearNodeHoverState (node : nat) (s : Selection) : Selection :=
  {| selectedNode := selectedNode s;
     hoveredNode := if isNode (hoveredNode s) node then None else hoveredNode s;
     selected := selected s; hovered := setFlag (hovered s) node false;
     selectedRect := selectedRect s;
     hoveredRect := setFlag (hoveredRect s) node false;
     calls := calls s |}.

(** [clearHoverState]: the class is removed from every rectangle. *)
Definition clearHoverState (s : Selection) : Selection :=
  match hoveredNode s with
  | Some h =>
      {| selectedNode := selectedNode s; hoveredNode := None;
         selected := selected s; hovered := setFlag (hovered s) h false;
         selectedRect := selectedRect s; hoveredRect := fun _ => false;
         calls := calls s |}
  | None => s
  end.

(** [clearSelection]: the class is removed from every rectangle. *)
Definition clearSelection (s : Selection) : Selection :=
  match selectedNode s with
  | Some p =>
      {| selectedNode := None; hoveredNode := hoveredNode s;
         selected := setFlag (selected s) p false; hovered := hovered s;
         selectedRect := fun _ => false; hoveredRect := hoveredRect s;
         calls := calls s |}
  | None => s
  end.

(** [performNodeSelection(node, nodeRect)]; [editing] is the node returned
    by [getEditingNode] when [isEditing()] holds, and [None] otherwise. *)
Definition performNodeSelection (editing : option nat) (node : nat)
    (s : Selection) : Selection :=
  if isNode editing node then s
  else
    let s :=
      match selectedNode s with
      | Some p =>
          if Nat.eqb p node then s
          else
            {| selectedNode := selectedNode s; hoveredNode := hoveredNode s;
               selected := setFlag (selected s) p false; hovered := hovered s;
               selectedRect := setFlag (selectedRect s) p false;
               hoveredRect := hoveredRect s; calls := calls s |}
      | None => s
      end in
    let s := if hovered s node then clearNodeHoverState node s else s in
    call (OnNodeSelect node)
      {| selectedNode := Some node; hoveredNode := hoveredNode s;
         selected := setFlag (selected s) node true; hovered := hovered s;
         selectedRect := setFlag (selectedRect s) node true;
         hoveredRect := hoveredRect s; calls := calls s |}.

(** [handleNodeHover]. *)
Definition handleNodeHover (node : nat) (s : Selection) : Selection :=
  if selected s node then s
  else
    let s :=
      match hoveredNode s with
      | Some h => if Nat.eqb h node then s else clearHoverState s
      | None => s
      end in
    call (OnNodeHover node)
      {| selectedNode := selectedNode s; hoveredNode := Some node;
         selected := selected s; hovered := setFlag (hovered s) node true;
         selectedRect := selectedRect s;
         hoveredRect := setFlag (hoveredRect s) node true;
         calls := calls s |}.

(** [handleNodeLeave]. *)
Definition handleNodeLeave (node : nat) (s : Selection) : Selection :=
  if selected s node then s
  else call (OnNodeLeave node) (clearNodeHoverState node s).

(** The capturing click listener of [attachCanvasClickHandler], for a
    target that is not a node element. *)
Definition canvasClick (s : Selection) : Selection :=
  call OnCanvasClick (clearSelection s).

Inductive Event :=
  | Select (editing : option nat) (node : nat)
  | Hover (node : nat)
  | Leave (node : nat)
  | CanvasClick
  | ClearSelection.

Definition step (s : Selection) (e : Event) : Selection :=
  match e with
  | Select editing node => performNodeSelection editing node s
  | Hover node => handleNodeHover node s
  | Leave node => handleNodeLeave node s
  | CanvasClick => canvasClick s
  | ClearSelection => clearSelection s
  end.

Definition run (events : list Event) : Selection := fold_left step events initial.

End MouseSelection.

Module D3Selection.
Import SelectionState.

(** [D3InteractionHandler.performNodeSelection]: the selection of the
    clicked node is toggled. *)
Definition performNodeSelection (node : nat) (s : Selection) : Selection :=
  let s :=
    match selectedNode s with
    | Some p =>
        if Nat.eqb p node then s
        else
          {| selectedNode := selectedNode s; hoveredNode := hoveredNode s;
             selected := setFlag (selected s) p false; hovered := hovered s;
             selectedRect := setFlag (selectedRect s) p false;
             hoveredRect := hoveredRect s; calls := calls s |}
    | None => s
    end in
  let flag := negb (selected s node) in
  call (OnNodeSelect node)
    {| selectedNode := if flag then Some node else None;
       hoveredNode := hoveredNode s;
       selected := setFlag (selected s) node flag; hovered := hovered s;
       selectedRect := setFlag (selectedRect s) node flag;
       hoveredRect := hoveredRect s; calls := calls s |}.

(** [D3InteractionHandler.handleCanvasClick]. *)
Definition handleCanvasClick (s : Selection) : Selection :=
  match selectedNode s with
  | Some p =>
      {| selectedNode := None; hoveredNode := hoveredNode s;
         selected := setFlag (selected s) p false; hovered := hovered s;
         selectedRect := fun _ => false; hoveredRect := hoveredRect s;
         calls := calls s |}
  | None => s
  end.

Inductive Event :=
  | Select (node : nat)
  | CanvasClick.

Definition step (s : Selection) (e : Event) : Selection :=
  match e with
  | Select node => performNodeSelection node s
  | CanvasClick => handleCanvasClick s
  end.

Definition run (events : list Event) : Selection := fold_left step events initial.

End D3Selection.
(** ** Sequences of clicks handled by [MouseInteraction] *)

Module MouseClicks.
Import Clicks.

(** The handler after a sequence of clicks, each given by its time stamp
    and its node. *)
Definition run (clicks : list (Z * nat)) : Handler :=
  fold_left (fun h c => MouseInteraction.click (fst c) (snd c) h) clicks initial.

(** At most one timer is pending, and it is the one [clickTimeout]
    refers to. *)
Definition tidy (h : Handler) : Prop :=
  timers h = [] \/
  exists t, timers h = [t] /\ clickTimeout h = Some (timerId t).

End MouseClicks.
(** ** Inline editing in [D3InteractionHandler] *)

Module D3Editing.

Inductive Message := nodeTextInvalid | saveFailed.

(** The toasts appended to the document, the callback
    [onNodeTextChanged] and the hiding of the editing hint. *)
Inductive Effect :=
  | ValidationError (m : Message)
  | EditSuccess
  | OnNodeTextChanged (node : nat) (newText : jsstring)
  | HideEditingHint.

(** The handler with the objects it reaches, as for [NodeEditor]. *)
Record Editor := mkEditor {
  editingState : NodeEditor.EditingState;
  nodeText : nat -> jsstring;
  dom : nat -> NodeEditor.Element;
  effects : list Effect
}.

Definition emit (e : Effect) (ed : Editor) : Editor :=
  {| editingState := editingState ed; nodeText := nodeText ed;
     dom := dom ed; effects := e :: effects ed |}.

Definition setDom (e : nat) (el : NodeEditor.Element) (ed : Editor) : Editor :=
  {| editingState := editingState ed; nodeText := nodeText ed;
     dom := NodeEditor.update (dom ed) e el; effects := effects ed |}.

Definition setNodeText (n : nat) (t : jsstring) (ed : Editor) : Editor :=
  {| editingState := editingState ed;
     nodeText := NodeEditor.update (nodeText ed) n t;
     dom := dom ed; effects := effects ed |}.

(** [exitEditMode]. *)
Definition exitEditMode (ed : Editor) : Editor :=
  if negb (NodeEditor.isEditing (editingState ed)) then ed
  else
    let ed :=
      match NodeEditor.editElement (editingState ed) with
      | Some e =>
          setDom e {| NodeEditor.textContent := NodeEditor.textContent (dom ed e);
                      NodeEditor.contentEditable := false;
                      NodeEditor.editingClass := false |} ed
      | None => ed
      end in
    let ed := emit HideEditingHint ed in
    {| editingState :=
         {| NodeEditor.isEditing := false; NodeEditor.currentNode := None;
            NodeEditor.originalText := []; NodeEditor.editElement := None |};
       nodeText := nodeText ed; dom := dom ed; effects := effects ed |}.

(** [showValidationError]: the toast only. *)
Definition showValidationError (m : Message) (ed : Editor) : Editor :=
  emit (ValidationError m) ed.

(** [editElement.textContent = this.editingState.originalText]. *)
Definition restoreText (e : nat) (ed : Editor) : Editor :=
  setDom e {| NodeEditor.textContent := NodeEditor.originalText (editingState ed);
              NodeEditor.contentEditable := NodeEditor.contentEditable (dom ed e);
              NodeEditor.editingClass := NodeEditor.editingClass (dom ed e) |} ed.

Section Saving.

Variable MAX_TEXT_LENGTH : nat.
Variable INVALID_CHARACTERS : list jsstring.

(** Whether the callback [onNodeTextChanged] throws. *)
Variable throws : nat -> jsstring -> bool.

(** [saveNodeText]: every path through the [try] block ends in the
    [finally] clause, which calls [exitEditMode]. *)
Definition saveNodeText (ed : Editor) : Editor :=
  match NodeEditor.isEditing (editingState ed),
        NodeEditor.currentNode (editingState ed),
        NodeEditor.editElement (editingState ed) with
  | true, Some currentNode, Some editElement =>
      let newText := trim (NodeEditor.textContent (dom ed editElement)) in
      if negb (validateNodeText MAX_TEXT_LENGTH INVALID_CHARACTERS newText) then
        exitEditMode
          (restoreText editElement (showValidationError nodeTextInvalid ed))
      else if decide (newText = NodeEditor.originalText (editingState ed)) then
        exitEditMode (exitEditMode ed)
      else
        let ed := setNodeText currentNode newText ed in
        let ed := emit (OnNodeTextChanged currentNode newText) ed in
        if throws currentNode newText then
          exitEditMode (restoreText editElement (showValidationError saveFailed ed))
        else exitEditMode (emit EditSuccess ed)
  | _, _, _ => ed
  end.

End Saving.

(** [cancelNodeEdit]. *)
Definition cancelNodeEdit (ed : Editor) : Editor :=
  exitEditMode
    match NodeEditor.editElement (editingState ed) with
    | Some e => restoreText e ed
    | None => ed
    end.

(** Node 1, whose text is "B", is edited in element 0, where the user
    has typed a text with a forbidden character. *)
Definition sampleEditor : Editor :=
  {| editingState := {| NodeEditor.isEditing := true;
                        NodeEditor.currentNode := Some 1%nat;
                        NodeEditor.originalText := js "B";
                        NodeEditor.editElement := Some 0%nat |};
     nodeText := fun n => match n with 1%nat => js "B" | _ => js "A" end;
     dom := fun _ => {| NodeEditor.textContent := js " B<2 ";
                        NodeEditor.contentEditable := true;
                        NodeEditor.editingClass := true |};
     effects := [] |}.

End D3Editing.
(** ** Message templates ([I18nManager.replaceParams], [format]) *)

Module I18n.

(** [/\{(\w+)\}/]. *)
Definition placeholder : Regex :=
  [One (isChar 123); Plus isIdentChar; One (isChar 125)].

(** [params]: for a key, [String(params[key])] when [params[key]] is
    defined. *)
Definition Params := jsstring -> option jsstring.

(** [message.replace(/\{(\w+)\}/g, (match, key) => ...)]: the matches are
    searched from left to right, each search starting where the match
    before it ended; a match is replaced by the parameter of its key, or
    left as it is when the parameter is undefined.  [skip] counts the
    characters of the current match that are still to be passed. *)
Fixpoint replaceParamsFrom (params : Params) (skip : nat) (s : jsstring)
    : jsstring :=
  match s with
  | [] => []
  | c :: s' =>
      match skip with
      | S skip' => replaceParamsFrom params skip' s'
      | O =>
          match rmatch placeholder s with
          | Some ([_; key; _], rest) =>
              let matched := take (length s - length rest) s in
              match params key with
              | Some value => value
              | None => matched
              end ++ replaceParamsFrom params (length matched - 1) s'
          | _ => c :: replaceParamsFrom params 0 s'
          end
      end
  end.

Definition replaceParams (message : jsstring) (params : Params) : jsstring :=
  replaceParamsFrom params 0 message.

(** A template seen as a sequence of plain texts and placeholders. *)
Inductive Piece :=
  | Text (t : jsstring)
  | Hole (key : jsstring).

Definition braces (key : jsstring) : jsstring := [123%N] ++ key ++ [125%N].

Definition render (p : Piece) : jsstring :=
  match p with Text t => t | Hole key => braces key end.

Definition fill (params : Params) (p : Piece) : jsstring :=
  match p with
  | Text t => t
  | Hole key =>
      match params key with Some value => value | None => braces key end
  end.

(** Plain texts have no opening brace; keys are words. *)
Definition wellFormedPiece (p : Piece) : bool :=
  match p with
  | Text t => forallb (fun c => negb (isChar 123 c)) t
  | Hole key =>
      match key with [] => false | _ => forallb isIdentChar key end
  end.

(** The template of the notice shown when a node is deleted, as an
    example: "Deleted {name} and {count} children". *)
Definition sampleTemplate : list Piece :=
  [Text (js "Deleted "); Hole (js "name"); Text (js " and ");
   Hole (js "count"); Text (js " children")].

Definition sampleParams : Params :=
  fun key => if decide (key = js "name") then Some (js "B")
             else if decide (key = js "count") then Some (js "2")
             else None.

End I18n.
(** ** [debounce] and [throttle] *)

(** The closures returned by [debounce] and [throttle] keep their state in
    the variables they capture.  Timers are modelled as for the click
    handlers: before a call stamped [now] runs, every pending timer due
    at [now] or earlier has fired, in the order in which the timers were
    armed. *)

Module Debounce.
Section Debounce.

Context {A : Type}.

(** The arguments of a call. *)
Record Timer := mkTimer { timerId : nat; due : Z; args : A }.

(** [timeout], the pending timers, and the arguments [func] has been
    called with so far, most recent first. *)
Record Debounced := mkDebounced {
  timeout : option nat;
  timers : list Timer;
  nextTimerId : nat;
  called : list A
}.

Definition initial : Debounced :=
  {| timeout := None; timers := []; nextTimerId := 1; called := [] |}.

Definition clearTimeout (id : nat) (ts : list Timer) : list Timer :=
  filter (fun t => negb (Nat.eqb (timerId t) id)) ts.

(** The timers that are due fire: [func(...args)]. *)
Fixpoint fire (now : Z) (pending : list Timer) (d : Debounced) : Debounced :=
  match pending with
  | [] => d
  | t :: rest =>
      if (due t <=? now)%Z
      then fire now rest
             {| timeout := timeout d;
                timers := clearTimeout (timerId t) (timers d);
                nextTimerId := nextTimerId d;
                called := args t :: called d |}
      else fire now rest d
  end.

Definition advance (now : Z) (d : Debounced) : Debounced := fire now (timers d) d.

Variable wait : Z.

(** A call of the debounced function at the moment [now]. *)
Definition invoke (d : Debounced) (call : Z * A) : Debounced :=
  let now := fst call in
  let d := advance now d in
  {| timeout := Some (nextTimerId d);
     timers := match timeout d with
               | Some id => clearTimeout id (timers d)
               | None => timers d
               end ++ [mkTimer (nextTimerId d) (now + wait) (snd call)];
     nextTimerId := S (nextTimerId d);
     called := called d |}.

(** A burst: every call comes less than [wait] after the one before. *)
Fixpoint burst (last : Z) (calls : list (Z * A)) : Prop :=
  match calls with
  | [] => True
  | c :: calls' => (last <= fst c < last + wait)%Z /\ burst (fst c) calls'
  end.

End Debounce.
End Debounce.

Module Throttle.
Section Throttle.

Context {A : Type}.

(** [inThrottle], the due times of the pending timers, and the calls of
    [func] so far with their time, most recent first. *)
Record Throttled := mkThrottled {
  inThrottle : bool;
  timers : list Z;
  called : list (Z * A)
}.

Definition initial : Throttled :=
  {| inThrottle := false; timers := []; called := [] |}.

(** The timers that are due fire: [inThrottle = false]. *)
Definition advance (now : Z) (h : Throttled) : Throttled :=
  {| inThrottle := if existsb (fun due => (due <=? now)%Z) (timers h)
                   then false else inThrottle h;
     timers := filter (fun due => negb (due <=? now)%Z) (timers h);
     called := called h |}.

Variable limit : Z.

(** A call of the throttled function at the moment [now]. *)
Definition invoke (h : Throttled) (call : Z * A) : Throttled :=
  let now := fst call in
  let h := advance now h in
  if negb (inThrottle h) then
    {| inThrottle := true; timers := timers h ++ [(now + limit)%Z];
       called := call :: called h |}
  else h.

(** Consecutive calls of [func] are at least [limit] apart. *)
Fixpoint spaced (calls : list (Z * A)) : Prop :=
  match calls with
  | later :: (((earlier :: _) as calls')) =>
      (fst earlier + limit <= fst later)%Z /\ spaced calls'
  | _ => True
  end.

(** After a call of the throttled function the flag is set, one timer
    is pending, due [limit] after the latest call of [func], and the
    calls of [func] so far are spaced. *)
Definition throttling (first : Z * A) (h : Throttled) : Prop :=
  inThrottle h = true /\
  exists c rest, called h = c :: rest /\ timers h = [(fst c + limit)%Z] /\
    spaced (called h) /\ List.last (called h) first = first.

End Throttle.
End Throttle.
(** ** Colour utilities *)

Module Colors.

Fixpoint digitsOf (d : Decimal.uint) : jsstring :=
  match d with
  | Decimal.Nil => []
  | Decimal.D0 d => 48%N :: digitsOf d
  | Decimal.D1 d => 49%N :: digitsOf d
  | Decimal.D2 d => 50%N :: digitsOf d
  | Decimal.D3 d => 51%N :: digitsOf d
  | Decimal.D4 d => 52%N :: digitsOf d
  | Decimal.D5 d => 53%N :: digitsOf d
  | Decimal.D6 d => 54%N :: digitsOf d
  | Decimal.D7 d => 55%N :: digitsOf d
  | Decimal.D8 d => 56%N :: digitsOf d
  | Decimal.D9 d => 57%N :: digitsOf d
  end.

(** The text of a number that is a natural number, as a template literal
    prints it. *)
Definition numberToString (n : N) : jsstring := digitsOf (N.to_uint n).

(** The template literal of [getNodeColor]. *)
Definition hsl (hue saturation lightness : N) : jsstring :=
  js "hsl(" ++ numberToString hue ++ js ", " ++ numberToString saturation
    ++ js "%, " ++ numberToString lightness ++ js "%)".

(** [getNodeColor], for a level and a depth that are natural numbers
    (subtraction on [N] stops at 0, below the lower bounds 40 and 30 of
    the two maxima). *)
Definition getNodeColor (level depth : N) : jsstring :=
  let hue := ((level * 30 + depth * 15) mod 360)%N in
  let saturation := N.max 40 (70 - level * 5) in
  let lightness := N.max 30 (60 - level * 3) in
  hsl hue saturation lightness.

(** [getContrastTextColor]. *)
Definition getContrastTextColor (backgroundColor : jsstring) : jsstring :=
  if includes backgroundColor (js "hsl(") && includes backgroundColor (js "50%")
  then js "#000" else js "#fff".

(** The hues, and the levels up to the one from which saturation and
    lightness stay at their lower bounds. *)
Definition hues : list N := map N.of_nat (seq 0 360).
Definition lowLevels : list N := map N.of_nat (seq 0 12).

Definition blackOnlyAtLevel4 : bool :=
  forallb (fun hue =>
    forallb (fun level =>
      bool_decide
        (getContrastTextColor
           (hsl hue (N.max 40 (70 - level * 5)) (N.max 30 (60 - level * 3)))
         = if (level =? 4)%N then js "#000" else js "#fff"))
      lowLevels)
    hues.

End Colors.
(** * Trees in the store *)

Module StoreFacts.

(** Induction over a tree with the hypothesis for all children. *)
Lemma Tree_forall_ind (P : Tree -> Prop) :
  (forall d kids, Forall P kids -> P (TNode d kids)) -> forall t, P t.
Proof.
  intros step. fix IH 1. intros [d kids]. apply step.
  induction kids as [|k kids IHkids]; constructor; [apply IH | exact IHkids].
Qed.

Lemma alter_middle (f : MindMapNode -> MindMapNode) (A B : Store) n :
  alter f (length A) (A ++ n :: B) = A ++ f n :: B.
Proof.
  replace (length A) with (length A + 0)%nat by lia.
  rewrite alter_app_r. reflexivity.
Qed.

Lemma alter_at (f : MindMapNode -> MindMapNode) (A B : Store) n i :
  i = length A -> alter f i (A ++ n :: B) = A ++ f n :: B.
Proof. intros ->. apply alter_middle. Qed.

Lemma flatten_unfold linked top base d kids :
  flatten linked top base (TNode d kids) =
  {| data := d; parent := top; children := rootIds kids (S base) |}
    :: flattenForest linked (if linked then Some base else None) kids (S base).
Proof.
  cbn [flatten].
  assert (Hids : forall b,
    (fix ids (kids : list Tree) (b : nat) {struct kids} : list nat :=
       match kids with
       | [] => []
       | k :: kids' => b :: ids kids' (b + size k)
       end) kids b = rootIds kids b).
  { reflexivity. }
  assert (Hsegs : forall tp b,
    (fix segs (kids : list Tree) (b : nat) {struct kids} : list MindMapNode :=
       match kids with
       | [] => []
       | k :: kids' => flatten linked tp b k ++ segs kids' (b + size k)
       end) kids b = flattenForest linked tp kids b).
  { clear Hids. intros tp. induction kids as [|k kids IH]; intros b;
      [reflexivity|]. cbn [flattenForest]. rewrite <- IH. reflexivity. }
  rewrite Hids, Hsegs. reflexivity.
Qed.

Lemma length_flatten linked : forall t top base,
  length (flatten linked top base t) = size t.
Proof.
  induction t as [d kids IH] using Tree_forall_ind. intros top base.
  rewrite flatten_unfold. cbn [length size]. f_equal.
  generalize (S base) (if linked then Some base else None).
  induction IH as [|k kids Hk _ IHkids]; intros b tp; [reflexivity|].
  cbn [flattenForest map list_sum]. rewrite length_app, Hk, IHkids. reflexivity.
Qed.

Lemma length_flattenForest linked top kids : forall b,
  length (flattenForest linked top kids b) = list_sum (map size kids).
Proof.
  induction kids as [|k kids IH]; intros b; [reflexivity|].
  cbn [flattenForest map list_sum]. rewrite length_app, length_flatten, IH.
  reflexivity.
Qed.

Lemma size_pos t : (0 < size t)%nat.
Proof. destruct t; cbn; lia. Qed.

(** [represents] with its local loop as [Forall2]. *)
Lemma represents_unfold st d kids i :
  represents st (TNode d kids) i <->
  exists n, st !! i = Some n /\ data n = d /\
            Forall2 (represents st) kids (children n).
Proof.
  cbn [represents].
  assert (H : forall ks cs,
    (fix all2 (kids : list Tree) (cs : list nat) {struct kids} : Prop :=
       match kids, cs with
       | [], [] => True
       | k :: kids', c :: cs' => represents st k c /\ all2 kids' cs'
       | _, _ => False
       end) ks cs <-> Forall2 (represents st) ks cs).
  { induction ks as [|k ks IH]; intros cs; destruct cs as [|c cs].
    - split; intros _; constructor.
    - split; intros H; [contradiction | inversion H].
    - split; intros H; [contradiction | inversion H].
    - split; intros H.
      + constructor; [apply H | apply IH, H].
      + inversion H; subst. split; [assumption | apply IH; assumption]. }
  split; intros (n & Hn & Hd & Hk); exists n; (split; [exact Hn|]);
    (split; [exact Hd|]); apply H; exact Hk.
Qed.

(** Allocation never disturbs the trees that are in the store already. *)
Lemma represents_app ext : forall t st i,
  represents st t i -> represents (st ++ ext) t i.
Proof.
  induction t as [d kids IH] using Tree_forall_ind. intros st i.
  rewrite !represents_unfold. intros (n & Hn & Hd & Hk).
  exists n. split; [apply lookup_app_l_Some; exact Hn|]. split; [exact Hd|].
  revert Hk. generalize (children n). clear Hn.
  induction IH as [|k kids Hk' _ IHkids]; intros cs H; inversion H; subst;
    constructor; auto.
Qed.

Lemma represents_agree : forall t (st st' : Store) i,
  represents st t i ->
  (forall k n, st !! k = Some n -> st' !! k = Some n) ->
  represents st' t i.
Proof.
  induction t as [d kids IH] using Tree_forall_ind. intros st st' i.
  rewrite !represents_unfold. intros (n & Hn & Hd & Hk) Hagree.
  exists n. split; [apply Hagree; exact Hn|]. split; [exact Hd|].
  revert Hk. generalize (children n). clear Hn.
  induction IH as [|k kids Hk' _ IHkids]; intros cs H; inversion H; subst;
    constructor; eauto.
Qed.

(** A tree read from its canonical layout. *)
Lemma represents_flatten linked : forall t top A B,
  represents (A ++ flatten linked top (length A) t ++ B) t (length A).
Proof.
  induction t as [d kids IH] using Tree_forall_ind. intros top A B.
  rewrite represents_unfold, flatten_unfold.
  eexists. split.
  { rewrite lookup_app_r by lia. rewrite Nat.sub_diag. reflexivity. }
  split; [reflexivity|]. cbn [children].
  set (root := {| data := d; parent := top;
                  children := rootIds kids (S (length A)) |}).
  set (inner := if linked then Some (length A) else None).
  assert (G : forall pre kids',
    Forall (fun t => forall top A B,
      represents (A ++ flatten linked top (length A) t ++ B) t (length A)) kids' ->
    Forall2 (represents ((A ++ root :: pre)
                         ++ flattenForest linked inner kids'
                              (length (A ++ root :: pre)) ++ B))
            kids' (rootIds kids' (length (A ++ root :: pre)))).
  { intros pre kids' H. revert pre.
    induction H as [|k kids' Hk _ IHk]; intros pre; [constructor|].
    cbn [flattenForest rootIds]. constructor.
    - rewrite <- (app_assoc (flatten _ _ _ k)). apply Hk.
    - specialize (IHk (pre ++ flatten linked inner (length (A ++ root :: pre)) k)).
      replace (length (A ++ root :: pre ++ flatten linked inner
                 (length (A ++ root :: pre)) k))
        with (length (A ++ root :: pre) + size k)%nat in IHk
        by (rewrite !length_app; cbn [length]; rewrite !length_app,
              length_flatten; cbn [length]; lia).
      replace ((A ++ root :: pre) ++
               (flatten linked inner (length (A ++ root :: pre)) k ++
                flattenForest linked inner kids'
                  (length (A ++ root :: pre) + size k)) ++ B)
        with ((A ++ root :: pre ++ flatten linked inner
                 (length (A ++ root :: pre)) k) ++
              flattenForest linked inner kids'
                (length (A ++ root :: pre) + size k) ++ B).
      + exact IHk.
      + rewrite <- !app_assoc. cbn [app]. rewrite <- !app_assoc. reflexivity. }
  specialize (G [] kids IH).
  replace (length (A ++ [root])) with (S (length A)) in G
    by (rewrite length_app; cbn; lia).
  rewrite <- app_assoc in G. exact G.
Qed.

Lemma linkedClone_unfold st lo d kids i p :
  linkedClone st lo (TNode d kids) i p <->
  exists n, st !! i = Some n /\ data n = d /\ parent n = p /\ (lo <= i)%nat /\
            Forall2 (fun k c => linkedClone st lo k c (Some i)) kids (children n).
Proof.
  cbn [linkedClone].
  assert (H : forall ks cs,
    (fix all2 (kids : list Tree) (cs : list nat) {struct kids} : Prop :=
       match kids, cs with
       | [], [] => True
       | k :: kids', c :: cs' => linkedClone st lo k c (Some i) /\ all2 kids' cs'
       | _, _ => False
       end) ks cs <-> Forall2 (fun k c => linkedClone st lo k c (Some i)) ks cs).
  { induction ks as [|k ks IH]; intros cs; destruct cs as [|c cs].
    - split; intros _; constructor.
    - split; intros H; [contradiction | inversion H].
    - split; intros H; [contradiction | inversion H].
    - split; intros H.
      + constructor; [apply H | apply IH, H].
      + inversion H; subst. split; [assumption | apply IH; assumption]. }
  split; intros (n & Hn & Hd & Hp & Hlo & Hk); exists n; (split; [exact Hn|]);
    (split; [exact Hd|]); (split; [exact Hp|]); (split; [exact Hlo|]);
    apply H; exact Hk.
Qed.

Lemma linkedClone_represents lo : forall t st i p,
  linkedClone st lo t i p -> represents st t i.
Proof.
  induction t as [d kids IH] using Tree_forall_ind. intros st i p.
  rewrite linkedClone_unfold, represents_unfold.
  intros (n & Hn & Hd & _ & _ & Hk). exists n. split; [exact Hn|].
  split; [exact Hd|]. revert Hk. generalize (children n). clear Hn.
  induction IH as [|k kids Hk' _ IHkids]; intros cs H; inversion H; subst;
    constructor; eauto.
Qed.

Lemma linkedClone_app ext lo : forall t st i p,
  linkedClone st lo t i p -> linkedClone (st ++ ext) lo t i p.
Proof.
  induction t as [d kids IH] using Tree_forall_ind. intros st i p.
  rewrite !linkedClone_unfold. intros (n & Hn & Hd & Hp & Hlo & Hk).
  exists n. split; [apply lookup_app_l_Some; exact Hn|].
  split; [exact Hd|]. split; [exact Hp|]. split; [exact Hlo|].
  revert Hk. generalize (children n). generalize (Some i). clear Hn.
  induction IH as [|k kids Hk' _ IHkids]; intros q cs H; inversion H; subst;
    constructor; auto.
Qed.

(** The linked canonical layout is a linked clone. *)
Lemma linkedClone_flatten lo : forall t top (A B : Store),
  (lo <= length A)%nat ->
  linkedClone (A ++ flatten true top (length A) t ++ B) lo t (length A) top.
Proof.
  induction t as [d kids IH] using Tree_forall_ind. intros top A B Hlo.
  rewrite linkedClone_unfold, flatten_unfold.
  eexists. split.
  { rewrite lookup_app_r by lia. rewrite Nat.sub_diag. reflexivity. }
  split; [reflexivity|]. split; [reflexivity|]. split; [exact Hlo|].
  cbn [children].
  set (root := {| data := d; parent := top;
                  children := rootIds kids (S (length A)) |}).
  assert (G : forall pre kids',
    Forall (fun t => forall top (A B : Store), (lo <= length A)%nat ->
      linkedClone (A ++ flatten true top (length A) t ++ B) lo t (length A) top)
      kids' ->
    Forall2 (fun k c =>
        linkedClone ((A ++ root :: pre)
                     ++ flattenForest true (Some (length A)) kids'
                          (length (A ++ root :: pre)) ++ B)
                    lo k c (Some (length A)))
      kids' (rootIds kids' (length (A ++ root :: pre)))).
  { intros pre kids' H. revert pre.
    induction H as [|k kids' Hk _ IHk]; intros pre; [constructor|].
    cbn [flattenForest rootIds]. constructor.
    - rewrite <- (app_assoc (flatten _ _ _ k)). apply Hk.
      rewrite length_app. lia.
    - specialize (IHk (pre ++ flatten true (Some (length A))
                                 (length (A ++ root :: pre)) k)).
      replace (length (A ++ root :: pre ++ flatten true (Some (length A))
                 (length (A ++ root :: pre)) k))
        with (length (A ++ root :: pre) + size k)%nat in IHk
        by (rewrite !length_app; cbn [length]; rewrite !length_app,
              length_flatten; cbn [length]; lia).
      replace ((A ++ root :: pre) ++
               (flatten true (Some (length A)) (length (A ++ root :: pre)) k ++
                flattenForest true (Some (length A)) kids'
                  (length (A ++ root :: pre) + size k)) ++ B)
        with ((A ++ root :: pre ++ flatten true (Some (length A))
                 (length (A ++ root :: pre)) k) ++
              flattenForest true (Some (length A)) kids'
                (length (A ++ root :: pre) + size k) ++ B).
      + exact IHk.
      + rewrite <- !app_assoc. cbn [app]. rewrite <- !app_assoc. reflexivity. }
  specialize (G [] kids IH).
  replace (length (A ++ [root])) with (S (length A)) in G
    by (rewrite length_app; cbn; lia).
  rewrite <- app_assoc in G. exact G.
Qed.

(** The same for a forest of unlinked layouts, as [mapClone] leaves it. *)
Lemma represents_flattenForest linked top kids : forall (A B : Store),
  Forall2 (represents (A ++ flattenForest linked top kids (length A) ++ B))
          kids (rootIds kids (length A)).
Proof.
  induction kids as [|k kids IH]; intros A B; [constructor|].
  cbn [flattenForest rootIds]. constructor.
  - rewrite <- app_assoc. apply represents_flatten.
  - specialize (IH (A ++ flatten linked top (length A) k) B).
    rewrite length_app, length_flatten, <- !app_assoc in IH.
    rewrite <- app_assoc. exact IH.
Qed.

(** The canonical layout placed after the first [lo] objects is made of
    objects that are not among them. *)
Lemma cloneFrom_unfold st lo d kids i :
  cloneFrom st lo (TNode d kids) i <->
  exists n, st !! i = Some n /\ data n = d /\ (lo <= i)%nat /\
            Forall2 (cloneFrom st lo) kids (children n).
Proof.
  cbn [cloneFrom]. split; intros (n & Hn & Hd & Hlo & Hk); exists n;
    (split; [exact Hn|]; split; [exact Hd|]; split; [exact Hlo|]).
  - revert Hk. generalize (children n). clear.
    induction kids as [|k kids IH]; intros [|c cs] H; try contradiction;
      constructor; [apply H | apply IH, H].
  - revert Hk. generalize (children n). clear.
    induction kids as [|k kids IH]; intros cs H; inversion H; subst;
      [exact I|]. split; [assumption|]. apply IH. assumption.
Qed.

Lemma cloneFrom_flatten linked lo : forall t top (A B : Store),
  (lo <= length A)%nat ->
  cloneFrom (A ++ flatten linked top (length A) t ++ B) lo t (length A).
Proof.
  induction t as [d kids IH] using Tree_forall_ind. intros top A B Hlo.
  apply cloneFrom_unfold. rewrite flatten_unfold.
  eexists. split.
  { rewrite lookup_app_r by lia. rewrite Nat.sub_diag. reflexivity. }
  cbn [data children]. split; [reflexivity|]. split; [exact Hlo|].
  set (inner := if linked then Some (length A) else None).
  set (root := {| data := d; parent := top;
                  children := rootIds kids (S (length A)) |}).
  assert (H : forall (P Q : Store), (lo <= length P)%nat ->
            Forall2 (cloneFrom (P ++ flattenForest linked inner kids (length P) ++ Q) lo)
                    kids (rootIds kids (length P))).
  { clear root. induction IH as [|k kids Hk _ IHk]; intros P Q HP; [constructor|].
    cbn [flattenForest rootIds]. rewrite <- app_assoc. constructor.
    - apply Hk. exact HP.
    - specialize (IHk (P ++ flatten linked inner (length P) k) Q).
      rewrite length_app, length_flatten, <- !app_assoc in IHk.
      apply IHk. lia. }
  specialize (H (A ++ [root]) B).
  rewrite length_app, <- !app_assoc in H. cbn [length app] in H.
  rewrite Nat.add_1_r in H. apply H. lia.
Qed.

Lemma cloneFrom_flattenForest linked top lo ts : forall (A B : Store),
  (lo <= length A)%nat ->
  Forall2 (cloneFrom (A ++ flattenForest linked top ts (length A) ++ B) lo)
          ts (rootIds ts (length A)).
Proof.
  induction ts as [|k ts IH]; intros A B Hlo; [constructor|].
  cbn [flattenForest rootIds]. rewrite <- app_assoc. constructor.
  - apply cloneFrom_flatten. exact Hlo.
  - specialize (IH (A ++ flatten linked top (length A) k) B).
    rewrite length_app, length_flatten, <- !app_assoc in IH.
    apply IH. lia.
Qed.

(** [treeOf] reads the represented tree, given enough fuel. *)
Lemma treeOf_sound : forall fuel (st : Store) i t,
  treeOf fuel st i = Some t -> represents st t i.
Proof.
  induction fuel as [|fuel IH]; intros st i t; [discriminate|].
  cbn [treeOf]. destruct (st !! i) as [n|] eqn:Hn; [|discriminate].
  destruct (mapM (treeOf fuel st) (children n)) as [kids|] eqn:Hk; [|discriminate].
  intros [= <-]. apply represents_unfold. exists n. split; [exact Hn|].
  split; [reflexivity|]. apply mapM_Some in Hk.
  apply Forall2_flip. eapply Forall2_impl; [exact Hk|]. intros c k. apply IH.
Qed.

Lemma treeOf_complete : forall t fuel (st : Store) i,
  represents st t i -> (height t <= fuel)%nat -> treeOf fuel st i = Some t.
Proof.
  induction t as [d kids IH] using Tree_forall_ind. intros fuel st i Hrep Hfuel.
  destruct fuel as [|fuel]; [cbn in Hfuel; lia|].
  apply represents_unfold in Hrep as (n & Hn & Hd & Hk).
  cbn [treeOf]. rewrite Hn.
  assert (Hm : mapM (treeOf fuel st) (children n) = Some kids).
  { apply mapM_Some. apply Forall2_flip.
    cbn [height] in Hfuel. apply le_S_n, list_max_le, Forall_map in Hfuel.
    revert Hk. generalize (children n). clear Hn.
    induction IH as [|k kids Hk' _ IHkids]; intros cs H; inversion H; subst;
      inversion Hfuel; subst; constructor; auto. }
  rewrite Hm, Hd. reflexivity.
Qed.

Lemma mapM_treeOf_sound fuel (st : Store) l ts :
  mapM (treeOf fuel st) l = Some ts -> Forall2 (represents st) ts l.
Proof.
  intros H. apply mapM_Some in H. apply Forall2_flip.
  eapply Forall2_impl; [exact H|]. intros c k. apply treeOf_sound.
Qed.

End StoreFacts.
(** * Strings and regular expressions *)

Module StringFacts.

Lemma dropWhile_app p (a b : jsstring) :
  forallb p a = true ->
  dropWhile p (a ++ b) = dropWhile p b.
Proof.
  induction a as [|c a IH]; intros H; [reflexivity|].
  cbn in H. apply andb_true_iff in H as [Hc Ha]. cbn. rewrite Hc. auto.
Qed.

Lemma takeWhile_app p (a b : jsstring) :
  forallb p a = true ->
  takeWhile p (a ++ b) = a ++ takeWhile p b.
Proof.
  induction a as [|c a IH]; intros H; [reflexivity|].
  cbn in H. apply andb_true_iff in H as [Hc Ha]. cbn. rewrite Hc, IH; auto.
Qed.

Lemma dropWhile_all p (a : jsstring) : forallb p a = true -> dropWhile p a = [].
Proof.
  intros H. rewrite <- (app_nil_r a), dropWhile_app by exact H. reflexivity.
Qed.

Lemma takeWhile_all p (a : jsstring) : forallb p a = true -> takeWhile p a = a.
Proof.
  intros H. rewrite <- (app_nil_r a) at 1. rewrite takeWhile_app by exact H.
  cbn. apply app_nil_r.
Qed.

(** The greedy quantifier takes the longest run when the rest of the
    pattern accepts what follows it. *)
Lemma greedy_longest p k (s : jsstring) segs rest :
  k (dropWhile p s) = Some (segs, rest) ->
  greedy p k s = Some (takeWhile p s :: segs, rest).
Proof.
  induction s as [|c s IH]; intros H; cbn in *.
  - rewrite H. reflexivity.
  - destruct (p c).
    + rewrite (IH H). reflexivity.
    + rewrite H. reflexivity.
Qed.

Lemma greedy_shape p k : forall (s : jsstring) m,
  greedy p k s = Some m -> exists seg segs rest, m = (seg :: segs, rest).
Proof.
  assert (W : forall s m, withSeg [] (k s) = Some m ->
                exists seg segs rest, m = (seg :: segs, rest)).
  { intros s m. destruct (k s) as [[segs rest]|]; [|discriminate].
    intros [= <-]. eauto. }
  induction s as [|c s IH]; intros m; cbn.
  - apply W.
  - destruct (p c); [|apply W].
    destruct (greedy p k s) as [m'|] eqn:E; [|apply W].
    destruct (IH m' eq_refl) as (seg & segs & rest & ->). cbn.
    intros [= <-]. eauto.
Qed.

(** When the rest of the pattern rejects an input that starts with [c],
    a star over a class containing [c] matches with [c] or not at all. *)
Lemma greedy_skip p k c (s : jsstring) :
  p c = true -> k (c :: s) = None ->
  (exists m, greedy p k (c :: s) = Some m) <-> (exists m, greedy p k s = Some m).
Proof.
  intros Hc Hk. cbn. rewrite Hc, Hk.
  destruct (greedy p k s) as [m|] eqn:E.
  - destruct (greedy_shape p k s m E) as (seg & segs & rest & ->). cbn.
    split; intros _; eauto.
  - cbn. split; intros [m H]; discriminate.
Qed.

Lemma test_iff r s : test r s = true <-> exists m, rmatch r s = Some m.
Proof.
  unfold test. destruct (rmatch r s); split; try discriminate; eauto.
  intros [m H]. discriminate.
Qed.

Lemma bool_iff (a b : bool) : (a = true <-> b = true) -> a = b.
Proof.
  destruct a, b; intros [H1 H2]; try reflexivity;
    [symmetry; apply H1; reflexivity | apply H2; reflexivity].
Qed.

Lemma rmatch_Star p r s : rmatch (Star p :: r) s = greedy p (rmatch r) s.
Proof. reflexivity. Qed.

Lemma rmatch_One p r c s :
  p c = true -> rmatch (One p :: r) (c :: s) = withSeg [c] (rmatch r s).
Proof. intros H. cbn [rmatch]. rewrite H. reflexivity. Qed.

(** A leading space does not change whether a line is a list item. *)
Lemma isListItem_space s : isListItem (SPACE :: s) = isListItem s.
Proof.
  unfold isListItem. f_equal; apply bool_iff; rewrite !test_iff;
    cbn [rmatch]; apply greedy_skip; reflexivity.
Qed.

Lemma isListItem_spaces n s : isListItem (repeat SPACE n ++ s) = isListItem s.
Proof.
  induction n as [|n IH]; [reflexivity|]. cbn [repeat app].
  rewrite isListItem_space. exact IH.
Qed.

Lemma forallb_spaces p n : p SPACE = true -> forallb p (repeat SPACE n) = true.
Proof. intros H. induction n; cbn; [reflexivity|]. rewrite H. exact IHn. Qed.

Lemma repeatStr_spaces n : repeatStr (js "    ") n = repeat SPACE (4 * n).
Proof.
  unfold repeatStr. induction n as [|n IH]; [reflexivity|].
  replace (4 * S n)%nat with (4 + 4 * n)%nat by lia.
  cbn [repeat concat]. rewrite IH. reflexivity.
Qed.

Lemma dropWhile_nonempty p (l : jsstring) c :
  In c l -> p c = false -> dropWhile p l <> [].
Proof.
  induction l as [|a l IH]; intros Hin Hc; [contradiction|]. cbn.
  destruct (p a) eqn:E; [|discriminate].
  destruct Hin as [->|Hin]; [congruence|]. apply IH; assumption.
Qed.

Lemma trimEnd_nonempty c (x : jsstring) :
  isWhiteSpace c = false -> trimEnd (c :: x) <> [].
Proof.
  intros Hc H. unfold trimEnd in H.
  apply (f_equal (@rev char)) in H. rewrite rev_involutive in H. cbn in H.
  revert H. apply dropWhile_nonempty with (c := c); [|exact Hc].
  apply in_or_app. right. left. reflexivity.
Qed.

Lemma trim_spaces n (s : jsstring) : trim (repeat SPACE n ++ s) = trim s.
Proof.
  unfold trim, trimStart. rewrite dropWhile_app; [reflexivity|].
  apply forallb_spaces. reflexivity.
Qed.

Lemma trim_head_nonspace c (r : jsstring) :
  isWhiteSpace c = false -> trim (c :: r) = trimEnd (c :: r).
Proof. intros H. unfold trim, trimStart. cbn. rewrite H. reflexivity. Qed.

(** A stable text line starts with a character that is not white space. *)
Lemma trimEnd_prefix (x : jsstring) : exists suffix, x = trimEnd x ++ suffix.
Proof.
  unfold trimEnd. exists (rev (takeWhile isWhiteSpace (rev x))).
  rewrite <- rev_app_distr.
  assert (H : forall l : jsstring,
            takeWhile isWhiteSpace l ++ dropWhile isWhiteSpace l = l).
  { induction l as [|a l IH]; [reflexivity|]. cbn.
    destruct (isWhiteSpace a); [cbn; rewrite IH|]; reflexivity. }
  rewrite H, rev_involutive. reflexivity.
Qed.

Lemma dropWhile_head p (x : jsstring) a y :
  dropWhile p x = a :: y -> p a = false.
Proof.
  induction x as [|b x IH]; [discriminate|]. cbn.
  destruct (p b) eqn:E; [exact IH|]. intros [= <- _]. exact E.
Qed.

Lemma trim_result_head (x : jsstring) c r :
  trim x = c :: r -> isWhiteSpace c = false.
Proof.
  unfold trim, trimStart. intros H.
  destruct (dropWhile isWhiteSpace x) as [|a y] eqn:E; [discriminate|].
  destruct (trimEnd_prefix (a :: y)) as [suf Hs]. rewrite H in Hs.
  injection Hs as -> _. eapply dropWhile_head. exact E.
Qed.

Lemma trim_fixed_head (l : jsstring) c r :
  trim l = l -> l = c :: r -> isWhiteSpace c = false.
Proof.
  intros Ht ->. unfold trim in Ht.
  destruct (isWhiteSpace c) eqn:E; [|reflexivity]. exfalso.
  (* the trimmed text is a suffix of a prefix: it is shorter *)
  assert (Hlen : forall x : jsstring, (length (trimEnd x) <= length x)%nat).
  { intros x. destruct (trimEnd_prefix x) as [suf Hs].
    rewrite Hs at 2. rewrite length_app. lia. }
  assert (Hd : forall x : jsstring,
            (length (dropWhile isWhiteSpace x) <= length x)%nat).
  { induction x as [|a x IH]; [cbn; lia|]. cbn.
    destruct (isWhiteSpace a); cbn; lia. }
  pose proof (Hlen (trimStart (c :: r))) as H1. rewrite Ht in H1.
  unfold trimStart in H1. cbn in H1. rewrite E in H1.
  pose proof (Hd r). lia.
Qed.

(** The line of a list item, as the serialiser writes it. *)
Lemma item_line n c (r : jsstring) :
  isWhiteSpace c = false -> forallb anyChar (c :: r) = true ->
  let line := repeat SPACE n ++ js "*" ++ js " " ++ c :: r in
  trim line <> [] /\
  isListItem line = true /\
  parseListItem line
  = Some {| itemLevel := n / 4; content := cleanTextContent (c :: r);
            indent := repeat SPACE n |}.
Proof.
  intros Hc Hany line. split; [|split].
  - unfold line. rewrite trim_spaces. cbn [js app]. 
    change (js "*" ++ js " " ++ c :: r) with (42%N :: 32%N :: c :: r).
    rewrite trim_head_nonspace by reflexivity. apply trimEnd_nonempty. reflexivity.
  - unfold line. rewrite isListItem_spaces.
    change (js "*" ++ js " " ++ c :: r) with (42%N :: 32%N :: c :: r).
    unfold isListItem, test. cbn. rewrite Hc. cbn. unfold nonSpace. rewrite Hc.
    reflexivity.
  - unfold line, parseListItem.
    change (js "*" ++ js " " ++ c :: r) with (42%N :: 32%N :: c :: r).
    rewrite rmatch_Star.
    assert (Hrest : rmatch [Opt isMarker; Star isDigit; Opt isDot;
                            Plus isWhiteSpace; Plus anyChar; Eoi]
                           (42%N :: 32%N :: c :: r)
                    = Some ([[42%N]; []; []; [32%N]; c :: r; []], [])).
    { cbn in Hany. apply andb_true_iff in Hany as [Hc' Hr].
      cbn. rewrite Hc. cbn. rewrite Hc'.
      rewrite (greedy_longest anyChar _ r [[]] []).
      - rewrite takeWhile_all by exact Hr. reflexivity.
      - rewrite dropWhile_all by exact Hr. reflexivity. }
    rewrite (greedy_longest isWhiteSpace
               (rmatch [Opt isMarker; Star isDigit; Opt isDot;
                        Plus isWhiteSpace; Plus anyChar; Eoi])
               (repeat SPACE n ++ 42%N :: 32%N :: c :: r)
               [[42%N]; []; []; [32%N]; c :: r; []] []).
    2: { rewrite dropWhile_app by (apply forallb_spaces; reflexivity).
         exact Hrest. }
    rewrite takeWhile_app by (apply forallb_spaces; reflexivity).
    cbn [takeWhile isWhiteSpace]. cbn. rewrite app_nil_r, repeat_length.
    reflexivity.
Qed.

(** A continuation line, as the serialiser writes it. *)
Lemma continuation_line n c (r : jsstring) :
  isWhiteSpace c = false -> trim (c :: r) = c :: r ->
  isListItem (c :: r) = false ->
  let line := repeat SPACE n ++ c :: r in
  trim line = c :: r /\
  isListItem line = false /\
  length (takeWhile isWhiteSpace line) = n.
Proof.
  intros Hc Ht Hl line. unfold line. split; [|split].
  - rewrite trim_spaces. exact Ht.
  - rewrite isListItem_spaces. exact Hl.
  - rewrite takeWhile_app by (apply forallb_spaces; reflexivity).
    cbn. rewrite Hc, app_nil_r. apply repeat_length.
Qed.

Lemma split_line (l rest : jsstring) :
  noLF l = true -> split LF (l ++ LF :: rest) = l :: split LF rest.
Proof.
  induction l as [|c l IH]; intros H; [reflexivity|].
  cbn in H. apply andb_true_iff in H as [Hc Hl].
  cbn [app split]. apply negb_true_iff in Hc. rewrite Hc, (IH Hl). reflexivity.
Qed.

Lemma split_lines (lines : list jsstring) :
  Forall (fun l => noLF l = true) lines ->
  split LF (concat (map (fun l => l ++ [LF]) lines)) = lines ++ [[]].
Proof.
  induction 1 as [|l lines Hl _ IH]; [reflexivity|].
  cbn [map concat]. rewrite <- app_assoc. cbn [app].
  rewrite split_line by exact Hl. rewrite IH. reflexivity.
Qed.

Lemma split_noLF (s : jsstring) : Forall (fun l => noLF l = true) (split LF s).
Proof.
  induction s as [|c s IH]; [repeat constructor|]. cbn [split].
  destruct (c =? LF)%N eqn:E; [constructor; [reflexivity|exact IH]|].
  destruct (split LF s) as [|l ls]; [repeat constructor; cbn; rewrite E; reflexivity|].
  inversion IH; subst. constructor; [|assumption]. cbn. rewrite E. assumption.
Qed.

Lemma split_cons (s : jsstring) : exists l ls, split LF s = l :: ls.
Proof.
  destruct s as [|c s]; [cbn; eauto|]. cbn.
  destruct (c =? LF)%N; [eauto|]. destruct (split LF s); eauto.
Qed.

Lemma fold_join_prefix (conts : list jsstring) : forall (pre a : jsstring),
  fold_left (fun acc l => acc ++ [LF] ++ l) conts (pre ++ a)
  = pre ++ fold_left (fun acc l => acc ++ [LF] ++ l) conts a.
Proof.
  induction conts as [|l conts IH]; intros pre a; [reflexivity|].
  cbn [fold_left]. rewrite <- app_assoc. apply IH.
Qed.

(** Joining the lines of a text with line feeds gives the text back. *)
Lemma join_split : forall (s l0 : jsstring) conts,
  split LF s = l0 :: conts ->
  fold_left (fun acc l => acc ++ [LF] ++ l) conts l0 = s.
Proof.
  induction s as [|c s IH]; intros l0 conts H.
  - cbn in H. injection H as <- <-. reflexivity.
  - cbn [split] in H. destruct (c =? LF)%N eqn:E.
    + apply N.eqb_eq in E. subst c. injection H as <- <-.
      destruct (split_cons s) as (l & ls & Hs). rewrite Hs. cbn [fold_left].
      change ([] ++ [LF] ++ l) with ([LF] ++ l).
      rewrite fold_join_prefix. cbn [app]. f_equal. apply IH. exact Hs.
    + destruct (split_cons s) as (l & ls & Hs). rewrite Hs in H.
      injection H as <- <-. change (c :: l) with ([c] ++ l).
      rewrite fold_join_prefix. cbn [app]. f_equal. apply IH. exact Hs.
Qed.

(** The identifier line and the blank line after it are removed by the
    first regular expression of the parser, when the body is empty or
    does not begin with white space. *)
Lemma documentLines_body (body : jsstring) :
  match body with [] => True | c :: _ => isWhiteSpace c = false end ->
  replaceAnchored (lit "#mindmap" ++ [Star isWhiteSpace; Opt (isChar 10)])
                  ((MINDMAP_IDENTIFIER ++ [LF; LF]) ++ body)
  = body.
Proof.
  intros H. unfold replaceAnchored.
  change ((MINDMAP_IDENTIFIER ++ [LF; LF]) ++ body)
    with (35 :: 109 :: 105 :: 110 :: 100 :: 109 :: 97 :: 112 :: LF :: LF :: body)%N.
  change (lit "#mindmap" ++ [Star isWhiteSpace; Opt (isChar 10)])
    with (One (isChar 35) :: One (isChar 109) :: One (isChar 105)
          :: One (isChar 110) :: One (isChar 100) :: One (isChar 109)
          :: One (isChar 97) :: One (isChar 112)
          :: [Star isWhiteSpace; Opt (isChar 10)]).
  do 8 (rewrite rmatch_One by reflexivity).
  rewrite rmatch_Star.
  rewrite (greedy_longest isWhiteSpace (rmatch [Opt (isChar 10)])
             (LF :: LF :: body) [[]] body).
  - reflexivity.
  - destruct body as [|c body]; [reflexivity|].
    cbn [dropWhile]. change (isWhiteSpace LF) with true. cbn iota.
    cbn [dropWhile]. rewrite H. cbn [rmatch].
    destruct (isChar 10 c) eqn:E; [|reflexivity].
    unfold isChar in E. apply N.eqb_eq in E. subst c. discriminate.
Qed.

End StringFacts.
(** * Properties of the parser *)

Module ParserFacts.

(** The state reached after the checks of [parseLine], case by case. *)
Lemma parseLine_item s line item :
  acceptedItem line = Some item ->
  parseLine s line =
    let stack := take (itemLevel item + 1) (nodeStack s) in
    let newId := length (store s) in
    {| store :=
         match last stack with
         | Some p => alter (pushChild newId) p (store s)
         | None => store s
         end
         ++ [ {| data := newNodeData (content item) (itemLevel item + 1);
                 parent := last stack; children := [] |} ];
       nodeStack := stack ++ [newId];
       parsedMaxLevel := Nat.max (parsedMaxLevel s) (itemLevel item + 1);
       lastNode := Some newId;
       lastIndentLength := length (indent item) |}.
Proof.
  unfold acceptedItem, parseLine. destruct (trim line); [discriminate|].
  destruct (isListItem line); [|discriminate]. intros ->. reflexivity.
Qed.

Lemma parseLine_other s line :
  acceptedItem line = None ->
  parseLine s line = s \/
  exists ln lineContent,
    parseLine s line =
      {| store := alter (appendLine lineContent) ln (store s);
         nodeStack := nodeStack s;
         parsedMaxLevel := parsedMaxLevel s;
         lastNode := lastNode s;
         lastIndentLength := lastIndentLength s |}.
Proof.
  unfold acceptedItem, parseLine. destruct (trim line) as [|c l]; [auto|].
  destruct (isListItem line).
  - intros ->. auto.
  - intros _. destruct (lastNode s) as [ln|]; [|auto].
    destruct (_ <? _)%nat; [|auto]. right. eauto.
Qed.

Lemma alter_lookup_level (f : MindMapNode -> MindMapNode) j (st : Store) i :
  (forall n, level (data (f n)) = level (data n) /\ parent (f n) = parent n) ->
  (forall n, alter f j st !! i = Some n ->
     exists n0, st !! i = Some n0 /\ level (data n) = level (data n0)
                /\ parent n = parent n0) /\
  (forall n0, st !! i = Some n0 ->
     exists n, alter f j st !! i = Some n /\ level (data n) = level (data n0)
               /\ parent n = parent n0).
Proof.
  intros Hf. destruct (decide (j = i)) as [->|Hne].
  - rewrite list_lookup_alter_eq. destruct (st !! i) as [n0|]; cbn; split.
    + intros n [= <-]. exists n0. split; [reflexivity|]. apply Hf.
    + intros n1 [= <-]. eexists. split; [reflexivity|]. apply Hf.
    + discriminate.
    + discriminate.
  - rewrite list_lookup_alter_ne by exact Hne. split; intros n H; eauto.
Qed.

Lemma levelInvariant_alter (f : MindMapNode -> MindMapNode) j s :
  (forall n, level (data (f n)) = level (data n) /\ parent (f n) = parent n) ->
  levelInvariant s ->
  levelInvariant {| store := alter f j (store s);
                    nodeStack := nodeStack s;
                    parsedMaxLevel := parsedMaxLevel s;
                    lastNode := lastNode s;
                    lastIndentLength := lastIndentLength s |}.
Proof.
  intros Hf (Hne & Hstack & Hpar). split; [exact Hne|]. cbn. split.
  - intros k id Hk. destruct (Hstack k id Hk) as (n & Hn & Hl).
    destruct (proj2 (alter_lookup_level f j (store s) id Hf) n Hn)
      as (n' & Hn' & Hl' & _).
    exists n'. split; [exact Hn'|]. congruence.
  - intros i n Hn Hi.
    destruct (proj1 (alter_lookup_level f j (store s) i Hf) n Hn)
      as (n0 & Hn0 & Hl0 & Hp0).
    destruct (Hpar i n0 Hn0 Hi) as (p & pn & Hp & Hpn & Hlv).
    destruct (proj2 (alter_lookup_level f j (store s) p Hf) pn Hpn)
      as (pn' & Hpn' & Hl' & _).
    exists p, pn'. split; [congruence|]. split; [exact Hpn'|]. congruence.
Qed.

Lemma levelInvariant_item s item :
  levelInvariant s ->
  (itemLevel item <= length (nodeStack s) - 1)%nat ->
  forall line, acceptedItem line = Some item ->
  levelInvariant (parseLine s line) /\
  (length (nodeStack (parseLine s line)) - 1 = S (itemLevel item))%nat.
Proof.
  intros Hinv Hle line Hacc. rewrite (parseLine_item s line item Hacc). cbv zeta.
  destruct Hinv as (Hne & Hstack & Hpar).
  assert (Hlen : (itemLevel item + 1 <= length (nodeStack s))%nat).
  { destruct (nodeStack s); [contradiction|]. cbn in *. lia. }
  set (l := itemLevel item) in *.
  assert (Hlast : last (take (l + 1) (nodeStack s)) = nodeStack s !! l).
  { rewrite last_lookup, length_take, Nat.min_l by lia.
    replace (Nat.pred (l + 1)) with l by lia.
    apply lookup_take_lt. lia. }
  destruct (lookup_lt_is_Some_2 (nodeStack s) l ltac:(lia)) as [p Hp].
  rewrite Hlast, Hp.
  destruct (Hstack l p Hp) as (pn & Hpn & Hpl).
  assert (Hf : forall n, level (data (pushChild (length (store s)) n)) = level (data n)
                         /\ parent (pushChild (length (store s)) n) = parent n)
    by (intros n; split; reflexivity).
  set (st1 := alter (pushChild (length (store s))) p (store s)).
  assert (Hlen1 : length st1 = length (store s)) by apply length_alter.
  assert (Hold : forall i n0, store s !! i = Some n0 ->
            exists n, (st1 ++ [ {| data := newNodeData (content item) (l + 1);
                                  parent := Some p; children := [] |} ]) !! i = Some n
                      /\ level (data n) = level (data n0)
                      /\ parent n = parent n0).
  { intros i n0 Hn0.
    destruct (proj2 (alter_lookup_level _ p (store s) i Hf) n0 Hn0)
      as (n & Hn & Hl & Hq).
    exists n. split; [|auto]. rewrite lookup_app_l; [exact Hn|].
    rewrite Hlen1. eapply lookup_lt_Some; eauto. }
  split; [split; [|split]|].
  - cbn. destruct (take _ _); discriminate.
  - cbn [nodeStack store]. intros k id Hk.
    apply lookup_app_Some in Hk as [Hk|[Hk1 Hk2]].
    + apply lookup_take_Some in Hk as [Hk Hkl].
      destruct (Hstack k id Hk) as (n0 & Hn0 & Hl0).
      destruct (Hold id n0 Hn0) as (n & Hn & Hl & _).
      exists n. split; [exact Hn|]. congruence.
    + rewrite length_take, Nat.min_l in Hk1, Hk2 by lia.
      destruct (k - (l + 1))%nat eqn:E; [|destruct n; discriminate].
      injection Hk2 as <-. eexists. split.
      * rewrite lookup_app_r by lia. rewrite Hlen1, Nat.sub_diag. reflexivity.
      * cbn. lia.
  - cbn [store]. intros i n Hn Hi.
    apply lookup_app_Some in Hn as [Hn|[Hn1 Hn2]].
    + destruct (proj1 (alter_lookup_level _ p (store s) i Hf) n Hn)
        as (n0 & Hn0 & Hl0 & Hp0).
      destruct (Hpar i n0 Hn0 Hi) as (q & qn & Hq & Hqn & Hlv).
      destruct (Hold q qn Hqn) as (qn' & Hqn' & Hl' & _).
      exists q, qn'. split; [congruence|]. split; [exact Hqn'|]. congruence.
    + destruct (i - length st1)%nat eqn:E; [|destruct n0; discriminate].
      injection Hn2 as <-. cbn [parent data newNodeData level].
      destruct (Hold p pn Hpn) as (pn' & Hpn' & Hl' & _).
      exists p, pn'. split; [reflexivity|]. split; [exact Hpn'|]. lia.
  - cbn [nodeStack]. rewrite length_app, length_take, Nat.min_l by lia.
    cbn. lia.
Qed.

Lemma levelInvariant_other s line :
  levelInvariant s -> acceptedItem line = None ->
  levelInvariant (parseLine s line) /\
  nodeStack (parseLine s line) = nodeStack s.
Proof.
  intros Hinv Hacc.
  destruct (parseLine_other s line Hacc) as [->|(ln & lc & ->)]; [auto|].
  split; [|reflexivity].
  apply levelInvariant_alter; [|exact Hinv]. intros n; split; reflexivity.
Qed.

Lemma levelInvariant_lines lines : forall s,
  levelInvariant s ->
  noLevelSkip (length (nodeStack s) - 1) (itemLevels lines) = true ->
  levelInvariant (fold_left parseLine lines s).
Proof.
  induction lines as [|line lines IH]; intros s Hinv Hskip; [exact Hinv|].
  cbn [fold_left]. unfold itemLevels in Hskip. cbn [omap list_omap] in Hskip.
  destruct (acceptedItem line) as [item|] eqn:Hacc; cbn in Hskip.
  - apply andb_true_iff in Hskip as [Hle Hskip]. apply Nat.leb_le in Hle.
    destruct (levelInvariant_item s item Hinv Hle line Hacc) as [Hinv' Hlen].
    apply IH; [exact Hinv'|]. rewrite Hlen. exact Hskip.
  - destruct (levelInvariant_other s line Hinv Hacc) as [Hinv' Hst].
    apply IH; [exact Hinv'|]. rewrite Hst. exact Hskip.
Qed.

Lemma levelInvariant_initial filePath : levelInvariant (initialParseState filePath).
Proof.
  split; [discriminate|]. split.
  - intros [|k] id Hk; [|discriminate]. injection Hk as <-.
    eexists. split; reflexivity.
  - intros [|i] n Hn Hi; [contradiction|discriminate].
Qed.

(** C9, as the parser has it.  When no list item of the document is
    indented more than one level deeper than the open item before it (and
    the first item is not indented by 4 or more), every node of the parsed
    tree except the root has a parent, and its level is the level of its
    parent plus 1. *)
Theorem parsed_levels_follow_parents (content filePath : jsstring) :
  noLevelSkip 0 (itemLevels (documentLines content)) = true ->
  let st := fst (parseMarkdownContent content filePath) in
  forall i n, st !! i = Some n -> i <> 0%nat ->
    exists p pn, parent n = Some p /\ st !! p = Some pn /\
      level (data n) = level (data pn) + 1.
Proof.
  intros Hskip st. unfold st, parseMarkdownContent, parseLines. cbn [fst].
  apply (levelInvariant_lines _ _ (levelInvariant_initial filePath)).
  exact Hskip.
Qed.

Lemma parsed_levels_follow_parents_witness :
  noLevelSkip 0 (itemLevels (documentLines scenario1)) = true /\
  let st := fst (parseMarkdownContent scenario1 (js "doc.md")) in
  forall i n, st !! i = Some n -> i <> 0%nat ->
    exists p pn, parent n = Some p /\ st !! p = Some pn /\
      level (data n) = level (data pn) + 1.
Proof.
  assert (H : noLevelSkip 0 (itemLevels (documentLines scenario1)) = true)
    by (vm_compute; reflexivity).
  split; [exact H|].
  exact (parsed_levels_follow_parents scenario1 (js "doc.md") H).
Defined.

(** C9 as stated fails: in the tree parsed from [skippedLevel] the node B
    has level 3 and its parent A has level 1. *)
Lemma parsed_levels_counterexample :
  let st := fst (parseMarkdownContent skippedLevel (js "doc.md")) in
  ~ (forall i n, st !! i = Some n -> i <> 0%nat ->
       exists p pn, parent n = Some p /\ st !! p = Some pn /\
         level (data n) = level (data pn) + 1).
Proof.
  intros st H.
  destruct (H 2%nat {| data := newNodeData (js "B") 3; parent := Some 1%nat;
                       children := [] |})
    as (p & pn & Hp & Hpn & Hl); [vm_compute; reflexivity | discriminate |].
  injection Hp as <-. vm_compute in Hpn. injection Hpn as <-.
  vm_compute in Hl. discriminate.
Qed.

End ParserFacts.
(** * The parser on arbitrary documents *)

Module ParseInvariants.
Import StoreFacts StringFacts ParserFacts.

(** ** Strings *)

Lemma forallb_dropWhile (q p : char -> bool) (s : jsstring) :
  forallb q s = true -> forallb q (dropWhile p s) = true.
Proof.
  induction s as [|c s IH]; [auto|]. cbn [dropWhile]. intros H.
  destruct (p c); [|exact H]. cbn in H. apply andb_true_iff in H as [_ H]. auto.
Qed.

Lemma forallb_rev_true (q : char -> bool) (s : jsstring) :
  forallb q s = true -> forallb q (rev s) = true.
Proof.
  rewrite !forallb_forall. intros H x Hx. apply H, in_rev. exact Hx.
Qed.

Lemma forallb_trim (q : char -> bool) (s : jsstring) :
  forallb q s = true -> forallb q (trim s) = true.
Proof.
  intros H. unfold trim, trimEnd, trimStart.
  apply forallb_rev_true, forallb_dropWhile, forallb_rev_true, forallb_dropWhile.
  exact H.
Qed.

Lemma dropWhile_idem p (s : jsstring) : dropWhile p (dropWhile p s) = dropWhile p s.
Proof.
  induction s as [|c s IH]; [reflexivity|]. cbn [dropWhile].
  destruct (p c) eqn:E; [exact IH|]. cbn [dropWhile]. rewrite E. reflexivity.
Qed.

Lemma trimEnd_idem (s : jsstring) : trimEnd (trimEnd s) = trimEnd s.
Proof. unfold trimEnd. rewrite rev_involutive, dropWhile_idem. reflexivity. Qed.

Lemma trim_idem (s : jsstring) : trim (trim s) = trim s.
Proof.
  destruct (trim s) as [|c r] eqn:E; [reflexivity|].
  pose proof (trim_result_head s c r E) as Hc.
  rewrite trim_head_nonspace by exact Hc. rewrite <- E.
  unfold trim. apply trimEnd_idem.
Qed.

Lemma split_single (l : jsstring) : noLF l = true -> split LF l = [l].
Proof.
  induction l as [|c l IH]; [reflexivity|]. intros H. cbn in H.
  apply andb_true_iff in H as [Hc Hl]. apply negb_true_iff in Hc.
  cbn [split]. rewrite Hc, (IH Hl). reflexivity.
Qed.

Lemma split_snoc (t l : jsstring) :
  noLF l = true -> split LF (t ++ LF :: l) = split LF t ++ [l].
Proof.
  intros H. induction t as [|c t IH].
  - change (split LF ([] ++ LF :: l)) with ([] :: split LF l).
    rewrite (split_single l H). reflexivity.
  - cbn [app split]. rewrite IH. destruct (c =? LF)%N; [reflexivity|].
    destruct (split_cons t) as (a & b & ->). reflexivity.
Qed.

Lemma anyChar_noLF (l : jsstring) : forallb anyChar l = true -> noLF l = true.
Proof.
  induction l as [|c l IH]; [reflexivity|]. intros H. cbn [forallb] in H.
  apply andb_true_iff in H as [Hc Hl]. specialize (IH Hl).
  unfold noLF in *. cbn [forallb]. rewrite IH, andb_true_r.
  unfold anyChar, isLineTerminator in Hc. unfold LF.
  destruct (c =? 10)%N; [discriminate|reflexivity].
Qed.

(** ** Regular expressions: what the groups of a match contain *)

Lemma greedy_segments p k (Q : list jsstring -> Prop) :
  (forall s segs rest, k s = Some (segs, rest) -> Q segs) ->
  forall s seg segs rest, greedy p k s = Some (seg :: segs, rest) ->
    forallb p seg = true /\ Q segs.
Proof.
  intros Hk.
  assert (W : forall s seg segs rest,
             withSeg [] (k s) = Some (seg :: segs, rest) ->
             forallb p seg = true /\ Q segs).
  { intros s seg segs rest. destruct (k s) as [[sg r]|] eqn:E; cbn; [|discriminate].
    intros [= <- <- <-]. split; [reflexivity|]. eapply Hk. exact E. }
  induction s as [|c s IH]; intros seg segs rest; cbn [greedy]; [apply W|].
  destruct (p c) eqn:Hc; [|apply W].
  destruct (greedy p k s) as [[sg r]|] eqn:G; [|apply W].
  destruct sg as [|sg0 sgs]; cbn; [discriminate|]. intros [= <- <- <-].
  destruct (IH _ _ _ eq_refl) as [H1 H2]. split; [|exact H2].
  cbn. rewrite Hc. exact H1.
Qed.

Lemma rmatch_segments : forall r s segs rest,
  rmatch r s = Some (segs, rest) -> Forall2 segOk r segs.
Proof.
  induction r as [|a r IH]; intros s segs rest; cbn [rmatch].
  - intros [= <- _]. constructor.
  - assert (W : forall seg s0, segOk a seg ->
               withSeg seg (rmatch r s0) = Some (segs, rest) ->
               Forall2 segOk (a :: r) segs).
    { intros seg s0 Hseg. destruct (rmatch r s0) as [[sg rs]|] eqn:E; cbn;
        [|discriminate].
      intros [= <- <-]. constructor; [exact Hseg|]. eapply IH. exact E. }
    destruct a as [p|p|p|p|].
    + destruct s as [|c s]; [discriminate|]. destruct (p c) eqn:Hc; [|discriminate].
      apply W. cbn. rewrite Hc. reflexivity.
    + destruct s as [|c s]; [apply W; reflexivity|].
      destruct (p c) eqn:Hc; [|apply W; reflexivity].
      destruct (rmatch r s) as [m|] eqn:E; [|apply W; reflexivity].
      rewrite <- E. apply W. cbn. rewrite Hc. reflexivity.
    + intros H. destruct (greedy_shape _ _ _ _ H) as (seg & sgs & rs & [= -> ->]).
      destruct (greedy_segments p (rmatch r) (Forall2 segOk r) IH _ _ _ _ H).
      constructor; assumption.
    + destruct s as [|c s]; [discriminate|]. destruct (p c) eqn:Hc; [|discriminate].
      destruct (greedy p (rmatch r) s) as [[[|sg sgs] rs]|] eqn:G; cbn;
        try discriminate.
      intros [= <- <-].
      destruct (greedy_segments p (rmatch r) (Forall2 segOk r) IH _ _ _ _ G).
      constructor; [|assumption]. cbn. rewrite Hc. assumption.
    + destruct s as [|c s]; [|discriminate]. apply W. reflexivity.
Qed.

Lemma forallb_replaceAllFrom (q : char -> bool) r : forall (s : jsstring) skip,
  forallb q s = true -> forallb q (replaceAllFrom r skip s) = true.
Proof.
  induction s as [|c s IH]; intros skip H; [reflexivity|].
  cbn [forallb] in H. apply andb_true_iff in H as [Hc Hs].
  cbn [replaceAllFrom]. destruct skip as [|skip]; [|apply IH; exact Hs].
  destruct (rmatch r (c :: s)) as [[segs rest]|].
  - destruct (length (c :: s) - length rest)%nat.
    + cbn [forallb]. rewrite Hc. apply IH. exact Hs.
    + apply IH. exact Hs.
  - cbn [forallb]. rewrite Hc. apply IH. exact Hs.
Qed.

Lemma forallb_cleanTextContent (q : char -> bool) (s : jsstring) :
  forallb q s = true -> forallb q (cleanTextContent s) = true.
Proof.
  intros H. unfold cleanTextContent. destruct s as [|c s]; [reflexivity|].
  apply forallb_trim, forallb_replaceAllFrom. exact H.
Qed.

(** The content of a list item has no line terminator. *)
Lemma parseListItem_content line item :
  parseListItem line = Some item -> forallb anyChar (content item) = true.
Proof.
  unfold parseListItem.
  destruct (rmatch _ line) as [[segs rest]|] eqn:E; [|discriminate].
  apply rmatch_segments in E.
  destruct segs as [|s1 [|s2 [|s3 [|s4 [|s5 [|s6 [|s7 [|s8 segs]]]]]]]];
    try discriminate.
  intros [= <-]. cbn [content].
  do 5 (apply Forall2_cons_1 in E as [_ E]).
  apply Forall2_cons_1 in E as [E _].
  apply forallb_cleanTextContent. exact E.
Qed.

Lemma acceptedItem_content line item :
  acceptedItem line = Some item -> forallb anyChar (content item) = true.
Proof.
  unfold acceptedItem. destruct (trim line); [discriminate|].
  destruct (isListItem line); [|discriminate]. apply parseListItem_content.
Qed.

(** ** One step of the loop *)

Lemma parseLine_continuation s line :
  acceptedItem line = None ->
  parseLine s line = s \/
  exists ln,
    lastNode s = Some ln /\ trim line <> [] /\
    parseLine s line =
      {| store := alter (appendLine (trim line)) ln (store s);
         nodeStack := nodeStack s;
         parsedMaxLevel := parsedMaxLevel s;
         lastNode := lastNode s;
         lastIndentLength := lastIndentLength s |}.
Proof.
  unfold acceptedItem, parseLine. destruct (trim line) as [|c l]; [auto|].
  destruct (isListItem line).
  - intros ->. auto.
  - intros _. destruct (lastNode s) as [ln|]; [|auto].
    destruct (_ <? _)%nat; [|auto]. right. exists ln.
    split; [reflexivity|]. split; [discriminate|]. reflexivity.
Qed.

Lemma lookup_alter_inv (f : MindMapNode -> MindMapNode) j (st : Store) i n :
  alter f j st !! i = Some n ->
  exists n0, st !! i = Some n0 /\ (n = n0 \/ (i = j /\ n = f n0)).
Proof.
  destruct (decide (j = i)) as [->|Hne].
  - rewrite list_lookup_alter_eq. destruct (st !! i) as [n0|]; cbn; [|discriminate].
    intros [= <-]. eauto.
  - rewrite list_lookup_alter_ne by exact Hne. eauto.
Qed.

Lemma lookup_snoc_inv (st : Store) x i n :
  (st ++ [x]) !! i = Some n ->
  (st !! i = Some n /\ (i < length st)%nat) \/ (i = length st /\ n = x).
Proof.
  intros H. apply lookup_app_Some in H as [H|[Hle H]].
  - left. split; [exact H|]. eapply lookup_lt_Some. exact H.
  - right. rewrite list_lookup_singleton in H.
    destruct (i - length st)%nat eqn:E; [|discriminate].
    injection H as <-. split; [lia|reflexivity].
Qed.

Lemma wellFormed_initial filePath : wellFormed (initialParseState filePath).
Proof.
  unfold wellFormed, initialParseState. cbn. split; [lia|]. split.
  - repeat constructor.
  - split; [discriminate|]. intros [|i] n; [|discriminate].
    intros [= <-]. constructor.
Qed.

Lemma wellFormed_parseLine s line :
  wellFormed s -> wellFormed (parseLine s line).
Proof.
  intros (Hpos & Hstack & Hlast & Hkids).
  destruct (acceptedItem line) as [item|] eqn:E.
  - rewrite (parseLine_item s line item E). cbv zeta.
    set (stack := take (itemLevel item + 1) (nodeStack s)).
    assert (Hst : Forall (fun id => (id < length (store s))%nat) stack)
      by (apply Forall_take; exact Hstack).
    set (st' := match last stack with
                | Some p => alter (pushChild (length (store s))) p (store s)
                | None => store s
                end).
    assert (Hlen : length st' = length (store s)).
    { unfold st'. destruct (last stack); [apply length_alter|reflexivity]. }
    assert (Hlook : forall i n, st' !! i = Some n ->
              exists n0, store s !! i = Some n0 /\
                (n = n0 \/ (last stack = Some i /\ n = pushChild (length (store s)) n0))).
    { unfold st'. intros i n. destruct (last stack) as [p|] eqn:Hp.
      - intros H. apply lookup_alter_inv in H as (n0 & Hn0 & [->|[-> ->]]); eauto.
      - eauto. }
    unfold wellFormed. cbn [store nodeStack lastNode].
    rewrite length_app, Hlen. cbn [length].
    split; [lia|]. split; [|split].
    + apply Forall_app. split.
      * eapply Forall_impl; [exact Hst|]. cbn. intros; lia.
      * repeat constructor. lia.
    + intros ln [= <-]. lia.
    + intros i n H. apply lookup_snoc_inv in H as [[H Hi]|[-> ->]].
      * destruct (Hlook i n H) as (n0 & Hn0 & [->|[Hp ->]]).
        -- eapply Forall_impl; [exact (Hkids i n0 Hn0)|]. cbn. intros; lia.
        -- cbn [pushChild children]. apply Forall_app. split.
           ++ eapply Forall_impl; [exact (Hkids i n0 Hn0)|]. cbn. intros; lia.
           ++ repeat constructor; lia.
      * constructor.
  - destruct (parseLine_continuation s line E) as [->|(ln & Hln & _ & ->)].
    + exact (conj Hpos (conj Hstack (conj Hlast Hkids))).
    + unfold wellFormed. cbn [store nodeStack lastNode]. rewrite length_alter.
      split; [exact Hpos|]. split; [exact Hstack|]. split; [exact Hlast|].
      intros i n H. apply lookup_alter_inv in H as (n0 & Hn0 & [->|[-> ->]]);
        exact (Hkids _ _ Hn0).
Qed.

Lemma dataInvariant_initial filePath :
  dataInvariant (getFileNameWithoutExtension filePath) (initialParseState filePath).
Proof.
  split.
  - eexists. split; reflexivity.
  - intros [|i] n; [congruence|discriminate].
Qed.

Lemma parsedItem_new (c : jsstring) lv :
  forallb anyChar c = true -> parsedItem (newNodeData c (lv + 1)) = true.
Proof.
  intros H. unfold parsedItem, parsedText. cbn [newNodeData level text].
  rewrite Nat.add_1_r. cbn [Nat.eqb negb andb].
  rewrite (split_single c (anyChar_noLF c H)). cbn [hd tl forallb].
  rewrite H. reflexivity.
Qed.

Lemma parsedItem_append (line : jsstring) n :
  noLF line = true -> trim line <> [] ->
  parsedItem (data n) = true ->
  parsedItem (data (appendLine (trim line) n)) = true.
Proof.
  intros Hline Hne H. unfold parsedItem, parsedText in *.
  cbn [appendLine data]. destruct (data n) as [t lv ? ? ? ? ? ? ? ? ? ? ? ?].
  cbn [setText level text] in *.
  apply andb_true_iff in H as [Hlv H]. apply andb_true_iff in H as [H0 Hc].
  rewrite Hlv. cbn [andb app].
  rewrite split_snoc by (apply forallb_trim; exact Hline).
  destruct (split_cons t) as (l0 & conts & Hs). rewrite Hs in *.
  cbn [hd tl app] in *. rewrite H0, forallb_app, Hc. cbn [forallb andb].
  rewrite trim_idem. rewrite !andb_true_r.
  rewrite (bool_decide_eq_false_2 (trim line = [])) by exact Hne.
  rewrite (bool_decide_eq_true_2 (trim line = trim line)) by reflexivity.
  reflexivity.
Qed.

Lemma dataInvariant_parseLine fileName s line :
  noLF line = true -> wellFormed s ->
  dataInvariant fileName s -> dataInvariant fileName (parseLine s line).
Proof.
  intros Hline (Hpos & Hstack & Hlast & Hkids) ((r & Hr & Hrd) & Hitems).
  destruct (acceptedItem line) as [item|] eqn:E.
  - rewrite (parseLine_item s line item E). cbv zeta.
    set (stack := take (itemLevel item + 1) (nodeStack s)).
    set (st' := match last stack with
                | Some p => alter (pushChild (length (store s))) p (store s)
                | None => store s
                end).
    assert (Hlook : forall i n, st' !! i = Some n ->
              exists n0, store s !! i = Some n0 /\ data n = data n0).
    { unfold st'. intros i n. destruct (last stack) as [p|].
      - intros H. apply lookup_alter_inv in H as (n0 & Hn0 & [->|[-> ->]]); eauto.
      - eauto. }
    assert (Hroot : exists n, st' !! 0%nat = Some n /\ data n = data r).
    { unfold st'. destruct (last stack) as [p|]; [|eauto].
      destruct (decide (p = 0%nat)) as [->|Hp].
      - rewrite list_lookup_alter_eq, Hr. cbn. eauto.
      - rewrite list_lookup_alter_ne by exact Hp. eauto. }
    split; cbn [store].
    + destruct Hroot as (n & Hn & Hd). exists n. split; [|congruence].
      rewrite lookup_app_l; [exact Hn|]. eapply lookup_lt_Some. exact Hn.
    + intros i n H Hi. apply lookup_snoc_inv in H as [[H _]|[_ ->]].
      * destruct (Hlook i n H) as (n0 & Hn0 & ->). exact (Hitems i n0 Hn0 Hi).
      * cbn [data]. apply parsedItem_new. eapply acceptedItem_content. exact E.
  - destruct (parseLine_continuation s line E) as [->|(ln & Hln & Hne & ->)].
    + split; [eauto | exact Hitems].
    + pose proof (Hlast ln Hln) as Hlt. split; cbn [store].
      * exists r. split; [|exact Hrd].
        rewrite list_lookup_alter_ne by lia. exact Hr.
      * intros i n H Hi. apply lookup_alter_inv in H as (n0 & Hn0 & [->|[-> ->]]).
        -- exact (Hitems i n0 Hn0 Hi).
        -- apply parsedItem_append; [exact Hline | exact Hne |].
           exact (Hitems _ n0 Hn0 Hi).
Qed.

Lemma invariants_lines fileName lines : forall s,
  Forall (fun l => noLF l = true) lines ->
  wellFormed s -> dataInvariant fileName s ->
  wellFormed (fold_left parseLine lines s) /\
  dataInvariant fileName (fold_left parseLine lines s).
Proof.
  induction lines as [|l lines IH]; intros s Hl Hw Hd; [split; assumption|].
  inversion Hl as [|? ? Hl0 Hls]; subst. cbn [fold_left]. apply IH.
  - exact Hls.
  - apply wellFormed_parseLine. exact Hw.
  - apply dataInvariant_parseLine; assumption.
Qed.

Lemma invariants_parse content filePath :
  let s := parseLines filePath (documentLines content) in
  wellFormed s /\ dataInvariant (getFileNameWithoutExtension filePath) s.
Proof.
  cbv zeta. unfold parseLines. apply invariants_lines.
  - unfold documentLines. apply split_noLF.
  - apply wellFormed_initial.
  - apply dataInvariant_initial.
Qed.

Lemma lookup_alter_fwd (f : MindMapNode -> MindMapNode) j (st : Store) i n0 :
  (forall n, parent (f n) = parent n) ->
  st !! i = Some n0 ->
  exists n, alter f j st !! i = Some n /\ parent n = parent n0.
Proof.
  intros Hf H. destruct (decide (j = i)) as [->|Hne].
  - rewrite list_lookup_alter_eq, H. cbn. eauto.
  - rewrite list_lookup_alter_ne by exact Hne. eauto.
Qed.

Lemma parentLinks_initial filePath : parentLinks (store (initialParseState filePath)).
Proof.
  intros [|i] n; [|discriminate]. intros [= <-]. constructor.
Qed.

Lemma parentLinks_parseLine s line :
  wellFormed s -> parentLinks (store s) -> parentLinks (store (parseLine s line)).
Proof.
  intros (Hpos & Hstack & Hlast & Hkids) Hlinks.
  destruct (acceptedItem line) as [item|] eqn:E.
  - rewrite (parseLine_item s line item E). cbv zeta. cbn [store].
    set (stack := take (itemLevel item + 1) (nodeStack s)).
    set (new := {| data := newNodeData (content item) (itemLevel item + 1);
                   parent := last stack; children := [] |}).
    set (st' := match last stack with
                | Some p => alter (pushChild (length (store s))) p (store s)
                | None => store s
                end).
    assert (Hlen : length st' = length (store s)).
    { unfold st'. destruct (last stack); [apply length_alter|reflexivity]. }
    assert (Hfwd : forall c nc0, store s !! c = Some nc0 ->
              exists nc, (st' ++ [new]) !! c = Some nc /\ parent nc = parent nc0).
    { intros c nc0 Hc.
      assert (H : exists nc, st' !! c = Some nc /\ parent nc = parent nc0).
      { unfold st'. destruct (last stack); [|eauto].
        apply lookup_alter_fwd; [reflexivity|exact Hc]. }
      destruct H as (nc & Hnc & Hp). exists nc. split; [|exact Hp].
      rewrite lookup_app_l; [exact Hnc|]. eapply lookup_lt_Some. exact Hnc. }
    assert (Hold : forall i n0, store s !! i = Some n0 ->
              Forall (fun c => exists nc, (st' ++ [new]) !! c = Some nc /\
                                          parent nc = Some i) (children n0)).
    { intros i n0 Hn0. eapply Forall_impl; [exact (Hlinks i n0 Hn0)|].
      cbn. intros c (nc0 & Hc & Hp). destruct (Hfwd c nc0 Hc) as (nc & Hnc & Hp').
      exists nc. split; [exact Hnc|congruence]. }
    intros i n H. apply lookup_snoc_inv in H as [[H Hi]|[-> ->]];
      [|constructor].
    unfold st' in H. destruct (last stack) as [p|] eqn:Hp.
    + apply lookup_alter_inv in H as (n0 & Hn0 & [->|[-> ->]]).
      * exact (Hold i n0 Hn0).
      * cbn [pushChild children]. apply Forall_app. split; [exact (Hold p n0 Hn0)|].
        repeat constructor. exists new. split; [|reflexivity].
        rewrite lookup_app_r by lia. rewrite Hlen, Nat.sub_diag. reflexivity.
    + exact (Hold i n H).
  - destruct (parseLine_continuation s line E) as [->|(ln & Hln & _ & ->)];
      [exact Hlinks|]. cbn [store].
    intros i n H. apply lookup_alter_inv in H as (n0 & Hn0 & Hn).
    assert (Hch : children n = children n0)
      by (destruct Hn as [->|[_ ->]]; reflexivity).
    rewrite Hch. eapply Forall_impl; [exact (Hlinks i n0 Hn0)|].
    cbn. intros c (nc0 & Hc & Hp).
    destruct (lookup_alter_fwd (appendLine (trim line)) ln (store s) c nc0
                ltac:(reflexivity) Hc) as (nc & Hnc & Hp').
    exists nc. split; [exact Hnc|congruence].
Qed.

Lemma parentLinks_lines lines : forall s,
  wellFormed s -> parentLinks (store s) ->
  parentLinks (store (fold_left parseLine lines s)).
Proof.
  induction lines as [|l lines IH]; intros s Hw Hl; [exact Hl|].
  cbn [fold_left]. apply IH.
  - apply wellFormed_parseLine. exact Hw.
  - apply parentLinks_parseLine; assumption.
Qed.

(** ** From the store to the tree *)

Lemma treeOf_total (st : Store) :
  (forall i n, st !! i = Some n ->
     Forall (fun c => (i < c < length st)%nat) (children n)) ->
  forall fuel i, (i < length st)%nat -> (length st - i <= fuel)%nat ->
    is_Some (treeOf fuel st i).
Proof.
  intros Hkids. induction fuel as [|fuel IH]; intros i Hi Hf; [lia|].
  cbn [treeOf]. destruct (lookup_lt_is_Some_2 st i Hi) as [n Hn]. rewrite Hn.
  assert (H : is_Some (mapM (treeOf fuel st) (children n))).
  { apply mapM_is_Some_2. eapply Forall_impl; [exact (Hkids i n Hn)|].
    cbn. intros c Hc. apply IH; lia. }
  destruct H as [kids ->]. eauto.
Qed.

Lemma treeOf_allItems (P : NodeData -> bool) (st : Store) :
  (forall i n, st !! i = Some n ->
     Forall (fun c => (i < c < length st)%nat) (children n)) ->
  (forall i n, st !! i = Some n -> i <> 0%nat -> P (data n) = true) ->
  forall fuel i t, i <> 0%nat -> treeOf fuel st i = Some t -> allItems P t = true.
Proof.
  intros Hkids HP. induction fuel as [|fuel IH]; intros i t Hi; [discriminate|].
  cbn [treeOf]. destruct (st !! i) as [n|] eqn:Hn; [|discriminate].
  destruct (mapM (treeOf fuel st) (children n)) as [kids|] eqn:Hk; [|discriminate].
  intros [= <-]. cbn [allItems]. rewrite (HP i n Hn Hi). cbn [andb].
  apply mapM_Some in Hk. pose proof (Hkids i n Hn) as Hc.
  apply forallb_forall. intros k Hin. apply list_elem_of_In in Hin.
  destruct (list_elem_of_lookup_1 _ _ Hin) as [j Hj].
  destruct (Forall2_lookup_r _ _ _ _ _ Hk Hj) as (c & Hcj & Hck).
  apply (IH c k); [|exact Hck].
  rewrite Forall_forall in Hc.
  specialize (Hc c (list_elem_of_lookup_2 _ _ _ Hcj)). lia.
Qed.

(** The parser returns a tree for every document: its root carries the
    file name at level 0, and all other nodes are parsed items. *)
Lemma parsedTree_spec content filePath :
  exists kids,
    parsedTree content filePath
    = Some (TNode (newNodeData (getFileNameWithoutExtension filePath) 0) kids) /\
    forallb (allItems parsedItem) kids = true.
Proof.
  destruct (invariants_parse content filePath)
    as ((Hpos & _ & _ & Hkids) & ((r & Hr & Hrd) & Hitems)).
  unfold parsedTree, parseMarkdownContent. cbn [rootNode].
  set (s := parseLines filePath (documentLines content)) in *.
  destruct (treeOf_total (store s) Hkids (length (store s)) 0%nat Hpos ltac:(lia))
    as [t Ht].
  rewrite Ht. destruct (length (store s)) as [|fuel] eqn:Hlen; [discriminate|].
  cbn [treeOf] in Ht. rewrite Hr in Ht.
  destruct (mapM (treeOf fuel (store s)) (children r)) as [kids|] eqn:Hk;
    [|discriminate].
  injection Ht as <-. exists kids. rewrite Hrd. split; [reflexivity|].
  apply mapM_Some in Hk. pose proof (Hkids 0%nat r Hr) as Hc.
  apply forallb_forall. intros k Hin. apply list_elem_of_In in Hin.
  destruct (list_elem_of_lookup_1 _ _ Hin) as [j Hj].
  destruct (Forall2_lookup_r _ _ _ _ _ Hk Hj) as (c & Hcj & Hck).
  apply (treeOf_allItems parsedItem (store s)) with (fuel := fuel) (i := c).
  - rewrite Hlen. exact Hkids.
  - exact Hitems.
  - rewrite Forall_forall in Hc.
    specialize (Hc c (list_elem_of_lookup_2 _ _ _ Hcj)). lia.
  - exact Hck.
Qed.

Lemma treeOf_levels (st : Store) :
  (forall i n, st !! i = Some n ->
     Forall (fun c => (i < c < length st)%nat) (children n)) ->
  parentLinks st ->
  (forall i n, st !! i = Some n -> i <> 0%nat ->
     exists p pn, parent n = Some p /\ st !! p = Some pn /\
       level (data n) = level (data pn) + 1) ->
  forall fuel i n t, st !! i = Some n -> treeOf fuel st i = Some t ->
    levelsFollowDepth (level (data n)) t = true.
Proof.
  intros Hkids Hlinks Hlevels.
  induction fuel as [|fuel IH]; intros i n t Hn; [discriminate|].
  cbn [treeOf]. rewrite Hn.
  destruct (mapM (treeOf fuel st) (children n)) as [kids|] eqn:Hk; [|discriminate].
  intros [= <-]. cbn [levelsFollowDepth]. rewrite Nat.eqb_refl. cbn [andb].
  apply mapM_Some in Hk.
  pose proof (Hkids i n Hn) as Hc. pose proof (Hlinks i n Hn) as Hl.
  rewrite Forall_forall in Hc, Hl.
  apply forallb_forall. intros k Hin. apply list_elem_of_In in Hin.
  destruct (list_elem_of_lookup_1 _ _ Hin) as [j Hj].
  destruct (Forall2_lookup_r _ _ _ _ _ Hk Hj) as (c & Hcj & Hck).
  pose proof (list_elem_of_lookup_2 _ _ _ Hcj) as Hcin.
  destruct (Hl c Hcin) as (nc & Hnc & Hp).
  destruct (Hlevels c nc Hnc ltac:(specialize (Hc c Hcin); lia))
    as (p & pn & Hp' & Hpn & Hlv).
  assert (p = i) by congruence. subst p.
  assert (pn = n) by congruence. subst pn.
  rewrite <- Nat.add_1_r, <- Hlv. exact (IH c nc k Hnc Hck).
Qed.

(** In the tree of a document without level skips, the level of every
    node is its depth. *)
Lemma parsed_levels_follow_depth content filePath T :
  noLevelSkip 0 (itemLevels (documentLines content)) = true ->
  parsedTree content filePath = Some T ->
  levelsFollowDepth 0 T = true.
Proof.
  intros Hskip. unfold parsedTree, parseMarkdownContent. cbn [rootNode].
  destruct (invariants_parse content filePath)
    as ((Hpos & _ & _ & Hkids) & ((r & Hr & Hrd) & _)).
  pose proof (parentLinks_lines (documentLines content) _
                (wellFormed_initial filePath) (parentLinks_initial filePath))
    as Hlinks.
  pose proof (levelInvariant_lines (documentLines content) _
                (levelInvariant_initial filePath) Hskip) as (_ & _ & Hlv).
  fold (parseLines filePath (documentLines content)) in Hlinks, Hlv.
  set (s := parseLines filePath (documentLines content)) in *.
  intros HT.
  pose proof (treeOf_levels (store s) Hkids Hlinks Hlv _ _ r T Hr HT) as H.
  rewrite Hrd in H. exact H.
Qed.

End ParseInvariants.
(** * The round trip: serialise, then parse *)

Module RoundTripFacts.
Import StoreFacts StringFacts ParserFacts ParseInvariants.

Lemma stableFirstLine_spec l :
  stableFirstLine l = true ->
  exists c r, l = c :: r /\ isWhiteSpace c = false /\
              forallb anyChar l = true /\ cleanTextContent l = l.
Proof.
  unfold stableFirstLine. intros H.
  apply andb_true_iff in H as [H Hany]. apply andb_true_iff in H as [Hne Hclean].
  apply bool_decide_eq_true in Hclean.
  destruct l as [|c r]; [discriminate|]. exists c, r.
  split; [reflexivity|]. split; [|split; assumption].
  unfold cleanTextContent in Hclean. eapply trim_result_head. exact Hclean.
Qed.

Lemma stableContinuation_spec l :
  stableContinuation l = true ->
  exists c r, l = c :: r /\ isWhiteSpace c = false /\
              trim l = l /\ isListItem l = false.
Proof.
  unfold stableContinuation. intros H.
  apply andb_true_iff in H as [H Hitem]. apply andb_true_iff in H as [Hne Htrim].
  apply bool_decide_eq_true in Htrim. apply negb_true_iff in Hitem.
  destruct l as [|c r]; [discriminate|]. exists c, r.
  split; [reflexivity|]. split; [|split; assumption].
  eapply trim_fixed_head; [exact Htrim | reflexivity].
Qed.

(** The parser on the line of a stable list item. *)
Lemma acceptedItem_stable lv l :
  stableFirstLine l = true ->
  acceptedItem (repeat SPACE (4 * lv) ++ js "*" ++ js " " ++ l)
  = Some {| itemLevel := lv; content := l; indent := repeat SPACE (4 * lv) |}.
Proof.
  intros H. destruct (stableFirstLine_spec l H) as (c & r & -> & Hc & Hany & Hclean).
  destruct (item_line (4 * lv) c r Hc Hany) as (Ht & Hi & Hp).
  unfold acceptedItem.
  destruct (trim (repeat SPACE (4 * lv) ++ js "*" ++ js " " ++ c :: r));
    [contradiction|].
  rewrite Hi, Hp, Hclean. rewrite Nat.mul_comm, Nat.div_mul by lia. reflexivity.
Qed.

(** The parser on a stable continuation line that follows its item. *)
Lemma parseLine_stable_continuation s n l ln :
  stableContinuation l = true ->
  lastNode s = Some ln -> (lastIndentLength s < n)%nat ->
  parseLine s (repeat SPACE n ++ l)
  = {| store := alter (appendLine l) ln (store s);
       nodeStack := nodeStack s;
       parsedMaxLevel := parsedMaxLevel s;
       lastNode := lastNode s;
       lastIndentLength := lastIndentLength s |}.
Proof.
  intros H Hln Hind.
  destruct (stableContinuation_spec l H) as (c & r & -> & Hc & Htrim & Hitem).
  destruct (continuation_line n c r Hc Htrim Hitem) as (Ht & Hi & Hlen).
  unfold parseLine. rewrite Ht, Hi, Hlen, Hln.
  replace (lastIndentLength s <? n)%nat with true
    by (symmetry; apply Nat.ltb_lt; exact Hind).
  reflexivity.
Qed.

Lemma fold_appendLine conts : forall t0 lv q cs,
  fold_left (fun n l => appendLine l n) conts
    {| data := newNodeData t0 lv; parent := q; children := cs |}
  = {| data := newNodeData (fold_left (fun acc l => acc ++ [LF] ++ l) conts t0) lv;
       parent := q; children := cs |}.
Proof.
  induction conts as [|l conts IH]; intros t0 lv q cs; [reflexivity|].
  cbn [fold_left]. rewrite <- IH. reflexivity.
Qed.

Lemma parse_continuations n conts : forall s (A : Store) nd,
  Forall (fun l => stableContinuation l = true) conts ->
  store s = A ++ [nd] -> lastNode s = Some (length A) ->
  (lastIndentLength s < n)%nat ->
  let s' := fold_left parseLine (map (fun l => repeat SPACE n ++ l) conts) s in
  store s' = A ++ [fold_left (fun n l => appendLine l n) conts nd] /\
  nodeStack s' = nodeStack s.
Proof.
  induction conts as [|l conts IH]; intros s A nd Hst Hs Hln Hind; [auto|].
  inversion Hst as [|? ? Hl Hconts]; subst.
  cbn [map fold_left].
  rewrite (parseLine_stable_continuation s n l (length A) Hl Hln Hind).
  rewrite Hs, alter_middle.
  match goal with |- context [fold_left parseLine _ ?s1] =>
    specialize (IH s1 A (appendLine l nd) Hconts) end.
  cbn [store lastNode lastIndentLength nodeStack] in IH.
  apply IH; [reflexivity | exact Hln | exact Hind].
Qed.

Lemma size_reparsed : forall t lv, size (reparsed lv t) = size t.
Proof.
  induction t as [d kids IH] using Tree_forall_ind. intros lv.
  cbn [reparsed size]. f_equal. rewrite map_map. f_equal.
  apply map_ext_Forall. eapply Forall_impl; [exact IH|]. intros k Hk. apply Hk.
Qed.

Lemma nodeLines_unfold d kids lv k l0 conts :
  level d = S k -> split LF (text d) = l0 :: conts ->
  nodeLines (TNode d kids) (S lv)
  = (repeat SPACE (4 * lv) ++ js "*" ++ js " " ++ l0)
    :: map (fun l => repeat SPACE (4 * lv + 2) ++ l) conts
    ++ flat_map (fun child => nodeLines child (S (S lv))) kids.
Proof.
  intros Hl Hs. cbn [nodeLines]. rewrite Hl, Hs. cbn [hd tl].
  replace (S lv - 1)%nat with lv by lia.
  replace (S lv + 1)%nat with (S (S lv)) by lia.
  rewrite repeatStr_spaces. f_equal. f_equal.
  apply map_ext. intros l. rewrite repeat_app. reflexivity.
Qed.

Lemma addChildren_nil n : addChildren [] n = n.
Proof. destruct n. unfold addChildren. cbn. rewrite app_nil_r. reflexivity. Qed.

Lemma parse_forest lv (kids : list Tree) :
  Forall (attaches lv) kids ->
  forall s p, nodeStack s !! lv = Some p -> (p < length (store s))%nat ->
    let s' := fold_left parseLine
                (flat_map (fun child => nodeLines child (S lv)) kids) s in
    store s' = alter (addChildren (rootIds (map (reparsed (S lv)) kids)
                                           (length (store s)))) p (store s)
               ++ flattenForest true (Some p) (map (reparsed (S lv)) kids)
                    (length (store s)) /\
    take (S lv) (nodeStack s') = take (S lv) (nodeStack s).
Proof.
  induction 1 as [|t kids Ht _ IH]; intros s p Hp Hlt.
  - cbn. rewrite app_nil_r. split; [|reflexivity].
    symmetry. apply list_alter_id. apply addChildren_nil.
  - cbn [flat_map]. rewrite fold_left_app.
    destruct (Ht s p Hp Hlt) as [Hst1 Hstack1].
    set (s1 := fold_left parseLine (nodeLines t (S lv)) s) in *.
    assert (Hlen1 : length (store s1) = (length (store s) + size t)%nat).
    { rewrite Hst1, length_app, length_alter, length_flatten, size_reparsed.
      reflexivity. }
    assert (Hp1 : nodeStack s1 !! lv = Some p).
    { rewrite <- (lookup_take_lt _ (S lv)) by lia. rewrite Hstack1.
      rewrite lookup_take_lt by lia. exact Hp. }
    destruct (IH s1 p Hp1 ltac:(lia)) as [Hst2 Hstack2].
    split; [|rewrite Hstack2; exact Hstack1].
    rewrite Hst2, Hlen1, Hst1. cbn [map rootIds flattenForest].
    rewrite size_reparsed.
    rewrite alter_app_l by (rewrite length_alter; exact Hlt).
    rewrite list_alter_alter_eq, <- !app_assoc. f_equal.
    apply list_alter_ext; [|reflexivity]. intros n _.
    unfold addChildren, pushChild, compose. cbn. rewrite <- app_assoc. reflexivity.
Qed.

Lemma stableNode_unfold d kids :
  stableNode (TNode d kids) = true ->
  (exists k, level d = S k) /\ stableText (text d) = true /\
  Forall (fun t => stableNode t = true) kids.
Proof.
  cbn [stableNode]. intros H.
  apply andb_true_iff in H as [H Hkids]. apply andb_true_iff in H as [Hl Ht].
  split; [|split; [exact Ht|]].
  - destruct (level d); [discriminate|eauto].
  - apply Forall_forall. intros t Hin. rewrite forallb_forall in Hkids.
    apply Hkids. apply list_elem_of_In. exact Hin.
Qed.

(** The lines of a stable node make the parser build the node and all its
    descendants, with the levels of their depths. *)
Lemma parse_node : forall t lv, stableNode t = true -> attaches lv t.
Proof.
  induction t as [d kids IH] using Tree_forall_ind. intros lv Hstable s p Hp Hlt.
  cbv zeta.
  destruct (stableNode_unfold d kids Hstable) as ((k & Hlevel) & Htext & Hkids).
  destruct (split_cons (text d)) as (l0 & conts & Hsplit).
  unfold stableText in Htext. rewrite Hsplit in Htext. cbn [hd tl] in Htext.
  apply andb_true_iff in Htext as [Hl0 Hconts].
  assert (Hconts' : Forall (fun l => stableContinuation l = true) conts).
  { apply Forall_forall. intros l Hin. rewrite forallb_forall in Hconts.
    apply Hconts. apply list_elem_of_In. exact Hin. }
  rewrite (nodeLines_unfold d kids lv k l0 conts Hlevel Hsplit).
  cbn [fold_left]. rewrite fold_left_app.
  (* the item line *)
  rewrite (parseLine_item s _ _ (acceptedItem_stable lv l0 Hl0)).
  cbn [itemLevel content indent]. cbv zeta.
  assert (Hlenstack : (lv < length (nodeStack s))%nat)
    by (eapply lookup_lt_Some; exact Hp).
  assert (Hlast : last (take (lv + 1) (nodeStack s)) = Some p).
  { rewrite last_lookup, length_take, Nat.min_l by lia.
    replace (Nat.pred (lv + 1)) with lv by lia.
    rewrite lookup_take_lt by lia. exact Hp. }
  rewrite Hlast.
  set (r := length (store s)).
  set (A := alter (pushChild r) p (store s)).
  assert (HlenA : length A = r) by apply length_alter.
  (* the continuation lines *)
  match goal with |- context [fold_left parseLine (map ?f conts) ?st] =>
    set (s1 := st)
  end.
  match goal with |- context [fold_left parseLine (flat_map _ kids) ?mid] =>
    set (s2 := mid)
  end.
  destruct (parse_continuations (4 * lv + 2) conts s1 A
              {| data := newNodeData l0 (lv + 1); parent := Some p;
                 children := [] |} Hconts' eq_refl)
    as [Hst2' Hstack2'];
    [cbn [lastNode s1]; rewrite HlenA; reflexivity
    |cbn [lastIndentLength s1]; rewrite repeat_length; lia|].
  rewrite fold_appendLine, (join_split (text d) l0 conts Hsplit) in Hst2'.
  assert (Hst2 : store s2 = A ++ [ {| data := newNodeData (text d) (lv + 1);
                                     parent := Some p; children := [] |} ])
    by exact Hst2'.
  assert (Hstack2 : nodeStack s2 = take (lv + 1) (nodeStack s) ++ [r])
    by exact Hstack2'.
  clear Hst2' Hstack2'.
  (* the children *)
  assert (Hkids' : Forall (attaches (S lv)) kids).
  { rewrite Forall_forall in IH, Hkids. apply Forall_forall. intros t Hin.
    apply IH; [exact Hin | apply Hkids; exact Hin]. }
  assert (Hr : nodeStack s2 !! S lv = Some r).
  { rewrite Hstack2, lookup_app_r by (rewrite length_take; lia).
    rewrite length_take, Nat.min_l by lia.
    replace (S lv - (lv + 1))%nat with 0%nat by lia. reflexivity. }
  assert (Hlen2 : length (store s2) = S r).
  { rewrite Hst2, length_app, HlenA. cbn. lia. }
  destruct (parse_forest (S lv) kids Hkids' s2 r Hr ltac:(lia)) as [Hst3 Hstack3].
  split.
  - rewrite Hst3, Hlen2, Hst2. rewrite alter_at by (symmetry; exact HlenA).
    cbn [reparsed]. rewrite flatten_unfold, <- app_assoc. cbn [app].
    replace (lv + 1)%nat with (S lv) by lia. reflexivity.
  - assert (E : forall l : list nat,
              take (S lv) l = take (S lv) (take (S (S lv)) l)).
    { intros l. rewrite take_take. f_equal. lia. }
    rewrite E, Hstack3, <- E, Hstack2.
    rewrite take_app_le by (rewrite length_take; lia).
    rewrite take_take. f_equal. lia.
Qed.

(** The serialiser writes the lines of [nodeLines], each followed by a
    line feed. *)
Lemma concat_map_flat_map {A} (f : jsstring -> jsstring) (g : A -> list jsstring) l :
  concat (map f (flat_map g l)) = concat (map (fun x => concat (map f (g x))) l).
Proof.
  induction l as [|x l IH]; [reflexivity|].
  cbn [flat_map map concat]. rewrite map_app, concat_app, IH. reflexivity.
Qed.

Lemma generateNodeMarkdown_lines : forall t il,
  generateNodeMarkdown t il = concat (map (fun l => l ++ [LF]) (nodeLines t il)).
Proof.
  induction t as [d kids IH] using Tree_forall_ind. intros il.
  cbn [generateNodeMarkdown nodeLines]. destruct (level d); [reflexivity|].
  cbn [map concat]. rewrite map_app, concat_app, map_map, concat_map_flat_map.
  rewrite <- !app_assoc.
  repeat (apply (f_equal2 (@app char)); [reflexivity|]).
  apply (f_equal2 (@app char)).
  - f_equal. apply map_ext. intros l. rewrite <- !app_assoc. reflexivity.
  - f_equal. apply map_ext_Forall. eapply Forall_impl; [exact IH|].
    intros k Hk. apply Hk.
Qed.

Lemma noLF_app a b : noLF (a ++ b) = noLF a && noLF b.
Proof. apply forallb_app. Qed.

Lemma noLF_spaces n : noLF (repeat SPACE n) = true.
Proof. apply forallb_spaces. reflexivity. Qed.

Lemma nodeLines_noLF : forall t il, Forall (fun l => noLF l = true) (nodeLines t il).
Proof.
  induction t as [d kids IH] using Tree_forall_ind. intros il.
  cbn [nodeLines]. destruct (level d); [constructor|].
  pose proof (split_noLF (text d)) as Hs.
  destruct (split_cons (text d)) as (l0 & conts & E). rewrite E in *.
  inversion Hs as [|? ? Hl0 Hconts]; subst. cbn [hd tl].
  rewrite repeatStr_spaces. constructor.
  - rewrite !noLF_app, noLF_spaces, Hl0. reflexivity.
  - apply Forall_app. split.
    + apply Forall_map. eapply Forall_impl; [exact Hconts|]. intros l Hl.
      cbn beta. rewrite !noLF_app, noLF_spaces, Hl. reflexivity.
    + apply Forall_flat_map. eapply Forall_impl; [exact IH|]. intros k Hk.
      apply Hk.
Qed.

Lemma roundTripStable_unfold d kids :
  roundTripStable (TNode d kids) = true ->
  Forall (fun t => level (treeData t) = 1%nat /\ stableNode t = true) kids.
Proof.
  unfold roundTripStable. cbn [treeKids]. intros H.
  apply Forall_forall. intros t Hin. rewrite forallb_forall in H.
  specialize (H t (proj1 (list_elem_of_In _ _) Hin)).
  apply andb_true_iff in H as [H1 H2]. apply Nat.eqb_eq in H1. auto.
Qed.

(** The body of the serialised document. *)
Lemma generateMarkdownFromNodes_lines d kids :
  roundTripStable (TNode d kids) = true ->
  generateMarkdownFromNodes (TNode d kids)
  = (MINDMAP_IDENTIFIER ++ [LF; LF])
    ++ concat (map (fun l => l ++ [LF])
                   (flat_map (fun child => nodeLines child 1) kids)).
Proof.
  intros H. apply roundTripStable_unfold in H.
  unfold generateMarkdownFromNodes. cbn [treeKids]. f_equal.
  rewrite concat_map_flat_map. f_equal.
  apply map_ext_Forall. eapply Forall_impl; [exact H|]. intros t [Hl _].
  cbn beta. rewrite Hl. apply generateNodeMarkdown_lines.
Qed.

Lemma documentLines_serialised d kids :
  roundTripStable (TNode d kids) = true ->
  documentLines (generateMarkdownFromNodes (TNode d kids))
  = flat_map (fun child => nodeLines child 1) kids ++ [[]].
Proof.
  intros H. rewrite (generateMarkdownFromNodes_lines d kids H).
  unfold documentLines. rewrite documentLines_body.
  - apply split_lines. apply Forall_flat_map, Forall_forall.
    intros t _. apply nodeLines_noLF.
  - apply roundTripStable_unfold in H.
    destruct kids as [|t kids]; [exact I|].
    inversion H as [|? ? [Hl Hst] _]; subst. destruct t as [dt kt].
    destruct (stableNode_unfold dt kt Hst) as ((k & Hk) & _ & _).
    destruct (split_cons (text dt)) as (l0 & conts & Hs).
    cbn [flat_map]. rewrite (nodeLines_unfold dt kt 0 k l0 conts Hk Hs).
    reflexivity.
Qed.

(** Parsing the serialisation of a stable tree rebuilds the tree, node
    by node in document order, with the levels of the depths. *)
Lemma reparse_store d kids filePath :
  roundTripStable (TNode d kids) = true ->
  fst (parseMarkdownContent (generateMarkdownFromNodes (TNode d kids)) filePath)
  = flatten true None 0
      (TNode (newNodeData (getFileNameWithoutExtension filePath) 0)
             (map (reparsed 1) kids)).
Proof.
  intros H. unfold parseMarkdownContent, parseLines. cbn [fst].
  rewrite (documentLines_serialised d kids H), fold_left_app.
  cbn [fold_left]. unfold parseLine at 1. cbn [trim trimStart trimEnd dropWhile rev].
  assert (Hkids : Forall (attaches 0) kids).
  { apply roundTripStable_unfold in H. eapply Forall_impl; [exact H|].
    intros t [_ Hst]. apply parse_node. exact Hst. }
  destruct (parse_forest 0 kids Hkids (initialParseState filePath) 0%nat
              eq_refl ltac:(cbn; lia)) as [Hst _].
  rewrite Hst. rewrite flatten_unfold. reflexivity.
Qed.

Lemma height_le_size : forall t, (height t <= size t)%nat.
Proof.
  induction t as [d kids IH] using Tree_forall_ind. cbn [height size].
  apply le_n_S. induction IH as [|k kids Hk _ IHk]; [reflexivity|].
  cbn [map].
  change (list_max (height k :: map height kids))
    with (Nat.max (height k) (list_max (map height kids))).
  change (list_sum (size k :: map size kids))
    with (size k + list_sum (map size kids))%nat.
  lia.
Qed.

(** Any stable tree, parsed or edited, is read back from its
    serialisation with its texts and its children, the levels being the
    depths. *)
Lemma parsedTree_reparse d kids filePath :
  roundTripStable (TNode d kids) = true ->
  parsedTree (generateMarkdownFromNodes (TNode d kids)) filePath
  = Some (TNode (newNodeData (getFileNameWithoutExtension filePath) 0)
                (map (reparsed 1) kids)).
Proof.
  intros H. unfold parsedTree.
  pose proof (reparse_store d kids filePath H) as Hst.
  destruct (parseMarkdownContent _ filePath) as [st md] eqn:E.
  cbn [fst] in Hst. unfold parseMarkdownContent in E. injection E as _ <-.
  cbn [rootNode]. subst st.
  apply treeOf_complete.
  - pose proof (represents_flatten true
      (TNode (newNodeData (getFileNameWithoutExtension filePath) 0)
             (map (reparsed 1) kids)) None [] []) as R.
    cbn [app length] in R. rewrite app_nil_r in R. exact R.
  - rewrite length_flatten. apply height_le_size.
Qed.

Lemma generateNodeMarkdown_reparsed : forall t lv il,
  stableNode t = true ->
  generateNodeMarkdown (reparsed (S lv) t) il = generateNodeMarkdown t il.
Proof.
  induction t as [d kids IH] using Tree_forall_ind. intros lv il Hst.
  destruct (stableNode_unfold d kids Hst) as ((k & Hk) & _ & Hkids).
  cbn [reparsed generateNodeMarkdown newNodeData level text]. rewrite Hk.
  do 3 f_equal. rewrite map_map. apply map_ext_Forall.
  rewrite Forall_forall in IH, Hkids. apply Forall_forall. intros t Hin.
  apply IH; [exact Hin | apply Hkids; exact Hin].
Qed.

Lemma shape_reparsed : forall t lv, shape (reparsed lv t) = shape t.
Proof.
  induction t as [d kids IH] using Tree_forall_ind. intros lv.
  cbn [reparsed shape newNodeData text]. f_equal. rewrite map_map.
  apply map_ext_Forall. eapply Forall_impl; [exact IH|]. intros k Hk. apply Hk.
Qed.

Lemma outline_reparsed : forall t lv,
  levelsFollowDepth lv t = true -> outline (reparsed lv t) = outline t.
Proof.
  induction t as [d kids IH] using Tree_forall_ind. intros lv H.
  cbn [levelsFollowDepth] in H. apply andb_true_iff in H as [Hl Hk].
  apply Nat.eqb_eq in Hl.
  cbn [reparsed outline newNodeData text level]. rewrite Hl. f_equal.
  rewrite map_map. apply map_ext_Forall.
  rewrite Forall_forall in IH. apply Forall_forall. intros t Hin.
  apply IH; [exact Hin|]. rewrite forallb_forall in Hk. apply Hk.
  apply list_elem_of_In. exact Hin.
Qed.

(** For the items of a parsed tree, the conditions on the texts are all
    that stability asks for. *)
Lemma stableNode_of_parsed : forall t,
  allItems parsedItem t = true ->
  allItems (fun d => serialisableText (text d)) t = true ->
  stableNode t = true.
Proof.
  induction t as [d kids IH] using Tree_forall_ind. cbn [allItems stableNode].
  intros Hp Hs.
  apply andb_true_iff in Hp as [Hp Hpk]. apply andb_true_iff in Hs as [Hs Hsk].
  unfold parsedItem, parsedText in Hp.
  apply andb_true_iff in Hp as [Hlv Hp]. apply andb_true_iff in Hp as [Hany Hconts].
  unfold serialisableText in Hs. cbv zeta in Hs.
  apply andb_true_iff in Hs as [Hs Hitems].
  rewrite Hlv. cbn [andb]. apply andb_true_iff. split.
  - unfold stableText, stableFirstLine. rewrite Hs, Hany. cbn [andb].
    apply forallb_forall. intros l Hl. unfold stableContinuation.
    rewrite forallb_forall in Hconts, Hitems.
    pose proof (Hconts l Hl) as H1. pose proof (Hitems l Hl) as H2.
    cbn beta in H1, H2. rewrite H1, H2. reflexivity.
  - apply forallb_forall. intros k Hk.
    rewrite forallb_forall in Hpk, Hsk. rewrite Forall_forall in IH.
    apply IH; [apply list_elem_of_In; exact Hk | apply Hpk; exact Hk
              | apply Hsk; exact Hk].
Qed.

Lemma roundTripStable_of_parsed d kids :
  forallb (allItems parsedItem) kids = true ->
  serialisable (TNode d kids) = true ->
  roundTripStable (TNode d kids) = true.
Proof.
  unfold serialisable, roundTripStable. cbn [treeKids]. intros Hp Hs.
  apply forallb_forall. intros t Ht. rewrite forallb_forall in Hp, Hs.
  pose proof (Hs t Ht) as H. cbn beta in H. apply andb_true_iff in H as [Hl Hi].
  rewrite Hl. cbn [andb]. apply stableNode_of_parsed; [apply Hp; exact Ht | exact Hi].
Qed.

(** C1 (round trip), as the code has it.  Take the tree that
    [parseMarkdownContent] builds for any document, and suppose that its
    items directly below the root have level 1, that the first line of
    every item text is not empty and is left unchanged by
    [cleanTextContent], and that no further line of an item text is itself
    a list item.  Then parsing the output of [generateMarkdownFromNodes]
    returns a tree with the same texts and the same children in the same
    order, which is serialised to the same document; when in addition the
    level of every node of the first tree is its depth, as it is for a
    document without level skips ([parsed_levels_follow_depth]), the two
    trees also have the same levels. *)
Theorem serialised_tree_parses_back (content filePath : jsstring) (T : Tree) :
  parsedTree content filePath = Some T ->
  serialisable T = true ->
  exists T',
    parsedTree (generateMarkdownFromNodes T) filePath = Some T' /\
    generateMarkdownFromNodes T' = generateMarkdownFromNodes T /\
    shape T' = shape T /\
    (levelsFollowDepth 0 T = true -> outline T' = outline T).
Proof.
  destruct (parsedTree_spec content filePath) as (kids & HT & Hp).
  rewrite HT. intros [= <-] Hs.
  pose proof (roundTripStable_of_parsed _ kids Hp Hs) as Hst.
  exists (TNode (newNodeData (getFileNameWithoutExtension filePath) 0)
                (map (reparsed 1) kids)).
  split; [apply parsedTree_reparse; exact Hst|].
  apply roundTripStable_unfold in Hst. split; [|split].
  - unfold generateMarkdownFromNodes. cbn [treeKids]. do 2 f_equal.
    rewrite map_map. apply map_ext_Forall.
    eapply Forall_impl; [exact Hst|]. intros [d ks] [Hl Hk]. cbn beta.
    cbn [treeData] in Hl. cbn [reparsed treeData newNodeData level]. rewrite Hl.
    apply (generateNodeMarkdown_reparsed (TNode d ks) 0 1 Hk).
  - cbn [shape]. f_equal. rewrite map_map. apply map_ext. intros t.
    apply shape_reparsed.
  - intros Hlv. cbn [levelsFollowDepth] in Hlv. apply andb_true_iff in Hlv as [_ Hlv].
    cbn [outline]. f_equal. rewrite map_map. apply map_ext_Forall.
    apply Forall_forall. intros t Ht. apply outline_reparsed.
    rewrite forallb_forall in Hlv. apply Hlv, list_elem_of_In. exact Ht.
Qed.

Lemma serialised_tree_parses_back_witness :
  parsedTree scenario1 (js "plan.md") = Some scenario1Tree /\
  serialisable scenario1Tree = true /\
  exists T',
    parsedTree (generateMarkdownFromNodes scenario1Tree) (js "plan.md") = Some T' /\
    generateMarkdownFromNodes T' = generateMarkdownFromNodes scenario1Tree /\
    shape T' = shape scenario1Tree /\
    (levelsFollowDepth 0 scenario1Tree = true -> outline T' = outline scenario1Tree).
Proof.
  assert (H1 : parsedTree scenario1 (js "plan.md") = Some scenario1Tree)
    by (vm_compute; reflexivity).
  assert (H2 : serialisable scenario1Tree = true) by (vm_compute; reflexivity).
  split; [exact H1|]. split; [exact H2|].
  exact (serialised_tree_parses_back scenario1 (js "plan.md") scenario1Tree H1 H2).
Defined.

(** C1 as stated fails.  The only item of [bareAttribute] is an attribute,
    which [cleanTextContent] removes: the parsed tree has one node with an
    empty text, it is written as a line with a marker and nothing else,
    and that line is not a list item.  The second parse returns the root
    alone, and its serialisation is not that of the first tree. *)
Lemma round_trip_counterexample :
  let T := TNode (newNodeData (js "doc") 0) [TNode (newNodeData [] 1) []] in
  let T' := TNode (newNodeData (js "doc") 0) [] in
  parsedTree bareAttribute (js "doc.md") = Some T /\
  parsedTree (generateMarkdownFromNodes T) (js "doc.md") = Some T' /\
  outline T' <> outline T /\
  generateMarkdownFromNodes T' <> generateMarkdownFromNodes T.
Proof.
  cbv zeta. split; [vm_compute; reflexivity|]. split; [vm_compute; reflexivity|].
  split; [discriminate|]. vm_compute. discriminate.
Qed.

(** Why the levels need their own condition: the tree of [skippedLevel]
    is written and read back with the same texts, but its node B, at level
    3 below a node of level 1, comes back at level 2. *)
Example skipped_level_comes_back_shallower :
  let T := TNode (newNodeData (js "doc") 0)
             [TNode (newNodeData (js "A") 1) [TNode (newNodeData (js "B") 3) []]] in
  let T' := TNode (newNodeData (js "doc") 0)
             [TNode (newNodeData (js "A") 1) [TNode (newNodeData (js "B") 2) []]] in
  parsedTree skippedLevel (js "doc.md") = Some T /\
  serialisable T = true /\
  parsedTree (generateMarkdownFromNodes T) (js "doc.md") = Some T' /\
  outline T' <> outline T.
Proof.
  cbv zeta. repeat split; try (vm_compute; reflexivity). discriminate.
Qed.

(** The parser returns a tree for every document. *)
Lemma parsedTree_total content filePath :
  exists T, parsedTree content filePath = Some T.
Proof.
  destruct (parsedTree_spec content filePath) as (kids & H & _). eauto.
Qed.

End RoundTripFacts.
(** * Properties of the layout engine *)

Module LayoutFacts.
Import PrimFloat Layout.

(** Induction over a hierarchy with the hypothesis for all children. *)
Lemma HierarchyNode_forall_ind (P : HierarchyNode -> Prop) :
  (forall d dep nx ny cs, Forall P cs -> P (HNode d dep nx ny cs)) ->
  forall n, P n.
Proof.
  intros step. fix IH 1. intros [d dep nx ny cs]. apply step.
  induction cs as [|c cs IHcs]; constructor; [apply IH | exact IHcs].
Qed.



(** *** The guard [|| 0] *)




(** *** The two loops and their description by index *)





(** *** Pass 1 *)

Lemma calc_fields cb n :
  depth (calculateAllSubtreeDimensions cb n) = depth n /\
  text (data (calculateAllSubtreeDimensions cb n)) = text (data n) /\
  children (calculateAllSubtreeDimensions cb n)
    = map (calculateAllSubtreeDimensions cb) (children n).
Proof. destruct n; simpl; auto. Qed.

Lemma skeleton_calc cb :
  forall n, skeleton (calculateAllSubtreeDimensions cb n) = skeleton n.
Proof.
  induction n as [d dep nx ny cs IH] using HierarchyNode_forall_ind.
  cbn [calculateAllSubtreeDimensions skeleton visitAfter text level color
       icon link expanded selected hovered nodeX nodeY].
  f_equal. rewrite map_map. apply map_ext_Forall. exact IH.
Qed.



(** The order of the additions matters in doubles: for the children
    heights 0.1 and 0.2 (the nearest doubles) the code computes
    [(0 + 0.1 + 10) + 0.2], which differs from [(0.1 + 0.2) + 10]. *)
Example subtree_height_follows_the_loop :
  let hs := [0x1.999999999999ap-4; 0x1.999999999999ap-3]%float in
  totalChildrenHeight hs = (0 + 0x1.999999999999ap-4 + 10 + 0x1.999999999999ap-3)%float /\
  totalChildrenHeight hs
    <> (0x1.999999999999ap-4 + 0x1.999999999999ap-3 + 10)%float.
Proof. vm_compute. split; [reflexivity|discriminate]. Qed.

(** *** Pass 2 *)




Lemma skeleton_setPos :
  forall n px py, skeleton (setNodePositionsTopDown n px py) = skeleton n.
Proof.
  induction n as [d dep nx ny cs IH] using HierarchyNode_forall_ind.
  intros px py. cbn [setNodePositionsTopDown skeleton]. f_equal.
  unfold distributeChildrenVerticalSpace.
  generalize (px - sumChildrenHeight cs 0 / 2)%float.
  generalize (py + or0 (nodeWidth d) + horizontalSpacing dep)%float.
  induction IH as [|c cs' Hc _ IHcs]; intros cy cur; cbn [placeChildren map];
    [reflexivity|].
  rewrite Hc, IHcs. reflexivity.
Qed.






(** Rounding moves the children: when a sibling of height 2^59 pushes
    the coordinates just below 2^58 in magnitude, where consecutive
    doubles are 32 apart, the slot of B (height 34) and the slot of C (height 2)
    collapse, and both children get the same centre. *)
Example sibling_centres_coincide_after_rounding :
  let out := createRecursiveTreeLayout hugeDims hugeRoot in
  map (fun c => (text (data c), subtreeHeight (data c), x c)) (children out)
  = [ (js "B", Some 34%float, Some (-0x1.ffffffffffffcp+57)%float);
      (js "C", Some 2%float, Some (-0x1.ffffffffffffcp+57)%float);
      (js "D", Some 0x1p+59%float, Some 128%float) ].
Proof. vm_compute. reflexivity. Qed.

(** Scenario 1: B and C, the children of A, get the same [y] and slots
    10 apart. *)
Example scenario1_layout :
  map (fun n => (text (data n), x n, y n))
      (descendants (createRecursiveTreeLayout sampleDims sampleRoot))
  = [ (js "doc", Some 100%float, Some 100%float);
      (js "A", Some 100%float, Some 224%float);
      (js "B", Some 80%float, Some 282%float);
      (js "C", Some 120%float, Some 282%float) ].
Proof. vm_compute. reflexivity. Qed.

(** C10.  The layout writes the four layout fields of the data objects and
    the coordinates of the hierarchy nodes only: text, level, colour, icon,
    link, the expanded / selected / hovered flags, the data object's own
    [x] and [y], the depth and the children with their order are those of
    the input. *)
Theorem layout_preserves_skeleton
    (cb : nat -> jsstring -> NodeDimensions) (root : HierarchyNode) :
  skeleton (createRecursiveTreeLayout cb root) = skeleton root.
Proof.
  unfold createRecursiveTreeLayout.
  rewrite skeleton_setPos. apply skeleton_calc.
Qed.

End LayoutFacts.
(** * Properties of the undo manager *)

Module UndoFacts.
Import StoreFacts UndoManager.

Lemma height_kids d kids fuel :
  (height (TNode d kids) <= S fuel)%nat ->
  Forall (fun k => (height k <= fuel)%nat) kids.
Proof.
  cbn [height]. intros H. apply le_S_n in H.
  apply list_max_le in H. apply Forall_map in H. exact H.
Qed.

(** Cloning a list of nodes appends their canonical layouts. *)
Lemma mapClone_spec clone kids : forall cs (st : Store),
  Forall2 (represents st) kids cs ->
  Forall (fun k => forall (st : Store) i, represents st k i ->
            clone st i = Some (st ++ flatten false None (length st) k, length st))
         kids ->
  mapClone clone st cs
  = Some (st ++ flattenForest false None kids (length st),
          rootIds kids (length st)).
Proof.
  induction kids as [|k kids IH]; intros cs st H2 Hc; inversion H2; subst.
  - cbn. rewrite app_nil_r. reflexivity.
  - inversion Hc as [|? ? Hk Hkids]; subst. cbn [mapClone].
    rewrite (Hk st y) by assumption.
    rewrite (IH l' (st ++ flatten false None (length st) k)).
    + rewrite length_app, length_flatten, <- app_assoc. reflexivity.
    + eapply Forall2_impl; [eassumption|]. intros t i Ht.
      apply represents_app. exact Ht.
    + exact Hkids.
Qed.

(** [deepCloneNode] appends the canonical layout of the tree below the
    node, without parent links, and returns its first index. *)
Lemma deepCloneNode_spec : forall t fuel (st : Store) i,
  represents st t i -> (height t <= fuel)%nat ->
  deepCloneNode fuel st i
  = Some (st ++ flatten false None (length st) t, length st).
Proof.
  induction t as [d kids IH] using Tree_forall_ind. intros fuel st i Hrep Hfuel.
  destruct fuel as [|fuel]; [cbn in Hfuel; lia|].
  apply represents_unfold in Hrep as (n & Hn & Hd & Hkids).
  cbn [deepCloneNode]. rewrite Hn.
  rewrite (mapClone_spec (deepCloneNode fuel) kids (children n) (st ++ [n])).
  - rewrite length_app. cbn [length]. rewrite Nat.add_1_r, <- app_assoc.
    cbn [app]. rewrite !alter_middle, flatten_unfold. subst d. reflexivity.
  - eapply Forall2_impl; [exact Hkids|]. intros t i' Ht.
    apply represents_app. exact Ht.
  - pose proof (height_kids d kids fuel Hfuel) as Hh.
    rewrite Forall_forall in IH, Hh. apply Forall_forall. intros k Hk st' i' Hr.
    apply IH; [exact Hk | exact Hr | apply Hh; exact Hk].
Qed.

Lemma flatten_set_top linked top top' base t (A B : Store) :
  alter (setParent top') (length A) (A ++ flatten linked top base t ++ B)
  = A ++ flatten linked top' base t ++ B.
Proof.
  destruct t as [d kids]. rewrite !flatten_unfold. cbn [app].
  rewrite alter_middle. reflexivity.
Qed.

Lemma rebuildChildren_spec rebuild base kids : forall (pre post : Store),
  Forall (fun k => forall top (A B : Store),
            rebuild (A ++ flatten false top (length A) k ++ B) (length A)
            = Some (A ++ flatten true top (length A) k ++ B)) kids ->
  rebuildChildren rebuild base
    (pre ++ flattenForest false None kids (length pre) ++ post)
    (rootIds kids (length pre))
  = Some (pre ++ flattenForest true (Some base) kids (length pre) ++ post).
Proof.
  induction kids as [|k kids IH]; intros pre post Hk; [reflexivity|].
  inversion Hk as [|? ? Hk1 Hk2]; subst.
  cbn [rootIds flattenForest rebuildChildren].
  rewrite <- !app_assoc, flatten_set_top, Hk1.
  specialize (IH (pre ++ flatten true (Some base) (length pre) k) post Hk2).
  rewrite length_app, length_flatten, <- !app_assoc in IH. exact IH.
Qed.

(** [rebuildParentReferences] turns the unlinked layout of a tree into
    the linked one; the parent of the root is not written. *)
Lemma rebuildParentReferences_spec : forall t fuel top (A B : Store),
  (height t <= fuel)%nat ->
  rebuildParentReferences fuel (A ++ flatten false top (length A) t ++ B) (length A)
  = Some (A ++ flatten true top (length A) t ++ B).
Proof.
  induction t as [d kids IH] using Tree_forall_ind. intros fuel top A B Hfuel.
  destruct fuel as [|fuel]; [cbn in Hfuel; lia|].
  cbn [rebuildParentReferences]. rewrite !flatten_unfold.
  rewrite lookup_app_r by lia. rewrite Nat.sub_diag. cbn [lookup list_lookup children app].
  pose proof (rebuildChildren_spec (rebuildParentReferences fuel) (length A) kids
    (A ++ [ {| data := d; parent := top; children := rootIds kids (S (length A)) |} ])
    B) as R.
  rewrite length_app in R. cbn [length] in R. rewrite Nat.add_1_r in R.
  rewrite <- !app_assoc in R. cbn [app] in R. apply R.
  pose proof (height_kids d kids fuel Hfuel) as Hh.
  rewrite Forall_forall in IH, Hh. apply Forall_forall. intros k Hk top' A' B'.
  apply IH; [exact Hk | apply Hh; exact Hk].
Qed.

(** The snapshot of a data set whose root and [allNodes] entries stand
    for trees: the clones are appended to the store, the live objects are
    not written. *)
Lemma snapshot_spec fuel (st : Store) d r t ts :
  rootNode d = Some r -> represents st t r ->
  Forall2 (represents st) ts (allNodes d) ->
  (height t <= fuel)%nat -> Forall (fun k => (height k <= fuel)%nat) ts ->
  snapshot fuel st d
  = Some (st ++ flatten true None (length st) t
             ++ flattenForest false None ts (length st + size t),
          {| rootNode := Some (length st);
             allNodes := rootIds ts (length st + size t);
             maxLevel := maxLevel d |}).
Proof.
  intros Hr Ht Hts Hfuel Hfuels. unfold snapshot. rewrite Hr.
  rewrite (deepCloneNode_spec t fuel st r Ht Hfuel).
  rewrite (mapClone_spec (deepCloneNode fuel) ts (allNodes d)).
  - rewrite length_app, length_flatten, <- app_assoc.
    rewrite rebuildParentReferences_spec by exact Hfuel. reflexivity.
  - eapply Forall2_impl; [exact Hts|]. intros k i Hk.
    apply represents_app. exact Hk.
  - rewrite Forall_forall in Hfuels. apply Forall_forall. intros k Hk st' i Hrep.
    apply deepCloneNode_spec; [exact Hrep | apply Hfuels; exact Hk].
Qed.

(** What [snapshot_spec] says about the store it returns. *)
Lemma snapshot_store_facts (st : Store) t ts :
  let st' := st ++ flatten true None (length st) t
               ++ flattenForest false None ts (length st + size t) in
  linkedClone st' (length st) t (length st) None /\
  Forall2 (represents st') ts (rootIds ts (length st + size t)).
Proof.
  intros st'. split.
  - apply linkedClone_flatten. lia.
  - pose proof (represents_flattenForest false None ts
      (st ++ flatten true None (length st) t) []) as H.
    rewrite length_app, length_flatten, app_nil_r, <- app_assoc in H. exact H.
Qed.

(** The clones that [allNodes] of the snapshot refers to are made of
    objects allocated by the call. *)
Lemma snapshot_allNodes_fresh (st : Store) t ts :
  let st' := st ++ flatten true None (length st) t
               ++ flattenForest false None ts (length st + size t) in
  Forall2 (cloneFrom st' (length st)) ts (rootIds ts (length st + size t)).
Proof.
  intros st'.
  pose proof (cloneFrom_flattenForest false None (length st) ts
    (st ++ flatten true None (length st) t) []) as H.
  rewrite length_app, length_flatten, app_nil_r, <- app_assoc in H.
  apply H. lia.
Qed.

(** C5.  [saveSnapshot] pushes a deep clone of the tree on the undo stack:
    the clone below [rootNode] reads as the same tree, its parent links
    are rebuilt (none at the root), and all its node objects are
    allocated by the call; every entry of [allNodes] is a clone of the
    subtree of the corresponding live node, again made of objects
    allocated by the call only; and the objects that existed before are
    not written.  The oldest snapshot is
    dropped once the stack would hold more than 5, so the stack never
    holds more than 5 snapshots and the state saved six operations ago
    cannot be reached by undo; the redo stack is cleared. *)
Theorem saveSnapshot_pushes_deep_clone
    (fuel : nat) (u : Stacks) (st : Store) (d : MindMapData)
    (r : nat) (t : Tree) (ts : list Tree) :
  rootNode d = Some r -> represents st t r ->
  Forall2 (represents st) ts (allNodes d) ->
  (height t <= fuel)%nat -> Forall (fun k => (height k <= fuel)%nat) ts ->
  (length (undoStack u) <= MAX_STACK_SIZE)%nat ->
  exists u' st' snap c,
    saveSnapshot fuel u st d = Some (u', st') /\
    undoStack u' = (if (length (undoStack u) <? 5)%nat
                    then undoStack u ++ [snap]
                    else tl (undoStack u) ++ [snap]) /\
    (length (undoStack u') <= 5)%nat /\
    redoStack u' = [] /\
    rootNode snap = Some c /\ maxLevel snap = maxLevel d /\
    linkedClone st' (length st) t c None /\
    Forall2 (represents st') ts (allNodes snap) /\
    Forall2 (cloneFrom st' (length st)) ts (allNodes snap) /\
    (exists ext, st' = st ++ ext).
Proof.
  intros Hr Ht Hts Hfuel Hfuels Hlen.
  unfold saveSnapshot.
  rewrite (snapshot_spec fuel st d r t ts Hr Ht Hts Hfuel Hfuels).
  destruct (snapshot_store_facts st t ts) as [Hclone Hall].
  pose proof (snapshot_allNodes_fresh st t ts) as Hfresh.
  eexists _, _, _, (length st). split; [reflexivity|].
  cbn [undoStack redoStack rootNode maxLevel allNodes].
  unfold MAX_STACK_SIZE in *. rewrite length_app. cbn [length].
  destruct (length (undoStack u) <? 5)%nat eqn:E.
  - apply Nat.ltb_lt in E.
    replace (5 <? length (undoStack u) + 1)%nat with false
      by (symmetry; apply Nat.ltb_ge; lia).
    split; [reflexivity|]. split; [rewrite length_app; cbn; lia|].
    split; [reflexivity|]. split; [reflexivity|]. split; [reflexivity|].
    split; [exact Hclone|]. split; [exact Hall|]. split; [exact Hfresh|].
    eexists. reflexivity.
  - apply Nat.ltb_ge in E.
    replace (5 <? length (undoStack u) + 1)%nat with true
      by (symmetry; apply Nat.ltb_lt; lia).
    destruct (undoStack u) as [|oldest rest] eqn:Eu; [cbn in E; lia|].
    cbn [tl app]. cbn [length] in Hlen.
    split; [reflexivity|]. split; [rewrite length_app; cbn; lia|].
    split; [reflexivity|]. split; [reflexivity|]. split; [reflexivity|].
    split; [exact Hclone|]. split; [exact Hall|]. split; [exact Hfresh|].
    eexists. reflexivity.
Qed.

Lemma sample_represents :
  represents sampleStore sampleTree 0 /\
  Forall2 (represents sampleStore) sampleTrees (allNodes sampleData) /\
  (height sampleTree <= 10)%nat /\
  Forall (fun k => (height k <= 10)%nat) sampleTrees.
Proof.
  split; [apply (treeOf_sound 10); vm_compute; reflexivity|].
  split; [apply (mapM_treeOf_sound 10); vm_compute; reflexivity|].
  split; [vm_compute; lia|].
  apply Forall_forall. intros k Hk. apply list_elem_of_In in Hk.
  vm_compute in Hk. repeat (destruct Hk as [<-|Hk]; [vm_compute; lia|]).
  contradiction.
Qed.

Lemma saveSnapshot_pushes_deep_clone_witness :
  exists u' st' snap c,
    saveSnapshot 10 empty sampleStore sampleData = Some (u', st') /\
    undoStack u' = (if (length (undoStack empty) <? 5)%nat
                    then undoStack empty ++ [snap]
                    else tl (undoStack empty) ++ [snap]) /\
    (length (undoStack u') <= 5)%nat /\
    redoStack u' = [] /\
    rootNode snap = Some c /\ maxLevel snap = maxLevel sampleData /\
    linkedClone st' (length sampleStore) sampleTree c None /\
    Forall2 (represents st') sampleTrees (allNodes snap) /\
    Forall2 (cloneFrom st' (length sampleStore)) sampleTrees (allNodes snap) /\
    (exists ext, st' = sampleStore ++ ext).
Proof.
  destruct sample_represents as (H1 & H2 & H3 & H4).
  apply (saveSnapshot_pushes_deep_clone 10 empty sampleStore sampleData
           0 sampleTree sampleTrees);
    [reflexivity | exact H1 | exact H2 | exact H3 | exact H4 | cbn; lia].
Defined.




(** Six snapshots, then six undos: the first five undos succeed and return
    the snapshots taken last (their roots are the objects 69, 56, 43, 30
    and 17), the sixth finds the stack empty: the snapshot taken first,
    whose root is the object 4, is gone. *)
Example undo_bound_after_six_snapshots :
  let save := fun (us : option (Stacks * Store)) =>
    match us with
    | Some (u, st) => saveSnapshot 10 u st sampleData
    | None => None
    end in
  let back := fun (us : option (Stacks * Store * list (option nat))) =>
    match us with
    | Some (u, st, roots) =>
        match undo 10 u st sampleData with
        | Some (u, st, res) =>
            Some (u, st, roots ++ [res ≫= rootNode])
        | None => None
        end
    | None => None
    end in
  match save (save (save (save (save (save (Some (empty, sampleStore))))))) with
  | Some (u, st) =>
      length (undoStack u) = 5%nat /\
      (snd <$> back (back (back (back (back (back (Some (u, st, [])))))))) 
      = Some [Some 69; Some 56; Some 43; Some 30; Some 17; None]%nat
  | None => False
  end.
Proof. vm_compute. split; reflexivity. Qed.

End UndoFacts.
(** * Properties of the inline editor *)

Module NodeEditorFacts.
Import NodeEditor.

(** [validateText] rejects exactly the texts that are blank, too long or
    contain a forbidden character. *)
Lemma validateText_false_iff MAX INVALID text :
  validateText MAX INVALID text = false <->
  (trim text = [] \/ (MAX < length text)%nat \/
   exists c, In c INVALID /\ includes text c = true).
Proof.
  unfold validateText.
  destruct (Nat.eqb (length (trim text)) 0) eqn:Eblank.
  - rewrite orb_true_r. split; [intros _|reflexivity].
    left. apply Nat.eqb_eq in Eblank. destruct (trim text); [reflexivity|discriminate].
  - assert (Hne : trim text <> []).
    { intros E. rewrite E in Eblank. discriminate. }
    destruct text as [|c text]; [exfalso; apply Hne; reflexivity|].
    cbn [orb].
    destruct (Nat.ltb MAX (length (c :: text))) eqn:Elen.
    + split; [intros _|reflexivity]. right; left. apply Nat.ltb_lt. exact Elen.
    + apply Nat.ltb_ge in Elen.
      destruct (existsb _ INVALID) eqn:Einv.
      * split; [intros _|reflexivity]. right; right.
        apply existsb_exists in Einv. exact Einv.
      * split; [discriminate|]. intros [E|[L|(ch & Hin & Hinc)]].
        -- contradiction.
        -- lia.
        -- assert (existsb (fun char => includes (c :: text) char) INVALID = true)
             by (apply existsb_exists; eauto).
           congruence.
Qed.

Lemma exitEditMode_editing ed :
  isEditing (editingState ed) = true ->
  nodeText (exitEditMode ed) = nodeText ed /\
  effects (exitEditMode ed)
    = HideEditingHint :: OnCanvasInteractionChanged true :: effects ed /\
  editingState (exitEditMode ed)
    = {| isEditing := false; currentNode := None;
         originalText := []; editElement := None |} /\
  canvasInteractionEnabled (exitEditMode ed) = true.
Proof.
  intros H. unfold exitEditMode. rewrite H. cbn [negb].
  destruct (editElement (editingState ed)); cbn; auto.
Qed.

(** C7.  Committing an inline edit whose text (the trimmed content of the
    edit element) is empty, longer than the maximum, or contains a
    forbidden character is rejected: the text of every node is unchanged,
    the validation toast is shown, neither [onBeforeTextChange] (the undo
    snapshot) nor [onTextChanged] (the file write) is called, and the
    editing session is over. *)
Theorem invalid_edit_is_rejected
    (MAX : nat) (INVALID : list jsstring) (throws : Effect -> bool)
    (ed : Editor) (n e : nat) :
  isEditing (editingState ed) = true ->
  currentNode (editingState ed) = Some n ->
  editElement (editingState ed) = Some e ->
  let newText := trim (textContent (dom ed e)) in
  (newText = [] \/ (MAX < length newText)%nat \/
   exists c, In c INVALID /\ includes newText c = true) ->
  let ed' := saveText MAX INVALID throws ed in
  nodeText ed' = nodeText ed /\
  effects ed'
    = HideEditingHint :: OnCanvasInteractionChanged true
        :: ValidationError nodeTextEmpty :: effects ed /\
  (forall k, In (OnBeforeTextChange k) (effects ed') ->
             In (OnBeforeTextChange k) (effects ed)) /\
  (forall k t, In (OnTextChanged k t) (effects ed') ->
               In (OnTextChanged k t) (effects ed)) /\
  isEditing (editingState ed') = false /\
  currentNode (editingState ed') = None.
Proof.
  intros Hed Hn He newText Hbad ed'.
  assert (Hval : validateText MAX INVALID newText = false).
  { apply validateText_false_iff. destruct Hbad as [E|Hbad]; [|right; exact Hbad].
    left. rewrite E. reflexivity. }
  assert (Hsave : ed' = showValidationError nodeTextEmpty ed).
  { unfold ed', saveText. rewrite Hed, Hn, He. fold newText. rewrite Hval.
    reflexivity. }
  assert (Hshow : showValidationError nodeTextEmpty ed
                  = exitEditMode (emit (ValidationError nodeTextEmpty) ed)).
  { unfold showValidationError. cbn [emit editingState]. rewrite Hed. reflexivity. }
  destruct (exitEditMode_editing (emit (ValidationError nodeTextEmpty) ed) Hed)
    as (Htxt & Heff & Hst & _).
  rewrite Hsave, Hshow, Htxt, Heff, Hst. cbn [emit nodeText effects isEditing currentNode].
  split; [reflexivity|]. split; [reflexivity|].
  split; [|split; [|split; reflexivity]].
  - intros k [H|[H|[H|H]]]; try discriminate. exact H.
  - intros k t [H|[H|[H|H]]]; try discriminate. exact H.
Qed.

(** Scenario 3: clearing the text of node B is rejected. *)
Lemma invalid_edit_is_rejected_witness :
  let ed' := saveText 50 [] (fun _ => false) sampleEditor in
  nodeText ed' = nodeText sampleEditor /\
  effects ed'
    = HideEditingHint :: OnCanvasInteractionChanged true
        :: ValidationError nodeTextEmpty :: effects sampleEditor /\
  (forall k, In (OnBeforeTextChange k) (effects ed') ->
             In (OnBeforeTextChange k) (effects sampleEditor)) /\
  (forall k t, In (OnTextChanged k t) (effects ed') ->
               In (OnTextChanged k t) (effects sampleEditor)) /\
  isEditing (editingState ed') = false /\
  currentNode (editingState ed') = None.
Proof.
  apply (invalid_edit_is_rejected 50 [] (fun _ => false) sampleEditor 1 0);
    try reflexivity.
  left. vm_compute. reflexivity.
Defined.

End NodeEditorFacts.
(** * Properties of the click handlers *)

Module ClickFacts.
Import Clicks.

(** C8, on [D3InteractionHandler.handleNodeClick].  A second click on the
    same node 270 ms after the first one is inside the 300 ms window of
    the test [timeDiff < 300], but the timer armed by the first click has
    fired at 250 ms, has run the single-click selection and has reset
    [clickNode]: the second click is taken for a first click again, and
    no double click is ever reported.  Nor does the selection run on the
    first click: it runs when the timer fires. *)
Theorem d3_second_click_at_270ms_is_not_a_double_click :
  let first := D3InteractionHandler.click 1000 7 initial in
  let second := D3InteractionHandler.click 1270 7 first in
  (1270 - 1000 < 300)%Z /\
  effects first = [] /\
  effects second = [PerformNodeSelection 7] /\
  clickNode second = Some 7%nat /\ lastClickTime second = 1270%Z.
Proof. vm_compute. repeat split; reflexivity. Qed.

Lemma d3_first_click (t : Z) (node : nat) :
  D3InteractionHandler.click t node initial
  = {| clickTimeout := Some 1%nat; lastClickTime := t; clickNode := Some node;
       timers := [mkTimer 1 (t + 250) node]; nextTimerId := 2; effects := [] |}.
Proof.
  unfold D3InteractionHandler.click, D3InteractionHandler.advance,
    D3InteractionHandler.handleNodeClick, initial; cbn.
  rewrite andb_false_r. reflexivity.
Qed.

(** Inside the first 250 ms the same handler does report the double click,
    and the pending selection is cancelled. *)
Lemma d3_double_click_before_250ms (t1 t2 : Z) (node : nat) :
  (t1 <= t2 < t1 + 250)%Z ->
  let second :=
    D3InteractionHandler.click t2 node (D3InteractionHandler.click t1 node initial) in
  effects second = [NodeDoubleClick node] /\ timers second = [].
Proof.
  intros Ht. rewrite d3_first_click.
  unfold D3InteractionHandler.click, D3InteractionHandler.advance; cbn.
  destruct (t1 + 250 <=? t2)%Z eqn:E; [apply Z.leb_le in E; lia|].
  unfold D3InteractionHandler.handleNodeClick; cbn.
  replace (t2 - t1 <? 300)%Z with true by (symmetry; apply Z.ltb_lt; lia).
  rewrite Nat.eqb_refl. cbn. split; reflexivity.
Qed.

Lemma d3_double_click_before_250ms_witness :
  effects (D3InteractionHandler.click 1200 7
             (D3InteractionHandler.click 1000 7 initial))
  = [NodeDoubleClick 7].
Proof.
  apply (d3_double_click_before_250ms 1000 1200 7). lia.
Defined.

Lemma mouse_first_click (t : Z) (node : nat) :
  MouseInteraction.click t node initial
  = {| clickTimeout := Some 1%nat; lastClickTime := t; clickNode := Some node;
       timers := [mkTimer 1 (t + 300) node]; nextTimerId := 2;
       effects := [PerformNodeSelection node] |}.
Proof.
  unfold MouseInteraction.click, MouseInteraction.advance,
    MouseInteraction.handleNodeClick, initial; cbn.
  rewrite andb_false_r. reflexivity.
Qed.

(** The refactored handler [MouseInteraction.handleNodeClick] behaves as
    specified: the selection runs on the first click, and a second click
    on the same node anywhere inside the 300 ms window is a double click. *)
Lemma mouse_double_click_within_300ms (t1 t2 : Z) (node : nat) :
  (t1 <= t2 < t1 + 300)%Z ->
  let first := MouseInteraction.click t1 node initial in
  let second := MouseInteraction.click t2 node first in
  effects first = [PerformNodeSelection node] /\
  effects second = [NodeDoubleClick node; PerformNodeSelection node] /\
  timers second = [].
Proof.
  intros Ht. rewrite mouse_first_click.
  unfold MouseInteraction.click, MouseInteraction.advance; cbn.
  unfold MouseInteraction.doubleClickTimeout.
  destruct (t1 + 300 <=? t2)%Z eqn:E; [apply Z.leb_le in E; lia|].
  unfold MouseInteraction.handleNodeClick; cbn.
  unfold MouseInteraction.doubleClickTimeout.
  replace (t2 - t1 <? 300)%Z with true by (symmetry; apply Z.ltb_lt; lia).
  rewrite Nat.eqb_refl. cbn. split; [reflexivity|]. split; reflexivity.
Qed.

Lemma mouse_double_click_within_300ms_witness :
  effects (MouseInteraction.click 1270 7 (MouseInteraction.click 1000 7 initial))
  = [NodeDoubleClick 7; PerformNodeSelection 7].
Proof.
  apply (mouse_double_click_within_300ms 1000 1270 7). lia.
Defined.

(** In both handlers a click on another node, or a click after the window,
    starts a new detection: it is never a double click. *)
Lemma d3_other_node_or_late_click_resets (t : Z) (node : nat) (h : Handler) :
  (sameNode (clickNode h) node = false \/ (lastClickTime h + 300 <= t)%Z) ->
  let h' := D3InteractionHandler.handleNodeClick t node h in
  effects h' = effects h /\ clickNode h' = Some node /\ lastClickTime h' = t.
Proof.
  intros H. unfold D3InteractionHandler.handleNodeClick.
  assert (E : ((t - lastClickTime h <? 300)%Z && sameNode (clickNode h) node) = false).
  { destruct H as [->|H]; [apply andb_false_r|].
    apply andb_false_iff. left. apply Z.ltb_ge. lia. }
  rewrite E. cbn. auto.
Qed.

End ClickFacts.
(** * Further properties of the text utilities and the parser *)

Module ParserExtras.
Import StoreFacts StringFacts ParserFacts ParseInvariants RoundTripFacts.

(** ** What a match tells about the input *)

Lemma greedy_inv p k : forall (s : jsstring) segs rest,
  greedy p k s = Some (segs, rest) ->
  exists seg segs' s',
    segs = seg :: segs' /\ forallb p seg = true /\ s = seg ++ s' /\
    k s' = Some (segs', rest).
Proof.
  assert (W : forall s segs rest,
             withSeg [] (k s) = Some (segs, rest) ->
             exists seg segs' s',
               segs = seg :: segs' /\ forallb p seg = true /\ s = seg ++ s' /\
               k s' = Some (segs', rest)).
  { intros s segs rest. destruct (k s) as [[sg r]|] eqn:E; cbn; [|discriminate].
    intros [= <- <-]. exists [], sg, s. auto. }
  induction s as [|c s IH]; intros segs rest; cbn [greedy]; [apply W|].
  destruct (p c) eqn:Hc; [|apply W].
  destruct (greedy p k s) as [[sg r]|] eqn:G; [|apply W].
  destruct (IH _ _ eq_refl) as (seg & segs' & s' & -> & Hp & -> & Hk).
  cbn. intros [= <- <-]. exists (c :: seg), segs', s'.
  split; [reflexivity|]. split; [cbn; rewrite Hc; exact Hp|]. auto.
Qed.

Lemma rmatch_inv : forall r (s : jsstring) segs rest,
  rmatch r s = Some (segs, rest) ->
  Forall2 segMatches r segs /\ s = concat segs ++ rest /\
  (In Eoi r -> rest = []).
Proof.
  induction r as [|a r IH]; intros s segs rest; cbn [rmatch].
  - intros [= <- <-]. split; [constructor|]. split; [reflexivity|]. intros [].
  - assert (W : forall seg s0, segMatches a seg -> s = seg ++ s0 ->
               (a = Eoi -> s0 = []) ->
               withSeg seg (rmatch r s0) = Some (segs, rest) ->
               Forall2 segMatches (a :: r) segs /\ s = concat segs ++ rest /\
               (In Eoi (a :: r) -> rest = [])).
    { intros seg s0 Hseg Hs Ha. destruct (rmatch r s0) as [[sg rs]|] eqn:E; cbn;
        [|discriminate].
      intros [= <- <-]. destruct (IH _ _ _ E) as (H1 & H2 & H3).
      split; [constructor; assumption|]. split.
      - cbn [concat]. rewrite <- app_assoc, <- H2. exact Hs.
      - intros [->|Hin]; [|exact (H3 Hin)].
        specialize (Ha eq_refl). subst s0. symmetry in H2.
        apply app_eq_nil in H2 as [_ H2]. exact H2. }
    destruct a as [p|p|p|p|].
    + destruct s as [|c s]; [discriminate|]. destruct (p c) eqn:Hc; [|discriminate].
      apply W; [exists c; auto | reflexivity | discriminate].
    + destruct s as [|c s]; [apply W; [left; reflexivity|reflexivity|discriminate]|].
      destruct (p c) eqn:Hc;
        [|apply W; [left; reflexivity|reflexivity|discriminate]].
      destruct (rmatch r s) as [m|] eqn:E;
        [|apply W; [left; reflexivity|reflexivity|discriminate]].
      rewrite <- E. apply W; [right; exists c; auto | reflexivity | discriminate].
    + intros H. apply greedy_inv in H as (seg & segs' & s' & -> & Hp & -> & Hk).
      destruct (IH _ _ _ Hk) as (H1 & H2 & H3).
      split; [constructor; assumption|]. split.
      * cbn [concat]. rewrite <- app_assoc, <- H2. reflexivity.
      * intros [E|Hin]; [discriminate|exact (H3 Hin)].
    + destruct s as [|c s]; [discriminate|]. destruct (p c) eqn:Hc; [|discriminate].
      destruct (greedy p (rmatch r) s) as [[sg rs]|] eqn:G; cbn; [|discriminate].
      apply greedy_inv in G as (seg & segs' & s' & -> & Hp & -> & Hk).
      cbn. intros [= <- <-]. destruct (IH _ _ _ Hk) as (H1 & H2 & H3).
      split; [constructor; [|assumption]|]. 2: split.
      * split; [discriminate|]. cbn. rewrite Hc. exact Hp.
      * cbn [concat]. rewrite <- !app_assoc, <- H2. reflexivity.
      * intros [E|Hin]; [discriminate|exact (H3 Hin)].
    + destruct s as [|c s]; [|discriminate].
      apply W; [reflexivity | reflexivity | reflexivity].
Qed.

(** The result of [replaceAnchored] is the end of its input. *)
Lemma replaceAnchored_suffix r (s : jsstring) :
  exists pre, s = pre ++ replaceAnchored r s.
Proof.
  unfold replaceAnchored. destruct (rmatch r s) as [[segs rest]|] eqn:E.
  - destruct (rmatch_inv _ _ _ _ E) as (_ & H & _). eauto.
  - exists []. reflexivity.
Qed.

(** ** [parseListItem] *)

Lemma parseListItem_inv line item :
  parseListItem line = Some item ->
  exists i mk w c,
    line = i ++ mk ++ w ++ c /\
    forallb isWhiteSpace i = true /\
    w <> [] /\ forallb isWhiteSpace w = true /\
    c <> [] /\ forallb anyChar c = true /\
    item = {| itemLevel := length i / 4; content := cleanTextContent c;
              indent := i |}.
Proof.
  unfold parseListItem.
  destruct (rmatch _ line) as [[segs rest]|] eqn:E; [|discriminate].
  destruct (rmatch_inv _ _ _ _ E) as (HF & Hs & Hrest).
  destruct segs as [|s1 [|s2 [|s3 [|s4 [|s5 [|s6 [|s7 [|s8 segs]]]]]]]];
    try discriminate.
  intros [= <-].
  apply Forall2_cons_1 in HF as [H1 HF]. apply Forall2_cons_1 in HF as [_ HF].
  apply Forall2_cons_1 in HF as [_ HF]. apply Forall2_cons_1 in HF as [_ HF].
  apply Forall2_cons_1 in HF as [[H5 H5'] HF].
  apply Forall2_cons_1 in HF as [[H6 H6'] HF].
  apply Forall2_cons_1 in HF as [H7 _]. cbn in H1, H7. subst s7.
  rewrite Hrest in Hs by (cbn; tauto).
  exists s1, (s2 ++ s3 ++ s4), s5, s6. repeat split; try assumption.
  rewrite Hs. cbn [concat]. rewrite !app_nil_r, <- !app_assoc. reflexivity.
Qed.

Lemma parseListItem_last line item :
  parseListItem line = Some item ->
  exists body c, line = body ++ [c] /\ anyChar c = true.
Proof.
  intros H. apply parseListItem_inv in H
    as (i & mk & w & c & -> & _ & _ & _ & Hne & Hany & _).
  destruct (exists_last Hne) as (c' & a & ->).
  rewrite forallb_app in Hany. apply andb_true_iff in Hany as [_ Ha].
  cbn in Ha. rewrite andb_true_r in Ha.
  exists (i ++ mk ++ w ++ c'), a. split; [|exact Ha].
  rewrite <- !app_assoc. reflexivity.
Qed.

(** [parseListItem] returns [null] for a line that ends with a line
    terminator, for instance with the carriage return that is left at the
    end of every line of a text with Windows line endings once it is
    split at the line feeds: the last character of the line is not
    matched by [.], and [$] only matches at the end of the line. *)
Theorem parseListItem_rejects_final_line_terminator (body : jsstring) (c : char) :
  isLineTerminator c = true -> parseListItem (body ++ [c]) = None.
Proof.
  intros Hc. destruct (parseListItem (body ++ [c])) as [item|] eqn:E;
    [|reflexivity].
  apply parseListItem_last in E as (b & a & Hs & Ha).
  apply app_inj_tail in Hs as [_ <-]. unfold anyChar in Ha.
  rewrite Hc in Ha. discriminate.
Qed.

Lemma parseListItem_rejects_final_line_terminator_witness :
  isLineTerminator CR = true /\ parseListItem (js "* A" ++ [CR]) = None.
Proof.
  split; [reflexivity|].
  apply (parseListItem_rejects_final_line_terminator (js "* A") CR).
  reflexivity.
Defined.

(** ** Documents with Windows line endings *)

Lemma parseLine_deadLine s l :
  lastNode s = None -> deadLine l -> parseLine s l = s.
Proof.
  intros Hlast Hd. unfold parseLine. destruct (trim l); [reflexivity|].
  destruct (isListItem l).
  - destruct Hd as [->|[body ->]]; [reflexivity|].
    destruct (parseListItem (body ++ [CR])) as [item|] eqn:E; [|reflexivity].
    apply parseListItem_last in E as (b & a & Hs & Ha).
    apply app_inj_tail in Hs as [_ <-]. discriminate.
  - rewrite Hlast. reflexivity.
Qed.

Lemma fold_deadLines lines : forall s,
  lastNode s = None -> Forall deadLine lines -> fold_left parseLine lines s = s.
Proof.
  induction lines as [|l lines IH]; intros s Hs Hl; [reflexivity|].
  inversion Hl as [|? ? H1 H2]; subst. cbn [fold_left].
  rewrite (parseLine_deadLine s l Hs H1). apply IH; assumption.
Qed.

Lemma crlf_suffix_lines lines :
  Forall (fun l => noLF l = true) lines ->
  forall pre t, crlfDocument lines = pre ++ t -> Forall deadLine (split LF t).
Proof.
  induction 1 as [|l lines Hl _ IH]; intros pre t Hdoc.
  - symmetry in Hdoc. apply app_eq_nil in Hdoc as [_ ->].
    repeat constructor.
  - unfold crlfDocument in Hdoc. cbn [map concat] in Hdoc.
    fold (crlfDocument lines) in Hdoc. rewrite <- app_assoc in Hdoc.
    cbn [app] in Hdoc. symmetry in Hdoc.
    apply app_eq_app in Hdoc as [m [[-> Hm]|[-> ->]]].
    + destruct m as [|a [|b m]].
      * cbn [app] in Hm. subst t.
        change (CR :: LF :: crlfDocument lines)
          with ([CR] ++ LF :: crlfDocument lines).
        rewrite (split_line [CR] (crlfDocument lines) eq_refl).
        constructor; [right; exists []; reflexivity|].
        apply (IH [] _ eq_refl).
      * cbn [app] in Hm. injection Hm as <- <-.
        change (LF :: crlfDocument lines) with ([] ++ LF :: crlfDocument lines).
        rewrite (split_line [] (crlfDocument lines) eq_refl).
        constructor; [left; reflexivity|]. apply (IH [] _ eq_refl).
      * cbn [app] in Hm. injection Hm as <- <- Hm. exact (IH m t Hm).
    + rewrite noLF_app in Hl. apply andb_true_iff in Hl as [_ Hm].
      change (m ++ CR :: LF :: crlfDocument lines)
        with (m ++ [CR] ++ LF :: crlfDocument lines).
      rewrite app_assoc, split_line.
      * constructor; [right; exists m; reflexivity|]. apply (IH [] _ eq_refl).
      * rewrite noLF_app, Hm. reflexivity.
Qed.

(** A text in which every line ends with a carriage return and a line
    feed is parsed to the root alone, whatever its lines hold: all its
    list items are dropped. *)
Theorem crlf_document_has_no_nodes (lines : list jsstring) (filePath : jsstring) :
  Forall (fun l => noLF l = true) lines ->
  parseMarkdownContent (crlfDocument lines) filePath = rootOnly filePath.
Proof.
  intros Hl. unfold parseMarkdownContent, parseLines.
  destruct (replaceAnchored_suffix
              (lit "#mindmap" ++ [Star isWhiteSpace; Opt (isChar 10)])
              (crlfDocument lines)) as [pre Hpre].
  rewrite fold_deadLines.
  - reflexivity.
  - reflexivity.
  - unfold documentLines. exact (crlf_suffix_lines lines Hl pre _ Hpre).
Qed.

Lemma crlf_document_has_no_nodes_witness :
  Forall (fun l => noLF l = true) [js "#mindmap"; []; js "* A"; js "    * B"] /\
  parseMarkdownContent
    (crlfDocument [js "#mindmap"; []; js "* A"; js "    * B"]) (js "doc.md")
  = rootOnly (js "doc.md").
Proof.
  assert (H : Forall (fun l => noLF l = true)
                [js "#mindmap"; []; js "* A"; js "    * B"])
    by (repeat constructor).
  split; [exact H|].
  exact (crlf_document_has_no_nodes _ (js "doc.md") H).
Defined.

(** ** Lines that [isListItem] accepts *)

Lemma marker_cases c :
  isMarker c = true -> c = 42%N \/ c = 45%N \/ c = 43%N.
Proof.
  unfold isMarker, isChar. intros H.
  apply orb_true_iff in H as [H|H]; [apply orb_true_iff in H as [H|H]|];
    apply N.eqb_eq in H; auto.
Qed.

Lemma marker_not_ws c : isMarker c = true -> isWhiteSpace c = false.
Proof. intros H. destruct (marker_cases c H) as [->|[->| ->]]; reflexivity. Qed.

Lemma digit_not_ws c : isDigit c = true -> isWhiteSpace c = false.
Proof.
  unfold isDigit, inRange. intros H. apply andb_true_iff in H as [H1 H2].
  apply N.leb_le in H1, H2. unfold isWhiteSpace, inRange.
  repeat (apply orb_false_iff; split);
    first [ apply N.eqb_neq; lia
          | apply andb_false_iff; right; apply N.leb_gt; lia
          | apply andb_false_iff; left; apply N.leb_gt; lia ].
Qed.

Lemma digit_not_marker c : isDigit c = true -> isMarker c = false.
Proof.
  intros H. destruct (isMarker c) eqn:E; [|reflexivity].
  destruct (marker_cases c E) as [->|[->| ->]]; discriminate.
Qed.

Lemma ws_not_digit c : isWhiteSpace c = true -> isDigit c = false.
Proof.
  intros H. destruct (isDigit c) eqn:E; [|reflexivity].
  rewrite (digit_not_ws c E) in H. discriminate.
Qed.

Lemma ws_not_dot c : isWhiteSpace c = true -> isDot c = false.
Proof.
  intros H. destruct (isDot c) eqn:E; [|reflexivity].
  unfold isDot, isChar in E. apply N.eqb_eq in E. subst c. discriminate.
Qed.

Lemma blank_ws c : isBlank c = true -> isWhiteSpace c = true.
Proof.
  unfold isBlank, isChar. intros H.
  apply orb_true_iff in H as [H|H]; apply N.eqb_eq in H; subst c; reflexivity.
Qed.

Lemma forallb_blank_ws (B : jsstring) :
  forallb isBlank B = true -> forallb isWhiteSpace B = true.
Proof.
  rewrite !forallb_forall. intros H x Hx. apply blank_ws, H, Hx.
Qed.

Lemma takeWhile_stop p (a : jsstring) c b :
  forallb p a = true -> p c = false -> takeWhile p (a ++ c :: b) = a.
Proof.
  intros Ha Hc. rewrite takeWhile_app by exact Ha. cbn. rewrite Hc.
  apply app_nil_r.
Qed.

Lemma dropWhile_stop p (a : jsstring) c b :
  forallb p a = true -> p c = false -> dropWhile p (a ++ c :: b) = c :: b.
Proof.
  intros Ha Hc. rewrite dropWhile_app by exact Ha. cbn. rewrite Hc. reflexivity.
Qed.

(** What [isListItem] accepts: blanks, a marker, white space and a
    character that is not white space. *)
Lemma isListItem_inv line :
  isListItem line = true ->
  exists B mk W c R,
    line = B ++ mk ++ W ++ c :: R /\
    forallb isBlank B = true /\ listMarker mk /\
    W <> [] /\ forallb isWhiteSpace W = true /\ isWhiteSpace c = false.
Proof.
  unfold isListItem. intros H. apply orb_true_iff in H as [H|H];
    apply test_iff in H as [[segs rest] H];
    destruct (rmatch_inv _ _ _ _ H) as (HF & Hs & _).
  - destruct segs as [|B [|mk [|W [|c4 [|x segs]]]]];
      try (exfalso; repeat (apply Forall2_cons_1 in HF as [_ HF]);
           inversion HF; fail);
      try (exfalso; inversion HF; fail);
      try (exfalso; apply Forall2_cons_1 in HF as [_ HF]; inversion HF; fail).
    apply Forall2_cons_1 in HF as [HB HF].
    apply Forall2_cons_1 in HF as [(m & -> & Hm) HF].
    apply Forall2_cons_1 in HF as [[HW HW'] HF].
    apply Forall2_cons_1 in HF as [(c & -> & Hc) _].
    exists B, [m], W, c, rest. split.
    { rewrite Hs. cbn [concat]. rewrite <- ?app_assoc. cbn [app]. reflexivity. }
    split; [exact HB|]. split; [left; eauto|]. split; [exact HW|].
    split; [exact HW'|]. apply negb_true_iff. exact Hc.
  - destruct segs as [|B [|D [|dot [|W [|c5 [|x segs]]]]]];
      try (exfalso; repeat (apply Forall2_cons_1 in HF as [_ HF]);
           inversion HF; fail);
      try (exfalso; inversion HF; fail);
      try (exfalso; apply Forall2_cons_1 in HF as [_ HF]; inversion HF; fail).
    apply Forall2_cons_1 in HF as [HB HF].
    apply Forall2_cons_1 in HF as [[HD HD'] HF].
    apply Forall2_cons_1 in HF as [(d & -> & Hd) HF].
    apply Forall2_cons_1 in HF as [[HW HW'] HF].
    apply Forall2_cons_1 in HF as [(c & -> & Hc) _].
    unfold isDot, isChar in Hd. apply N.eqb_eq in Hd. subst d.
    exists B, (D ++ [46%N]), W, c, rest. split.
    { rewrite Hs. cbn [concat]. rewrite <- ?app_assoc. cbn [app]. reflexivity. }
    split; [exact HB|]. split; [right; eauto|]. split; [exact HW|].
    split; [exact HW'|]. apply negb_true_iff. exact Hc.
Qed.

Lemma rmatch_Plus p r c (s : jsstring) :
  p c = true ->
  rmatch (Plus p :: r) (c :: s) = growSeg c (greedy p (rmatch r) s).
Proof. intros H. cbn [rmatch]. rewrite H. reflexivity. Qed.

Lemma rmatch_Opt_no p r c (s : jsstring) :
  p c = false -> rmatch (Opt p :: r) (c :: s) = withSeg [] (rmatch r (c :: s)).
Proof. intros H. cbn [rmatch]. rewrite H. reflexivity. Qed.

Lemma rmatch_Opt_yes p r c (s : jsstring) m :
  p c = true -> rmatch r s = Some m ->
  rmatch (Opt p :: r) (c :: s) = withSeg [c] (Some m).
Proof. intros H E. cbn [rmatch]. rewrite H, E. reflexivity. Qed.

Lemma greedy_stop p k c (s : jsstring) :
  p c = false -> greedy p k (c :: s) = withSeg [] (k (c :: s)).
Proof. intros H. cbn [greedy]. rewrite H. reflexivity. Qed.

Lemma rmatch_content (W : jsstring) c R :
  W <> [] -> forallb isWhiteSpace W = true ->
  isWhiteSpace c = false -> forallb anyChar (c :: R) = true ->
  rmatch [Plus isWhiteSpace; Plus anyChar; Eoi] (W ++ c :: R)
  = Some ([W; c :: R; []], []).
Proof.
  intros HW HWs Hc Hany. destruct W as [|w W]; [contradiction|].
  cbn [forallb] in HWs, Hany.
  apply andb_true_iff in HWs as [Hw HWs]. apply andb_true_iff in Hany as [Hca HR].
  cbn [app]. rewrite rmatch_Plus by exact Hw.
  rewrite (greedy_longest isWhiteSpace (rmatch [Plus anyChar; Eoi])
             (W ++ c :: R) [c :: R; []] []).
  - rewrite takeWhile_stop by assumption. reflexivity.
  - rewrite dropWhile_stop by assumption. rewrite rmatch_Plus by exact Hca.
    rewrite (greedy_longest anyChar (rmatch [Eoi]) R [[]] []).
    + rewrite takeWhile_all by exact HR. reflexivity.
    + rewrite dropWhile_all by exact HR. reflexivity.
Qed.

Lemma rmatch_marker (mk W : jsstring) c R :
  listMarker mk ->
  W <> [] -> forallb isWhiteSpace W = true ->
  isWhiteSpace c = false -> forallb anyChar (c :: R) = true ->
  exists s2 s3 s4,
    rmatch [Opt isMarker; Star isDigit; Opt isDot;
            Plus isWhiteSpace; Plus anyChar; Eoi] (mk ++ W ++ c :: R)
    = Some ([s2; s3; s4; W; c :: R; []], []).
Proof.
  intros Hmk HW HWs Hc Hany.
  pose proof (rmatch_content W c R HW HWs Hc Hany) as Hrest.
  destruct W as [|w W]; [contradiction|].
  pose proof HWs as HWs'. cbn [forallb] in HWs'.
  apply andb_true_iff in HWs' as [Hw _].
  assert (Hdigits : rmatch [Star isDigit; Opt isDot;
                            Plus isWhiteSpace; Plus anyChar; Eoi]
                           ((w :: W) ++ c :: R)
                    = Some ([[]; []; w :: W; c :: R; []], [])).
  { rewrite rmatch_Star. cbn [app].
    rewrite greedy_stop by (apply ws_not_digit, Hw).
    rewrite rmatch_Opt_no by (apply ws_not_dot, Hw).
    change (w :: W ++ c :: R) with ((w :: W) ++ c :: R).
    rewrite Hrest. reflexivity. }
  destruct Hmk as [(m & -> & Hm)|(ds & -> & Hne & Hds)].
  - exists [m], [], [].
    change ([m] ++ (w :: W) ++ c :: R) with (m :: ((w :: W) ++ c :: R)).
    rewrite (rmatch_Opt_yes _ _ m _ _ Hm Hdigits). reflexivity.
  - exists [], ds, [46%N]. destruct ds as [|d ds]; [contradiction|].
    pose proof Hds as Hds'. cbn [forallb] in Hds'.
    apply andb_true_iff in Hds' as [Hd _].
    rewrite <- !app_assoc.
    change ((d :: ds) ++ [46%N] ++ (w :: W) ++ c :: R)
      with (d :: (ds ++ 46%N :: (w :: W) ++ c :: R)).
    rewrite rmatch_Opt_no by (apply digit_not_marker, Hd).
    rewrite rmatch_Star.
    change (d :: (ds ++ 46%N :: (w :: W) ++ c :: R))
      with ((d :: ds) ++ 46%N :: (w :: W) ++ c :: R).
    rewrite (greedy_longest isDigit
               (rmatch [Opt isDot; Plus isWhiteSpace; Plus anyChar; Eoi])
               ((d :: ds) ++ 46%N :: (w :: W) ++ c :: R)
               [[46%N]; w :: W; c :: R; []] []).
    + rewrite takeWhile_stop by (exact Hds || reflexivity). reflexivity.
    + rewrite dropWhile_stop by (exact Hds || reflexivity).
      rewrite (rmatch_Opt_yes _ _ 46%N _ _ eq_refl Hrest). reflexivity.
Qed.

(** Every line that [isListItem] accepts and that holds no line
    terminator is parsed by [parseListItem]: the indent is the run of
    blanks before the marker, the level is a quarter of its length,
    rounded down (a tab counts as one character), and the content is the
    text after the marker and the white space that follows it, cleaned by
    [cleanTextContent]. *)
Theorem accepted_line_is_parsed (line : jsstring) :
  isListItem line = true -> forallb anyChar line = true ->
  exists B mk W c R,
    line = B ++ mk ++ W ++ c :: R /\
    forallb isBlank B = true /\ listMarker mk /\
    W <> [] /\ forallb isWhiteSpace W = true /\ isWhiteSpace c = false /\
    parseListItem line
    = Some {| itemLevel := length B / 4;
              content := cleanTextContent (c :: R);
              indent := B |}.
Proof.
  intros Hitem Hany.
  destruct (isListItem_inv line Hitem)
    as (B & mk & W & c & R & -> & HB & Hmk & HW & HWs & Hc).
  exists B, mk, W, c, R. repeat (split; [assumption|]).
  split; [reflexivity|]. repeat (split; [assumption|]).
  assert (HcR : forallb anyChar (c :: R) = true).
  { rewrite !forallb_app in Hany.
    apply andb_true_iff in Hany as [_ Hany]. apply andb_true_iff in Hany as [_ Hany].
    apply andb_true_iff in Hany as [_ Hany]. exact Hany. }
  destruct (rmatch_marker mk W c R Hmk HW HWs Hc HcR) as (s2 & s3 & s4 & Hrest).
  assert (Hhead : exists m rest, mk ++ W ++ c :: R = m :: rest /\
                                 isWhiteSpace m = false).
  { destruct Hmk as [(m & -> & Hm)|(ds & -> & Hne & Hds)].
    - exists m, (W ++ c :: R). split; [reflexivity|]. apply marker_not_ws, Hm.
    - destruct ds as [|d ds]; [contradiction|]. cbn [forallb] in Hds.
      apply andb_true_iff in Hds as [Hd _].
      eexists d, _. split; [reflexivity|]. apply digit_not_ws, Hd. }
  destruct Hhead as (m & rest & Hmr & Hm).
  unfold parseListItem. rewrite rmatch_Star.
  rewrite (greedy_longest isWhiteSpace _ (B ++ mk ++ W ++ c :: R)
             [s2; s3; s4; W; c :: R; []] []).
  - rewrite Hmr, takeWhile_stop by (apply forallb_blank_ws, HB || exact Hm).
    reflexivity.
  - rewrite Hmr, dropWhile_stop by (apply forallb_blank_ws, HB || exact Hm).
    rewrite <- Hmr. exact Hrest.
Qed.

Lemma accepted_line_is_parsed_witness :
  isListItem (js "    - B [k:v]") = true /\
  forallb anyChar (js "    - B [k:v]") = true /\
  exists B mk W c R,
    js "    - B [k:v]" = B ++ mk ++ W ++ c :: R /\
    forallb isBlank B = true /\ listMarker mk /\
    W <> [] /\ forallb isWhiteSpace W = true /\ isWhiteSpace c = false /\
    parseListItem (js "    - B [k:v]")
    = Some {| itemLevel := length B / 4;
              content := cleanTextContent (c :: R);
              indent := B |}.
Proof.
  assert (H1 : isListItem (js "    - B [k:v]") = true) by (vm_compute; reflexivity).
  assert (H2 : forallb anyChar (js "    - B [k:v]") = true)
    by (vm_compute; reflexivity).
  split; [exact H1|]. split; [exact H2|].
  exact (accepted_line_is_parsed (js "    - B [k:v]") H1 H2).
Defined.

(** ** The nodes and the list items *)

Lemma nodeLevels_alter (f : MindMapNode -> MindMapNode) (st : Store) : forall i,
  (forall n, level (data (f n)) = level (data n)) ->
  nodeLevels (alter f i st) = nodeLevels st.
Proof.
  intros i Hf. revert i. induction st as [|n st IH]; intros [|i]; cbn;
    try reflexivity.
  - rewrite Hf. reflexivity.
  - unfold nodeLevels in IH. rewrite IH. reflexivity.
Qed.

Lemma levels_lines lines : forall s,
  nodeLevels (store (fold_left parseLine lines s))
  = nodeLevels (store s) ++ map (fun l => l + 1)%nat (itemLevels lines) /\
  parsedMaxLevel (fold_left parseLine lines s)
  = Nat.max (parsedMaxLevel s)
            (list_max (map (fun l => l + 1)%nat (itemLevels lines))).
Proof.
  induction lines as [|line lines IH]; intros s.
  - cbn. rewrite app_nil_r, Nat.max_0_r. auto.
  - cbn [fold_left]. unfold itemLevels. cbn [omap list_omap].
    fold (itemLevels lines).
    destruct (IH (parseLine s line)) as [IH1 IH2]. rewrite IH1, IH2.
    destruct (acceptedItem line) as [item|] eqn:E; cbn [fmap option_fmap option_map].
    + rewrite (parseLine_item s line item E). cbv zeta.
      cbn [store parsedMaxLevel map].
      change (list_max ((itemLevel item + 1) :: ?l))
        with (Nat.max (itemLevel item + 1) (list_max l)).
      split; [|lia].
      unfold nodeLevels at 1. rewrite map_app. cbn [map data level newNodeData].
      rewrite <- app_assoc. cbn [app]. f_equal.
      destruct (last _); [|reflexivity].
      apply nodeLevels_alter. reflexivity.
    + destruct (parseLine_continuation s line E) as [->|(ln & _ & _ & ->)];
        [auto|]. cbn [store parsedMaxLevel]. split; [|reflexivity].
      rewrite nodeLevels_alter; [reflexivity|].
      intros n. reflexivity.
Qed.

(** [parseMarkdownContent] creates, after the root, exactly one node for
    every list item it accepts, in the order of the document; the level of
    a node is a quarter of the indent of its item, rounded down, plus 1,
    whatever the item before it was; [maxLevel] is the largest level of a
    node and [allNodes] lists every node. *)
Theorem nodes_follow_the_items (content filePath : jsstring) :
  let st := fst (parseMarkdownContent content filePath) in
  let d := snd (parseMarkdownContent content filePath) in
  nodeLevels st
  = 0%nat :: map (fun l => l + 1)%nat (itemLevels (documentLines content)) /\
  length (allNodes d) = S (length (itemLevels (documentLines content))) /\
  maxLevel d = list_max (nodeLevels st).
Proof.
  cbv zeta. unfold parseMarkdownContent, parseLines. cbn [fst snd allNodes maxLevel].
  destruct (levels_lines (documentLines content) (initialParseState filePath))
    as [H1 H2].
  assert (Hlen : forall st : Store, length st = length (nodeLevels st))
    by (intros st; unfold nodeLevels; rewrite length_map; reflexivity).
  rewrite length_seq, Hlen, H1, H2. cbn [initialParseState store parsedMaxLevel].
  cbn [nodeLevels map app data newNodeData level length].
  rewrite length_map. split; [reflexivity|]. split; [reflexivity|].
  reflexivity.
Qed.

(** ** [getFileNameWithoutExtension] *)

Lemma greedy_no_slash (b : jsstring) :
  forallb (fun c => negb (isSlash c)) b = true ->
  greedy anyChar (rmatch [One isSlash]) b = None.
Proof.
  induction b as [|c b IH]; intros H; [reflexivity|].
  cbn [forallb] in H. apply andb_true_iff in H as [Hc Hb].
  apply negb_true_iff in Hc. cbn [greedy]. rewrite (IH Hb).
  cbn [rmatch]. rewrite Hc. destruct (anyChar c); reflexivity.
Qed.

Lemma rmatch_last_slash (a : jsstring) sep (b : jsstring) :
  forallb anyChar a = true -> isSlash sep = true ->
  forallb (fun c => negb (isSlash c)) b = true ->
  rmatch [Star anyChar; One isSlash] (a ++ sep :: b) = Some ([a; [sep]], b).
Proof.
  intros Ha Hsep Hb. rewrite rmatch_Star.
  assert (Hany : anyChar sep = true).
  { unfold isSlash, isChar in Hsep.
    apply orb_true_iff in Hsep as [H|H]; apply N.eqb_eq in H; subst sep;
      reflexivity. }
  induction a as [|c a IH].
  - cbn [app greedy]. rewrite Hany, (greedy_no_slash b Hb).
    cbn [rmatch]. rewrite Hsep. reflexivity.
  - cbn [forallb] in Ha. apply andb_true_iff in Ha as [Hc Ha].
    cbn [app greedy]. rewrite Hc, (IH Ha). reflexivity.
Qed.

Lemma replaceFirst_md (name : jsstring) :
  replaceFirst (lit ".md" ++ [Eoi]) (name ++ js ".md") = name.
Proof.
  induction name as [|c name IH]; [reflexivity|].
  cbn [app replaceFirst].
  destruct (rmatch (lit ".md" ++ [Eoi]) (c :: name ++ js ".md"))
    as [[segs rest]|] eqn:E.
  - exfalso. destruct (rmatch_inv _ _ _ _ E) as (HF & Hs & Hrest).
    rewrite Hrest in Hs by (cbn; tauto).
    destruct segs as [|s1 [|s2 [|s3 [|s4 [|s5 segs]]]]];
      try (repeat (apply Forall2_cons_1 in HF as [_ HF]); inversion HF; fail).
    apply Forall2_cons_1 in HF as [(c1 & -> & _) HF].
    apply Forall2_cons_1 in HF as [(c2 & -> & _) HF].
    apply Forall2_cons_1 in HF as [(c3 & -> & _) HF].
    apply Forall2_cons_1 in HF as [H4 _]. cbn in H4. subst s4.
    apply (f_equal (@length char)) in Hs. cbn in Hs.
    rewrite length_app in Hs. cbn in Hs. lia.
  - rewrite IH. reflexivity.
Qed.

(** The file name of a path: the directories up to the last slash or
    backslash and the extension [.md] are removed. *)
Theorem file_name_of_path (dir : jsstring) (sep : char) (name : jsstring) :
  forallb anyChar dir = true -> isSlash sep = true ->
  forallb (fun c => negb (isSlash c)) name = true ->
  getFileNameWithoutExtension (dir ++ sep :: name ++ js ".md") = name /\
  getFileNameWithoutExtension (name ++ js ".md") = name.
Proof.
  intros Hdir Hsep Hname.
  assert (Hb : forallb (fun c => negb (isSlash c)) (name ++ js ".md") = true).
  { rewrite forallb_app, Hname. reflexivity. }
  assert (Hne : forall p : jsstring, p <> [] ->
            getFileNameWithoutExtension p
            = replaceFirst (lit ".md" ++ [Eoi])
                (replaceAnchored [Star anyChar; One isSlash] p)).
  { intros [|c p] Hp; [contradiction|reflexivity]. }
  split.
  - rewrite Hne by (destruct dir; discriminate). unfold replaceAnchored.
    rewrite (rmatch_last_slash dir sep _ Hdir Hsep Hb). apply replaceFirst_md.
  - rewrite Hne by (destruct name; discriminate). unfold replaceAnchored.
    rewrite rmatch_Star, (greedy_no_slash _ Hb). apply replaceFirst_md.
Qed.

Lemma file_name_of_path_witness :
  forallb anyChar (js "notes/maps") = true /\ isSlash 47%N = true /\
  forallb (fun c => negb (isSlash c)) (js "plan") = true /\
  getFileNameWithoutExtension (js "notes/maps" ++ 47%N :: js "plan" ++ js ".md")
  = js "plan" /\
  getFileNameWithoutExtension (js "plan" ++ js ".md") = js "plan".
Proof.
  split; [reflexivity|]. split; [reflexivity|]. split; [reflexivity|].
  apply (file_name_of_path (js "notes/maps") 47%N (js "plan")); reflexivity.
Defined.

(** ** [cleanTextContent] *)

Lemma replaceAll_no_bracket (s : jsstring) :
  forallb (fun c => negb (isChar 91 c)) s = true ->
  replaceAllFrom attributeRegex 0 s = s.
Proof.
  induction s as [|c s IH]; intros H; [reflexivity|].
  cbn [forallb] in H. apply andb_true_iff in H as [Hc Hs].
  apply negb_true_iff in Hc. cbn [replaceAllFrom].
  assert (E : rmatch attributeRegex (c :: s) = None).
  { unfold attributeRegex. cbn [rmatch]. rewrite Hc. reflexivity. }
  rewrite E, (IH Hs). reflexivity.
Qed.

(** A text without an opening bracket is only trimmed by
    [cleanTextContent]: nothing inside it is removed. *)
Theorem cleanTextContent_without_bracket (t : jsstring) :
  forallb (fun c => negb (isChar 91 c)) t = true ->
  cleanTextContent t = trim t.
Proof.
  intros H. unfold cleanTextContent. destruct t as [|c t]; [reflexivity|].
  unfold replaceAll. rewrite (replaceAll_no_bracket _ H). reflexivity.
Qed.

Lemma cleanTextContent_without_bracket_witness :
  forallb (fun c => negb (isChar 91 c)) (js " a: b] ") = true /\
  cleanTextContent (js " a: b] ") = trim (js " a: b] ").
Proof.
  split; [reflexivity|].
  apply (cleanTextContent_without_bracket (js " a: b] ")). reflexivity.
Defined.

(** ** [validateNodeText] and [NodeEditor.validateText] *)

Lemma noInvalidCharacter_existsb text chars :
  noInvalidCharacter text chars
  = negb (existsb (fun char => includes text char) chars).
Proof.
  induction chars as [|c chars IH]; [reflexivity|]. cbn.
  destruct (includes text c); [reflexivity|exact IH].
Qed.

(** The validator of the utilities ([validateNodeText], used by
    [D3InteractionHandler]) and the one of the inline editor
    ([NodeEditor.validateText]) accept the same texts. *)
Theorem validators_agree (MAX : nat) (INVALID : list jsstring) (text : jsstring) :
  validateNodeText MAX INVALID text = NodeEditor.validateText MAX INVALID text.
Proof.
  unfold validateNodeText, NodeEditor.validateText.
  destruct (_ || _); [reflexivity|]. destruct (_ <? _)%nat; [reflexivity|].
  rewrite noInvalidCharacter_existsb. destruct (existsb _ _); reflexivity.
Qed.

(** ** Files written by the plugin *)

Lemma dropWhile_app_keep p (x y : jsstring) :
  exists x', dropWhile p (x ++ y) = x' ++ y \/
             (dropWhile p (x ++ y) = dropWhile p y /\ x' = []).
Proof.
  induction x as [|c x IH]; [exists []; right; auto|].
  cbn [app dropWhile]. destruct (p c); [exact IH|].
  exists (c :: x). left. reflexivity.
Qed.

Lemma trimEnd_keeps (a : jsstring) c (b : jsstring) :
  isWhiteSpace c = false ->
  exists b', trimEnd ((a ++ [c]) ++ b) = (a ++ [c]) ++ b'.
Proof.
  intros Hc. unfold trimEnd. rewrite rev_app_distr.
  destruct (dropWhile_app_keep isWhiteSpace (rev b) (rev (a ++ [c])))
    as [x' [E|[E _]]]; rewrite E.
  - rewrite rev_app_distr, rev_involutive. eauto.
  - rewrite rev_app_distr. cbn [rev app dropWhile]. rewrite Hc.
    exists []. change (c :: rev a) with (rev [c] ++ rev a).
    rewrite <- rev_app_distr, rev_involutive, app_nil_r. reflexivity.
Qed.

Lemma startsWith_app (p s : jsstring) : startsWith (p ++ s) p = true.
Proof.
  induction p as [|c p IH]; [destruct s; reflexivity|].
  cbn. rewrite N.eqb_refl. exact IH.
Qed.

Lemma isMindMapFile_identifier ext (rest : jsstring) :
  isMindMapFile ext (MINDMAP_IDENTIFIER ++ rest) ext = true.
Proof.
  unfold isMindMapFile. rewrite bool_decide_eq_true_2 by reflexivity.
  cbn [andb].
  change (MINDMAP_IDENTIFIER ++ rest)
    with (35%N :: ((js "mindma" ++ [112%N]) ++ rest)).
  rewrite trim_head_nonspace by reflexivity.
  change (35%N :: ((js "mindma" ++ [112%N]) ++ rest))
    with (((js "#mindma") ++ [112%N]) ++ rest).
  destruct (trimEnd_keeps (js "#mindma") 112%N rest eq_refl) as [b' ->].
  apply (startsWith_app MINDMAP_IDENTIFIER b').
Qed.

(** Every document that [generateMarkdownFromNodes] writes is recognised
    by [isMindMapFile] for a file with the Markdown extension. *)
Theorem written_document_is_mind_map_file (ext : jsstring) (T : Tree) :
  isMindMapFile ext (generateMarkdownFromNodes T) ext = true.
Proof.
  unfold generateMarkdownFromNodes. rewrite <- app_assoc.
  apply isMindMapFile_identifier.
Qed.

(** The file that [createMindMapFile] writes for a title without line
    terminator that starts with a character other than white space is
    recognised as a mind map, and it is parsed to the root and one node of
    level 1 that carries the title, cleaned by [cleanTextContent]. *)
Theorem created_file_is_parsed (ext title filePath : jsstring) (c : char)
    (r : jsstring) :
  title = c :: r -> isWhiteSpace c = false -> forallb anyChar title = true ->
  isMindMapFile ext (createMindMapFileContent title) ext = true /\
  parsedTree (createMindMapFileContent title) filePath
  = Some (TNode (newNodeData (getFileNameWithoutExtension filePath) 0)
                [TNode (newNodeData (cleanTextContent title) 1) []]).
Proof.
  intros -> Hc Hany. split.
  - unfold createMindMapFileContent. apply (isMindMapFile_identifier ext).
  - destruct (item_line 0 c r Hc Hany) as (Ht & Hi & Hp). cbn [repeat app] in *.
    set (line := js "*" ++ js " " ++ c :: r) in *.
    assert (Hacc : acceptedItem line
                   = Some {| itemLevel := 0; content := cleanTextContent (c :: r);
                             indent := [] |}).
    { unfold acceptedItem. destruct (trim line); [contradiction|].
      rewrite Hi. exact Hp. }
    assert (Hlines : documentLines (createMindMapFileContent (c :: r))
                     = [line; []]).
    { unfold documentLines, createMindMapFileContent.
      change (js "#mindmap" ++ [LF; LF] ++ js "* " ++ (c :: r) ++ [LF])
        with ((MINDMAP_IDENTIFIER ++ [LF; LF]) ++ (line ++ [LF])).
      rewrite documentLines_body by reflexivity.
      rewrite split_line; [reflexivity|].
      unfold line. change (js "*" ++ js " " ++ c :: r) with (42%N :: 32%N :: c :: r).
      apply (anyChar_noLF (42%N :: 32%N :: c :: r)). cbn [forallb].
      cbn [forallb] in Hany. rewrite Hany. reflexivity. }
    unfold parsedTree, parseMarkdownContent, parseLines. rewrite Hlines.
    cbn [fold_left]. rewrite (parseLine_item _ line _ Hacc).
    reflexivity.
Qed.

Lemma created_file_is_parsed_witness :
  js "Plan" = 80%N :: js "lan" /\ isWhiteSpace 80%N = false /\
  forallb anyChar (js "Plan") = true /\
  isMindMapFile (js "md") (createMindMapFileContent (js "Plan")) (js "md") = true /\
  parsedTree (createMindMapFileContent (js "Plan")) (js "Plan.md")
  = Some (TNode (newNodeData (getFileNameWithoutExtension (js "Plan.md")) 0)
                [TNode (newNodeData (cleanTextContent (js "Plan")) 1) []]).
Proof.
  split; [reflexivity|]. split; [reflexivity|]. split; [reflexivity|].
  apply (created_file_is_parsed (js "md") (js "Plan") (js "Plan.md") 80%N (js "lan"));
    reflexivity.
Defined.

End ParserExtras.
(** * Properties of the node relationship utilities *)

Module TreeUtilsFacts.
Import StoreFacts StringFacts ParserFacts ParseInvariants.

Lemma preorder_head t : preorder t = treeData t :: tl (preorder t).
Proof. destruct t. reflexivity. Qed.

Lemma length_preorder : forall t, length (preorder t) = size t.
Proof.
  induction t as [d kids IH] using Tree_forall_ind. cbn [preorder size length].
  f_equal. induction IH as [|k kids Hk _ IHk]; [reflexivity|].
  cbn [flat_map map]. rewrite length_app, Hk, IHk. reflexivity.
Qed.

(** [getNodeDescendants] lists every node below the given one, the node
    itself left out, parents before their children and siblings in the
    order of [children]: it reads the subtree in pre-order.  Its result
    has one entry less than the subtree has nodes. *)
Theorem getNodeDescendants_preorder : forall t fuel (st : Store) i,
  represents st t i -> (height t <= fuel)%nat ->
  exists ids,
    getNodeDescendants fuel st i = Some ids /\
    Forall2 (carries st) ids (tl (preorder t)) /\
    length ids = (size t - 1)%nat.
Proof.
  assert (Hmain : forall t fuel (st : Store) i,
            represents st t i -> (height t <= fuel)%nat ->
            exists ids, getNodeDescendants fuel st i = Some ids /\
                        Forall2 (carries st) ids (tl (preorder t))).
  { induction t as [d kids IH] using Tree_forall_ind. intros fuel st i Hrep Hfuel.
    destruct fuel as [|fuel]; [cbn in Hfuel; lia|].
    apply represents_unfold in Hrep as (n & Hn & Hd & Hk).
    cbn [height] in Hfuel. apply le_S_n, list_max_le, Forall_map in Hfuel.
    cbn [getNodeDescendants]. rewrite Hn. cbn [preorder tl].
    clear Hn. revert Hk. generalize (children n). 
    induction IH as [|k kids Hk' _ IHkids]; intros cs H; inversion H; subst.
    - exists []. split; [reflexivity|constructor].
    - inversion Hfuel; subst.
      match goal with
      | Hr : represents st k ?c, Hh : (height k <= fuel)%nat |- _ =>
          destruct (Hk' fuel st c Hr Hh) as (sub & Hsub & Fsub)
      end.
      match goal with
      | Hf : Forall2 (represents st) kids ?cs' |- _ =>
          destruct (IHkids ltac:(assumption) cs' Hf) as (rest & Hrest & Frest)
      end.
      rewrite Hsub, Hrest. eexists. split; [reflexivity|].
      cbn [flat_map]. rewrite (preorder_head k). cbn [app].
      constructor.
      + match goal with
        | Hr : represents st k ?c |- _ =>
            destruct k as [dk kk]; apply represents_unfold in Hr as (nk & ? & ? & _)
        end.
        exists nk. auto.
      + apply Forall2_app; assumption. }
  intros t fuel st i Hrep Hfuel.
  destruct (Hmain t fuel st i Hrep Hfuel) as (ids & Hids & HF).
  exists ids. split; [exact Hids|]. split; [exact HF|].
  rewrite (Forall2_length _ _ _ HF). 
  pose proof (length_preorder t) as Hl. rewrite (preorder_head t) in Hl.
  cbn [length] in Hl. lia.
Qed.

Lemma getNodeDescendants_preorder_witness :
  represents sampleStore sampleTree 0 /\ (height sampleTree <= 10)%nat /\
  exists ids,
    getNodeDescendants 10 sampleStore 0 = Some ids /\
    Forall2 (carries sampleStore) ids (tl (preorder sampleTree)) /\
    length ids = (size sampleTree - 1)%nat.
Proof.
  assert (H1 : represents sampleStore sampleTree 0)
    by (apply (treeOf_sound 10); vm_compute; reflexivity).
  assert (H2 : (height sampleTree <= 10)%nat) by (vm_compute; lia).
  split; [exact H1|]. split; [exact H2|].
  exact (getNodeDescendants_preorder sampleTree 10 sampleStore 0 H1 H2).
Defined.

Lemma existsb_eqb_elem (c : nat) cs : existsb (Nat.eqb c) cs = true <-> c ∈ cs.
Proof.
  rewrite existsb_exists, list_elem_of_In. split.
  - intros (x & Hx & E). apply Nat.eqb_eq in E. subst x. exact Hx.
  - intros H. exists c. split; [exact H|apply Nat.eqb_refl].
Qed.

(** [isNodeDescendant parent child] is true exactly when [child] is one
    of the nodes that [getNodeDescendants parent] returns. *)
Theorem isNodeDescendant_iff_listed : forall t fuel (st : Store) i (c : nat),
  represents st t i -> (height t <= fuel)%nat ->
  exists ids,
    getNodeDescendants fuel st i = Some ids /\
    isNodeDescendant fuel st i c = Some (bool_decide (c ∈ ids)).
Proof.
  induction t as [d kids IH] using Tree_forall_ind. intros fuel st i c Hrep Hfuel.
  destruct fuel as [|fuel]; [cbn in Hfuel; lia|].
  apply represents_unfold in Hrep as (n & Hn & Hd & Hk).
  cbn [height] in Hfuel. apply le_S_n, list_max_le, Forall_map in Hfuel.
  cbn [getNodeDescendants isNodeDescendant]. rewrite Hn. clear Hn.
  set (dloop := fix loop (cs : list nat) : option (list nat) :=
         match cs with
         | [] => Some []
         | child :: cs' =>
             match getNodeDescendants fuel st child, loop cs' with
             | Some sub, Some rest => Some (child :: sub ++ rest)
             | _, _ => None
             end
         end).
  set (iloop := fix loop (cs : list nat) : option bool :=
         match cs with
         | [] => Some false
         | grandChild :: cs' =>
             match isNodeDescendant fuel st grandChild c with
             | Some true => Some true
             | Some false => loop cs'
             | None => None
             end
         end).
  assert (H : exists ids b,
            dloop (children n) = Some ids /\ iloop (children n) = Some b /\
            (b = true -> c ∈ ids) /\
            (c ∈ ids -> b = true \/ c ∈ children n) /\
            (c ∈ children n -> c ∈ ids)).
  { revert Hk. generalize (children n).
    induction IH as [|k kids Hk' _ IHkids]; intros cs H; inversion H; subst.
    - exists [], false. cbn. repeat split; try discriminate; auto;
        intros Hc; inversion Hc.
    - inversion Hfuel; subst.
      match goal with
      | Hr : represents st k ?c0, Hh : (height k <= fuel)%nat |- _ =>
          destruct (Hk' fuel st c0 c Hr Hh) as (sub & Hsub & Isub);
          rename c0 into child
      end.
      match goal with
      | Hf : Forall2 (represents st) kids ?cs' |- _ =>
          destruct (IHkids ltac:(assumption) cs' Hf)
            as (rest & b' & Hrest & Irest & B1 & B2 & B3);
          rename cs' into others
      end.
      cbn [dloop iloop]. fold dloop. fold iloop. rewrite Hsub, Hrest, Isub.
      destruct (decide (c ∈ sub)) as [Hin|Hnin].
      + rewrite bool_decide_eq_true_2 by exact Hin.
        exists (child :: sub ++ rest), true. repeat split; auto.
        * intros _. apply elem_of_cons. right. apply elem_of_app. auto.
        * intros Hc. apply elem_of_cons in Hc as [->|Hc].
          -- apply elem_of_cons. auto.
          -- apply elem_of_cons. right. apply elem_of_app. right. apply B3, Hc.
      + rewrite bool_decide_eq_false_2 by exact Hnin.
        exists (child :: sub ++ rest), b'. repeat split; auto.
        * intros Hb. apply elem_of_cons. right. apply elem_of_app. right.
          apply B1, Hb.
        * intros Hc. apply elem_of_cons in Hc as [->|Hc];
            [right; apply elem_of_cons; auto|].
          apply elem_of_app in Hc as [Hc|Hc]; [contradiction|].
          destruct (B2 Hc) as [Hb|Hb]; [auto|].
          right. apply elem_of_cons. auto.
        * intros Hc. apply elem_of_cons in Hc as [->|Hc].
          -- apply elem_of_cons. auto.
          -- apply elem_of_cons. right. apply elem_of_app. right. apply B3, Hc. }
  destruct H as (ids & b & Hd' & Hi & B1 & B2 & B3).
  exists ids. split; [exact Hd'|].
  destruct (existsb (Nat.eqb c) (children n)) eqn:E.
  - apply existsb_eqb_elem in E.
    rewrite bool_decide_eq_true_2 by (apply B3, E). reflexivity.
  - rewrite Hi. f_equal. destruct b.
    + rewrite bool_decide_eq_true_2 by (apply B1; reflexivity). reflexivity.
    + rewrite bool_decide_eq_false_2; [reflexivity|].
      intros Hc. destruct (B2 Hc) as [Hb|Hb]; [discriminate|].
      apply existsb_eqb_elem in Hb. congruence.
Qed.

Lemma isNodeDescendant_iff_listed_witness :
  represents sampleStore sampleTree 0 /\ (height sampleTree <= 10)%nat /\
  exists ids,
    getNodeDescendants 10 sampleStore 0 = Some ids /\
    isNodeDescendant 10 sampleStore 0 2 = Some (bool_decide (2%nat ∈ ids)).
Proof.
  assert (H1 : represents sampleStore sampleTree 0)
    by (apply (treeOf_sound 10); vm_compute; reflexivity).
  assert (H2 : (height sampleTree <= 10)%nat) by (vm_compute; lia).
  split; [exact H1|]. split; [exact H2|].
  exact (isNodeDescendant_iff_listed sampleTree 10 sampleStore 0 2 H1 H2).
Defined.

(** ** Ancestors in a parsed document *)

Lemma rootHasNoParent_parseLine s line :
  rootHasNoParent (store s) -> rootHasNoParent (store (parseLine s line)).
Proof.
  intros (r & Hr & Hp).
  destruct (acceptedItem line) as [item|] eqn:E.
  - rewrite (parseLine_item s line item E). cbv zeta. cbn [store].
    assert (H : exists n,
              match last (take (itemLevel item + 1) (nodeStack s)) with
              | Some p => alter (pushChild (length (store s))) p (store s)
              | None => store s
              end !! 0%nat = Some n /\ parent n = None).
    { destruct (last _) as [p|]; [|eauto].
      destruct (lookup_alter_fwd (pushChild (length (store s))) p (store s)
                  0%nat r ltac:(reflexivity) Hr) as (n & Hn & Hpn).
      exists n. split; [exact Hn|congruence]. }
    destruct H as (n & Hn & Hpn). exists n. split; [|exact Hpn].
    rewrite lookup_app_l; [exact Hn|]. eapply lookup_lt_Some. exact Hn.
  - destruct (parseLine_continuation s line E) as [->|(ln & _ & _ & ->)];
      [exists r; auto|]. cbn [store].
    destruct (lookup_alter_fwd (appendLine (trim line)) ln (store s)
                0%nat r ltac:(reflexivity) Hr) as (n & Hn & Hpn).
    exists n. split; [exact Hn|congruence].
Qed.

Lemma rootHasNoParent_lines lines : forall s,
  rootHasNoParent (store s) -> rootHasNoParent (store (fold_left parseLine lines s)).
Proof.
  induction lines as [|l lines IH]; intros s H; [exact H|].
  cbn [fold_left]. apply IH, rootHasNoParent_parseLine, H.
Qed.

Lemma ancestors_by_level (st : Store) :
  rootHasNoParent st ->
  (exists r, st !! 0%nat = Some r /\ level (data r) = 0%nat) ->
  (forall i n, st !! i = Some n -> i <> 0%nat ->
     exists p pn, parent n = Some p /\ st !! p = Some pn /\
       level (data n) = level (data pn) + 1) ->
  forall k i n, st !! i = Some n -> level (data n) = k ->
    exists l, getNodeAncestors (S k) st i = Some l /\ length l = k /\
              (i <> 0%nat -> last l = Some 0%nat).
Proof.
  intros (r & Hr & Hrp) (r' & Hr' & Hrl) Hlv.
  assert (r' = r) by congruence. subst r'.
  induction k as [|k IH]; intros i n Hn Hk.
  - destruct (decide (i = 0%nat)) as [->|Hi].
    + assert (n = r) by congruence. subst n.
      cbn [getNodeAncestors]. rewrite Hr, Hrp.
      exists []. repeat split. intros H. contradiction.
    + destruct (Hlv i n Hn Hi) as (p & pn & _ & _ & Hl). lia.
  - destruct (decide (i = 0%nat)) as [->|Hi].
    { assert (n = r) by congruence. subst n. lia. }
    destruct (Hlv i n Hn Hi) as (p & pn & Hp & Hpn & Hl).
    destruct (IH p pn Hpn ltac:(lia)) as (l & Hanc & Hlen & Hlast).
    change (getNodeAncestors (S (S k)) st i)
      with (match st !! i with
            | None => None
            | Some n =>
                match parent n with
                | None => Some []
                | Some current =>
                    match getNodeAncestors (S k) st current with
                    | Some ancestors => Some (current :: ancestors)
                    | None => None
                    end
                end
            end).
    rewrite Hn, Hp, Hanc. exists (p :: l). split; [reflexivity|].
    split; [cbn; lia|]. intros _.
    destruct (decide (p = 0%nat)) as [->|Hp0].
    + assert (pn = r) by congruence. subst pn.
      assert (k = 0%nat) by lia. subst k.
      destruct l; [reflexivity|discriminate].
    + specialize (Hlast Hp0). destruct l as [|a l]; [discriminate|].
      exact Hlast.
Qed.

(** In the tree parsed from a document without level skips,
    [getNodeAncestors] returns, for a node of level [k], exactly [k]
    ancestors, and the last of them is the root. *)
Theorem parsed_node_has_level_many_ancestors (content filePath : jsstring) :
  noLevelSkip 0 (itemLevels (documentLines content)) = true ->
  let st := fst (parseMarkdownContent content filePath) in
  forall i n, st !! i = Some n ->
    exists l, getNodeAncestors (S (level (data n))) st i = Some l /\
              length l = level (data n) /\
              (i <> 0%nat -> last l = Some 0%nat).
Proof.
  intros Hskip st i n Hn. subst st.
  unfold parseMarkdownContent, parseLines in *. cbn [fst] in *.
  pose proof (levelInvariant_lines (documentLines content) _
                (levelInvariant_initial filePath) Hskip) as (_ & _ & Hlv).
  destruct (invariants_parse content filePath) as (_ & ((r & Hr & Hrd) & _)).
  unfold parseLines in Hr.
  apply (ancestors_by_level _) with (n := n); try assumption; try reflexivity.
  - apply rootHasNoParent_lines. eexists. split; reflexivity.
  - exists r. split; [exact Hr|]. rewrite Hrd. reflexivity.
Qed.

Lemma parsed_node_has_level_many_ancestors_witness :
  noLevelSkip 0 (itemLevels (documentLines scenario1)) = true /\
  let st := fst (parseMarkdownContent scenario1 (js "doc.md")) in
  forall i n, st !! i = Some n ->
    exists l, getNodeAncestors (S (level (data n))) st i = Some l /\
              length l = level (data n) /\
              (i <> 0%nat -> last l = Some 0%nat).
Proof.
  assert (H : noLevelSkip 0 (itemLevels (documentLines scenario1)) = true)
    by (vm_compute; reflexivity).
  split; [exact H|].
  exact (parsed_node_has_level_many_ancestors scenario1 (js "doc.md") H).
Defined.

End TreeUtilsFacts.
(** * Further properties of the undo manager *)

Module UndoExtras.
Import StoreFacts UndoManager UndoFacts UndoHistory.

Lemma length_removelast_nonempty {A} (l : list A) :
  l <> [] -> S (length (removelast l)) = length l.
Proof.
  intros H. destruct (exists_last H) as (l' & x & ->).
  rewrite removelast_last, length_app. cbn. lia.
Qed.

(** However the methods of a manager are called, its two stacks never
    hold more than 5 snapshots together.  In particular the undo stack
    never holds more than 5, although [redo] pushes on it without a
    bound. *)
Theorem stacks_hold_at_most_five (u : Stacks) :
  history u ->
  (getUndoCount u + getRedoCount u <= MAX_STACK_SIZE)%nat.
Proof.
  unfold getUndoCount, getRedoCount, MAX_STACK_SIZE.
  induction 1 as [| fuel u st d u' st' _ IH Hs
                  | fuel u st d u' st' res _ IH Hu
                  | fuel u st d u' st' res _ IH Hr
                  | u _ IH ].
  - cbn. lia.
  - unfold saveSnapshot in Hs.
    destruct (snapshot fuel st d) as [[st1 snap]|]; [|discriminate].
    injection Hs as <- _. cbn [undoStack redoStack length].
    rewrite length_app. cbn [length]. unfold MAX_STACK_SIZE.
    destruct (5 <? length (undoStack u) + 1)%nat eqn:E.
    + destruct (undoStack u) as [|o rest]; cbn [app tl length] in *;
        [discriminate|]. rewrite length_app. cbn [length]. lia.
    + apply Nat.ltb_ge in E. rewrite length_app. cbn [length]. lia.
  - unfold undo in Hu. destruct (undoStack u) as [|o rest] eqn:E.
    + injection Hu as <- _ _. rewrite E. exact IH.
    + destruct (snapshot fuel st d) as [[st1 snap]|]; [|discriminate].
      rewrite <- E in Hu, IH. injection Hu as <- _ _. cbn [undoStack redoStack].
      pose proof (length_removelast_nonempty (undoStack u)
                    ltac:(rewrite E; discriminate)).
      rewrite length_app. cbn [length]. lia.
  - unfold redo in Hr. destruct (redoStack u) as [|o rest] eqn:E.
    + injection Hr as <- _ _. rewrite E. exact IH.
    + destruct (snapshot fuel st d) as [[st1 snap]|]; [|discriminate].
      rewrite <- E in Hr, IH. injection Hr as <- _ _. cbn [undoStack redoStack].
      pose proof (length_removelast_nonempty (redoStack u)
                    ltac:(rewrite E; discriminate)).
      rewrite length_app. cbn [length]. lia.
  - cbn. lia.
Qed.

Lemma stacks_hold_at_most_five_witness :
  history (fst sampleSaved) /\
  (getUndoCount (fst sampleSaved) + getRedoCount (fst sampleSaved)
   <= MAX_STACK_SIZE)%nat.
Proof.
  assert (H : history (fst sampleSaved)).
  { apply (history_saveSnapshot 10 empty sampleStore sampleData
             (fst sampleSaved) (snd sampleSaved) history_new).
    vm_compute. reflexivity. }
  split; [exact H|]. exact (stacks_hold_at_most_five (fst sampleSaved) H).
Defined.

(** [saveSnapshot] followed, after any modification of the objects that
    existed at the time of the call and after any later allocation, by
    [undo]: the state that [undo] returns reads as the tree that was
    saved, and it is made of objects that did not exist when
    [saveSnapshot] was called.  [seg] is the part of the store that holds
    the clone; the store at the time of [undo] is [A ++ seg ++ B] for
    arbitrary [A] and [B], [A] standing for the objects that existed
    before. *)
Theorem undo_returns_the_saved_tree
    (fuel : nat) (u : Stacks) (st : Store) (d : MindMapData)
    (r : nat) (t : Tree) (ts : list Tree) :
  rootNode d = Some r -> represents st t r ->
  Forall2 (represents st) ts (allNodes d) ->
  (height t <= fuel)%nat -> Forall (fun k => (height k <= fuel)%nat) ts ->
  exists u1 st1 seg rest,
    saveSnapshot fuel u st d = Some (u1, st1) /\
    st1 = st ++ seg ++ rest /\
    forall (A B : Store) (cur : MindMapData) (rc : nat) (tc : Tree)
           (tsc : list Tree),
      length A = length st ->
      rootNode cur = Some rc -> represents (A ++ seg ++ B) tc rc ->
      Forall2 (represents (A ++ seg ++ B)) tsc (allNodes cur) ->
      (height tc <= fuel)%nat -> Forall (fun k => (height k <= fuel)%nat) tsc ->
      exists u2 st2 snap c,
        undo fuel u1 (A ++ seg ++ B) cur = Some (u2, st2, Some snap) /\
        rootNode snap = Some c /\ (length st <= c)%nat /\
        represents st2 t c /\
        maxLevel snap = maxLevel d /\
        length (redoStack u2) = 1%nat.
Proof.
  intros Hr Ht Hts Hfuel Hfuels.
  unfold saveSnapshot.
  rewrite (snapshot_spec fuel st d r t ts Hr Ht Hts Hfuel Hfuels).
  set (snap := {| rootNode := Some (length st);
                  allNodes := rootIds ts (length st + size t);
                  maxLevel := maxLevel d |}).
  set (stack := if (MAX_STACK_SIZE <? length (undoStack u ++ [snap]))%nat
                then tl (undoStack u ++ [snap]) else undoStack u ++ [snap]).
  assert (Hlast : last stack = Some snap /\ stack <> []).
  { unfold stack. destruct (MAX_STACK_SIZE <? _)%nat eqn:E.
    - destruct (undoStack u) as [|a l].
      + cbn in E. discriminate.
      + cbn [app tl]. split; [apply last_snoc|]. destruct l; discriminate.
    - split; [apply last_snoc|]. destruct (undoStack u); discriminate. }
  destruct Hlast as [Hlast Hne].
  eexists _, _, (flatten true None (length st) t),
    (flattenForest false None ts (length st + size t)).
  split; [reflexivity|]. split; [reflexivity|].
  intros A B cur rc tc tsc HA Hrc Htc Htsc Hfc Hfsc.
  unfold undo. cbn [undoStack redoStack]. fold snap. fold stack.
  destruct stack as [|s0 stack'] eqn:Es; [contradiction|].
  rewrite (snapshot_spec fuel _ cur rc tc tsc Hrc Htc Htsc Hfc Hfsc).
  eexists _, _, snap, (length st). split.
  { rewrite Hlast. reflexivity. }
  split; [reflexivity|]. split; [lia|]. split.
  - apply represents_app. rewrite <- HA.
    apply (linkedClone_represents 0 _ _ _ None).
    apply linkedClone_flatten. lia.
  - split; [reflexivity|]. reflexivity.
Qed.

Lemma undo_returns_the_saved_tree_witness :
  exists u1 st1 seg rest,
    saveSnapshot 10 empty sampleStore sampleData = Some (u1, st1) /\
    st1 = sampleStore ++ seg ++ rest /\
    forall (A B : Store) (cur : MindMapData) (rc : nat) (tc : Tree)
           (tsc : list Tree),
      length A = length sampleStore ->
      rootNode cur = Some rc -> represents (A ++ seg ++ B) tc rc ->
      Forall2 (represents (A ++ seg ++ B)) tsc (allNodes cur) ->
      (height tc <= 10)%nat -> Forall (fun k => (height k <= 10)%nat) tsc ->
      exists u2 st2 snap c,
        undo 10 u1 (A ++ seg ++ B) cur = Some (u2, st2, Some snap) /\
        rootNode snap = Some c /\ (length sampleStore <= c)%nat /\
        represents st2 sampleTree c /\
        maxLevel snap = maxLevel sampleData /\
        length (redoStack u2) = 1%nat.
Proof.
  destruct sample_represents as (H1 & H2 & H3 & H4).
  apply (undo_returns_the_saved_tree 10 empty sampleStore sampleData
           0 sampleTree sampleTrees);
    [reflexivity | exact H1 | exact H2 | exact H3 | exact H4].
Defined.

(** ** The clones of [allNodes] *)

Lemma detached_unfold st d kids i :
  detached st (TNode d kids) i <->
  exists n, st !! i = Some n /\ data n = d /\ parent n = None /\
            Forall2 (detached st) kids (children n).
Proof.
  cbn [detached]. split; intros (n & Hn & Hd & Hp & Hk); exists n;
    (split; [exact Hn|]; split; [exact Hd|]; split; [exact Hp|]).
  - revert Hk. generalize (children n). clear.
    induction kids as [|k kids IH]; intros [|c cs] H; try contradiction;
      constructor; [apply H | apply IH, H].
  - revert Hk. generalize (children n). clear.
    induction kids as [|k kids IH]; intros cs H; inversion H; subst;
      [exact I|]. split; [assumption|]. apply IH. assumption.
Qed.

Lemma detached_flatten : forall t (A B : Store),
  detached (A ++ flatten false None (length A) t ++ B) t (length A).
Proof.
  induction t as [d kids IH] using Tree_forall_ind. intros A B.
  apply detached_unfold. rewrite flatten_unfold.
  eexists. split.
  { rewrite lookup_app_r by lia. rewrite Nat.sub_diag. reflexivity. }
  cbn [data parent children]. split; [reflexivity|]. split; [reflexivity|].
  set (root := {| data := d; parent := None;
                  children := rootIds kids (S (length A)) |}).
  assert (H : forall (P Q : Store), 
            Forall2 (detached (P ++ flattenForest false None kids (length P) ++ Q))
                    kids (rootIds kids (length P))).
  { clear root. induction IH as [|k kids Hk _ IHk]; intros P Q; [constructor|].
    cbn [flattenForest rootIds]. rewrite <- app_assoc. constructor.
    - apply Hk.
    - specialize (IHk (P ++ flatten false None (length P) k) Q).
      rewrite length_app, length_flatten, <- !app_assoc in IHk. exact IHk. }
  specialize (H (A ++ [root]) B).
  rewrite length_app, <- !app_assoc in H. cbn [length app] in H.
  rewrite Nat.add_1_r in H. exact H.
Qed.

Lemma detached_flattenForest ts : forall (A B : Store),
  Forall2 (detached (A ++ flattenForest false None ts (length A) ++ B))
          ts (rootIds ts (length A)).
Proof.
  induction ts as [|k ts IH]; intros A B; [constructor|].
  cbn [flattenForest rootIds]. rewrite <- app_assoc. constructor.
  - apply detached_flatten.
  - specialize (IH (A ++ flatten false None (length A) k) B).
    rewrite length_app, length_flatten, <- !app_assoc in IH. exact IH.
Qed.

Lemma rootIds_lower ts : forall b, Forall (fun id => (b <= id)%nat) (rootIds ts b).
Proof.
  induction ts as [|k ts IH]; intros b; [constructor|].
  cbn [rootIds]. constructor; [lia|].
  eapply Forall_impl; [apply IH|]. cbn. intros; lia.
Qed.

(** In the snapshot that [saveSnapshot] pushes, the entries of
    [allNodes] are clones of their own: none of them is a node of the
    cloned tree below [rootNode], which occupies the [size t] objects
    from [c] on, and their [parent] links, and those of the nodes below
    them, are [null]: [rebuildParentReferences] only visits the tree
    below [rootNode]. *)
Theorem snapshot_allNodes_are_detached_clones
    (fuel : nat) (u : Stacks) (st : Store) (d : MindMapData)
    (r : nat) (t : Tree) (ts : list Tree) :
  rootNode d = Some r -> represents st t r ->
  Forall2 (represents st) ts (allNodes d) ->
  (height t <= fuel)%nat -> Forall (fun k => (height k <= fuel)%nat) ts ->
  exists u' st' snap c,
    saveSnapshot fuel u st d = Some (u', st') /\
    last (undoStack u') = Some snap /\
    rootNode snap = Some c /\
    Forall2 (detached st') ts (allNodes snap) /\
    Forall (fun id => (c + size t <= id)%nat) (allNodes snap).
Proof.
  intros Hr Ht Hts Hfuel Hfuels.
  unfold saveSnapshot.
  rewrite (snapshot_spec fuel st d r t ts Hr Ht Hts Hfuel Hfuels).
  set (snap := {| rootNode := Some (length st);
                  allNodes := rootIds ts (length st + size t);
                  maxLevel := maxLevel d |}).
  eexists _, _, snap, (length st). split; [reflexivity|].
  cbn [undoStack]. split.
  { destruct (MAX_STACK_SIZE <? _)%nat eqn:E.
    - destruct (undoStack u) as [|a l]; [cbn in E; discriminate|].
      cbn [app tl]. apply last_snoc.
    - apply last_snoc. }
  split; [reflexivity|]. cbn [allNodes snap]. split.
  - pose proof (detached_flattenForest ts
      (st ++ flatten true None (length st) t) []) as H.
    rewrite length_app, length_flatten, app_nil_r, <- app_assoc in H. exact H.
  - apply rootIds_lower.
Qed.

Lemma snapshot_allNodes_are_detached_clones_witness :
  exists u' st' snap c,
    saveSnapshot 10 empty sampleStore sampleData = Some (u', st') /\
    last (undoStack u') = Some snap /\
    rootNode snap = Some c /\
    Forall2 (detached st') sampleTrees (allNodes snap) /\
    Forall (fun id => (c + size sampleTree <= id)%nat) (allNodes snap).
Proof.
  destruct sample_represents as (H1 & H2 & H3 & H4).
  apply (snapshot_allNodes_are_detached_clones 10 empty sampleStore sampleData
           0 sampleTree sampleTrees);
    [reflexivity | exact H1 | exact H2 | exact H3 | exact H4].
Defined.

End UndoExtras.
(** * Further properties of the inline editor *)

Module NodeEditorExtras.
Import NodeEditor NodeEditorFacts NodeEditorCancel.

Lemma update_same {A} (f : nat -> A) k v : update f k v k = v.
Proof. unfold update. rewrite Nat.eqb_refl. reflexivity. Qed.

Lemma update_other {A} (f : nat -> A) k v k' : k' <> k -> update f k v k' = f k'.
Proof.
  intros H. unfold update. destruct (Nat.eqb_spec k' k); [contradiction|reflexivity].
Qed.

Lemma exitEditMode_idle ed :
  isEditing (editingState ed) = false -> exitEditMode ed = ed.
Proof. intros H. unfold exitEditMode. rewrite H. reflexivity. Qed.

Lemma exitEditMode_textContent ed e :
  textContent (dom (exitEditMode ed) e) = textContent (dom ed e).
Proof.
  unfold exitEditMode. destruct (isEditing (editingState ed)); [|reflexivity].
  cbn [negb]. destruct (editElement (editingState ed)) as [e'|]; [|reflexivity].
  cbn. unfold update. destruct (Nat.eqb_spec e e') as [->|]; reflexivity.
Qed.

(** Committing a valid text that differs from the original one, with
    callbacks that do not throw: [onBeforeTextChange] is called, then the
    trimmed text is written to the node and [onTextChanged] is called
    with it, the other nodes keep their text, no validation toast is
    shown and the session is over. *)
Theorem valid_edit_is_committed
    (MAX : nat) (INVALID : list jsstring) (throws : Effect -> bool)
    (ed : Editor) (n e : nat) :
  isEditing (editingState ed) = true ->
  currentNode (editingState ed) = Some n ->
  editElement (editingState ed) = Some e ->
  let newText := trim (textContent (dom ed e)) in
  validateText MAX INVALID newText = true ->
  newText <> originalText (editingState ed) ->
  throws (OnBeforeTextChange n) = false ->
  throws (OnTextChanged n newText) = false ->
  let ed' := saveText MAX INVALID throws ed in
  nodeText ed' n = newText /\
  (forall k, k <> n -> nodeText ed' k = nodeText ed k) /\
  effects ed'
    = HideEditingHint :: OnCanvasInteractionChanged true
        :: OnTextChanged n newText :: OnBeforeTextChange n :: effects ed /\
  isEditing (editingState ed') = false /\
  canvasInteractionEnabled ed' = true.
Proof.
  intros Hed Hn He newText Hval Hne Hb Ht ed'.
  unfold ed', saveText. rewrite Hed, Hn, He. fold newText.
  rewrite Hval. cbn [negb].
  destruct (decide (newText = originalText (editingState ed))) as [E|_];
    [contradiction|].
  cbn zeta. rewrite Hb, Ht.
  match goal with |- context [exitEditMode ?x] =>
    destruct (exitEditMode_editing x) as (H1 & H2 & H3 & H4); [exact Hed|]
  end.
  rewrite H1, H2, H3, H4. cbn [nodeText effects emit setNodeText isEditing].
  split; [apply update_same|]. split; [intros k Hk; apply update_other, Hk|].
  repeat split.
Qed.

Lemma valid_edit_is_committed_witness :
  let ed := setDom 0 {| textContent := js " B2 "; contentEditable := true;
                        editingClass := true |} sampleEditor in
  isEditing (editingState ed) = true /\
  currentNode (editingState ed) = Some 1%nat /\
  editElement (editingState ed) = Some 0%nat /\
  validateText 50 [js "<"] (trim (textContent (dom ed 0))) = true /\
  trim (textContent (dom ed 0)) <> originalText (editingState ed) /\
  nodeText (saveText 50 [js "<"] (fun _ => false) ed) 1 = js "B2".
Proof.
  cbv zeta.
  set (ed := setDom 0 {| textContent := js " B2 "; contentEditable := true;
                         editingClass := true |} sampleEditor).
  assert (H4 : validateText 50 [js "<"] (trim (textContent (dom ed 0))) = true)
    by (vm_compute; reflexivity).
  assert (H5 : trim (textContent (dom ed 0)) <> originalText (editingState ed))
    by (vm_compute; discriminate).
  split; [reflexivity|]. split; [reflexivity|]. split; [reflexivity|].
  split; [exact H4|]. split; [exact H5|].
  exact (proj1 (valid_edit_is_committed 50 [js "<"] (fun _ => false) ed 1 0
                  eq_refl eq_refl eq_refl H4 H5 eq_refl eq_refl)).
Defined.

(** When [onTextChanged] throws while a valid, changed text is committed
    (the callbacks of the canvas not throwing), the node keeps the new
    text that was written before the call, the toast [saveFailed] is
    shown, and the edit element is left empty: its text is restored from
    [originalText] after [showValidationError] has closed the session and
    cleared that field. *)
Theorem failed_save_keeps_new_text
    (MAX : nat) (INVALID : list jsstring) (throws : Effect -> bool)
    (ed : Editor) (n e : nat) :
  isEditing (editingState ed) = true ->
  currentNode (editingState ed) = Some n ->
  editElement (editingState ed) = Some e ->
  let newText := trim (textContent (dom ed e)) in
  validateText MAX INVALID newText = true ->
  newText <> originalText (editingState ed) ->
  throws (OnBeforeTextChange n) = false ->
  throws (OnTextChanged n newText) = true ->
  let ed' := saveText MAX INVALID throws ed in
  nodeText ed' n = newText /\
  effects ed'
    = HideEditingHint :: OnCanvasInteractionChanged true
        :: ValidationError saveFailed
        :: OnTextChanged n newText :: OnBeforeTextChange n :: effects ed /\
  textContent (dom ed' e) = [] /\
  isEditing (editingState ed') = false.
Proof.
  intros Hed Hn He newText Hval Hne Hb Ht ed'.
  unfold ed', saveText. rewrite Hed, Hn, He. fold newText.
  rewrite Hval. cbn [negb].
  destruct (decide (newText = originalText (editingState ed))) as [E|_];
    [contradiction|].
  cbn zeta. rewrite Hb, Ht.
  unfold showValidationError. cbn [emit setNodeText editingState]. rewrite Hed.
  match goal with |- context [exitEditMode (setDom _ _ (exitEditMode ?x))] =>
    destruct (exitEditMode_editing x) as (H1 & H2 & H3 & H4); [exact Hed|];
    set (mid := exitEditMode x) in *
  end.
  assert (Hmid : isEditing (editingState (setDom e
            {| textContent := originalText (editingState mid);
               contentEditable := contentEditable (dom mid e);
               editingClass := editingClass (dom mid e) |} mid)) = false).
  { cbn [setDom editingState]. rewrite H3. reflexivity. }
  rewrite (exitEditMode_idle _ Hmid).
  cbn [setDom nodeText effects dom editingState].
  rewrite H1, H3. cbn [nodeText effects emit setNodeText isEditing originalText].
  split; [apply update_same|]. split; [exact H2|].
  split; [rewrite update_same; reflexivity|reflexivity].
Qed.

Lemma failed_save_keeps_new_text_witness :
  let ed := setDom 0 {| textContent := js " B2 "; contentEditable := true;
                        editingClass := true |} sampleEditor in
  let throws := fun eff => match eff with OnTextChanged _ _ => true | _ => false end in
  validateText 50 [js "<"] (trim (textContent (dom ed 0))) = true /\
  trim (textContent (dom ed 0)) <> originalText (editingState ed) /\
  nodeText (saveText 50 [js "<"] throws ed) 1 = js "B2" /\
  textContent (dom (saveText 50 [js "<"] throws ed) 0) = [].
Proof.
  cbv zeta.
  set (ed := setDom 0 {| textContent := js " B2 "; contentEditable := true;
                         editingClass := true |} sampleEditor).
  set (throws := fun eff => match eff with OnTextChanged _ _ => true | _ => false end).
  assert (H4 : validateText 50 [js "<"] (trim (textContent (dom ed 0))) = true)
    by (vm_compute; reflexivity).
  assert (H5 : trim (textContent (dom ed 0)) <> originalText (editingState ed))
    by (vm_compute; discriminate).
  split; [exact H4|]. split; [exact H5|].
  destruct (failed_save_keeps_new_text 50 [js "<"] throws ed 1 0
              eq_refl eq_refl eq_refl H4 H5 eq_refl eq_refl)
    as (R1 & _ & R3 & _).
  split; [exact R1|exact R3].
Defined.

(** [cancelEdit] closes the session without touching the text of any
    node and without calling [onBeforeTextChange] or [onTextChanged]; the
    element shows the original text again, unless that text is empty, in
    which case the element keeps what the user typed. *)
Theorem cancelEdit_discards_the_edit (ed : Editor) (e : nat) :
  isEditing (editingState ed) = true ->
  editElement (editingState ed) = Some e ->
  let ed' := cancelEdit ed in
  nodeText ed' = nodeText ed /\
  effects ed' = HideEditingHint :: OnCanvasInteractionChanged true :: effects ed /\
  textContent (dom ed' e)
    = match originalText (editingState ed) with
      | [] => textContent (dom ed e)
      | t => t
      end /\
  isEditing (editingState ed') = false /\
  canvasInteractionEnabled ed' = true.
Proof.
  intros Hed He ed'. unfold ed', cancelEdit. rewrite Hed, He. cbn [negb].
  destruct (originalText (editingState ed)) as [|c t] eqn:Eo.
  - destruct (exitEditMode_editing ed Hed) as (H1 & H2 & H3 & H4).
    rewrite exitEditMode_textContent, H1, H2, H3, H4. repeat split.
  - match goal with |- context [exitEditMode ?x] =>
      destruct (exitEditMode_editing x) as (H1 & H2 & H3 & H4); [exact Hed|]
    end.
    rewrite exitEditMode_textContent, H1, H2, H3, H4.
    cbn [setDom nodeText effects dom textContent]. rewrite update_same.
    repeat split.
Qed.

Lemma cancelEdit_discards_the_edit_witness :
  isEditing (editingState sampleEditor) = true /\
  editElement (editingState sampleEditor) = Some 0%nat /\
  nodeText (cancelEdit sampleEditor) = nodeText sampleEditor /\
  textContent (dom (cancelEdit sampleEditor) 0) = js "B".
Proof.
  split; [reflexivity|]. split; [reflexivity|].
  destruct (cancelEdit_discards_the_edit sampleEditor 0 eq_refl eq_refl)
    as (R1 & _ & R3 & _).
  split; [exact R1|exact R3].
Defined.

End NodeEditorExtras.
(** * Properties of the selection and hover state *)

Module SelectionFacts.
Import SelectionState.

Lemma setFlag_same f k v : setFlag f k v k = v.
Proof. unfold setFlag. rewrite Nat.eqb_refl. reflexivity. Qed.

Lemma setFlag_other f k v k' : k' <> k -> setFlag f k v k' = f k'.
Proof.
  intros H. unfold setFlag. destruct (Nat.eqb_spec k' k); [contradiction|reflexivity].
Qed.

Lemma consistent_initial : consistent initial.
Proof.
  unfold consistent, initial; cbn.
  repeat split; intros; try discriminate; reflexivity.
Qed.

Lemma consistent_call c s : consistent s -> consistent (call c s).
Proof. intros H. exact H. Qed.

Ltac flags :=
  repeat match goal with
  | |- context [setFlag _ ?k _ ?k] => rewrite setFlag_same
  | H : context [setFlag _ ?k _ ?k] |- _ => rewrite setFlag_same in H
  | Hne : ?a <> ?b |- context [setFlag _ ?b _ ?a] =>
      rewrite (setFlag_other _ b _ a Hne)
  | Hne : ?a <> ?b, H : context [setFlag _ ?b _ ?a] |- _ =>
      rewrite (setFlag_other _ b _ a Hne) in H
  end.

(** Removing the selection of the node the handler refers to. *)
Lemma consistent_unselect s p (all : bool) :
  consistent s -> selectedNode s = Some p ->
  consistent
    {| selectedNode := None; hoveredNode := hoveredNode s;
       selected := setFlag (selected s) p false; hovered := hovered s;
       selectedRect := if all then fun _ => false
                       else setFlag (selectedRect s) p false;
       hoveredRect := hoveredRect s; calls := calls s |}.
Proof.
  intros (Hs & Hsr & Hh & Hhr & Hx) Hp.
  assert (Hoff : forall n, setFlag (selected s) p false n = false).
  { intros n. destruct (Nat.eq_dec n p) as [->|Hne]; flags; [reflexivity|].
    destruct (selected s n) eqn:E; [|reflexivity].
    apply Hs in E. congruence. }
  unfold consistent; cbn. repeat split.
  - intros H. rewrite Hoff in H. discriminate.
  - discriminate.
  - intros n. rewrite Hoff. destruct all; [reflexivity|].
    destruct (Nat.eq_dec n p) as [->|Hne]; flags; [reflexivity|].
    rewrite Hsr. rewrite <- (Hoff n). flags. reflexivity.
  - apply Hh.
  - apply Hh.
  - exact Hhr.
  - intros n H. rewrite Hoff in H. discriminate.
Qed.

(** Selecting [node] in a state where nothing is selected and [node] is
    not hovered. *)
Lemma consistent_select s node :
  consistent s -> selectedNode s = None -> hovered s node = false ->
  consistent
    {| selectedNode := Some node; hoveredNode := hoveredNode s;
       selected := setFlag (selected s) node true; hovered := hovered s;
       selectedRect := setFlag (selectedRect s) node true;
       hoveredRect := hoveredRect s; calls := calls s |}.
Proof.
  intros (Hs & Hsr & Hh & Hhr & Hx) Hnone Hov.
  assert (Hoff : forall n, selected s n = false).
  { intros n. destruct (selected s n) eqn:E; [|reflexivity].
    apply Hs in E. congruence. }
  unfold consistent; cbn. repeat split.
  - intros H. destruct (Nat.eq_dec n node) as [->|Hne]; [reflexivity|].
    flags. rewrite Hoff in H. discriminate.
  - intros H. injection H as <-. flags. reflexivity.
  - intros n. destruct (Nat.eq_dec n node) as [->|Hne]; flags;
      [reflexivity|apply Hsr].
  - apply Hh.
  - apply Hh.
  - exact Hhr.
  - intros n H. destruct (Nat.eq_dec n node) as [->|Hne]; [exact Hov|].
    flags. rewrite Hoff in H. discriminate.
Qed.

Lemma consistent_clearNodeHoverState s node :
  consistent s -> consistent (MouseSelection.clearNodeHoverState node s).
Proof.
  intros (Hs & Hsr & Hh & Hhr & Hx).
  unfold consistent, MouseSelection.clearNodeHoverState; cbn.
  split; [exact Hs|]. split; [exact Hsr|]. split; [|split].
  - intros n. destruct (Nat.eq_dec n node) as [->|Hne]; flags.
    + split; [discriminate|]. intros H.
      destruct (isNode (hoveredNode s) node) eqn:E; [discriminate|].
      rewrite H in E. cbn in E. rewrite Nat.eqb_refl in E. discriminate.
    + rewrite Hh. destruct (isNode (hoveredNode s) node) eqn:E; [|reflexivity].
      destruct (hoveredNode s) as [h|]; [|discriminate]. cbn in E.
      apply Nat.eqb_eq in E. subst h. split; [|discriminate].
      intros H. injection H as H. congruence.
  - intros n. destruct (Nat.eq_dec n node) as [->|Hne]; flags;
      [reflexivity|apply Hhr].
  - intros n H. destruct (Nat.eq_dec n node) as [->|Hne]; flags;
      [reflexivity|apply Hx, H].
Qed.

Lemma consistent_clearHoverState s :
  consistent s -> consistent (MouseSelection.clearHoverState s).
Proof.
  intros C. pose proof C as (Hs & Hsr & Hh & Hhr & Hx).
  unfold MouseSelection.clearHoverState.
  destruct (hoveredNode s) as [h|] eqn:E; [|exact C].
  assert (Hoff : forall n, setFlag (hovered s) h false n = false).
  { intros n. destruct (Nat.eq_dec n h) as [->|Hne]; flags; [reflexivity|].
    destruct (hovered s n) eqn:E'; [|reflexivity].
    apply Hh in E'. congruence. }
  unfold consistent; cbn.
  split; [exact Hs|]. split; [exact Hsr|]. split; [|split].
  - intros n. rewrite Hoff. split; discriminate.
  - intros n. rewrite Hoff. reflexivity.
  - intros n _. apply Hoff.
Qed.

Lemma consistent_clearSelection s :
  consistent s -> consistent (MouseSelection.clearSelection s).
Proof.
  intros C. unfold MouseSelection.clearSelection.
  destruct (selectedNode s) as [p|] eqn:E; [|exact C].
  exact (consistent_unselect s p true C E).
Qed.

Lemma hovered_clearNodeHoverState s node :
  hovered (MouseSelection.clearNodeHoverState node s) node = false.
Proof. cbn. apply setFlag_same. Qed.

Lemma consistent_performNodeSelection s editing node :
  consistent s -> consistent (MouseSelection.performNodeSelection editing node s).
Proof.
  intros C. unfold MouseSelection.performNodeSelection.
  destruct (isNode editing node); [exact C|].
  apply consistent_call.
  set (s1 := match selectedNode s with
             | Some p => if Nat.eqb p node then s else _
             | None => s end).
  assert (H1 : exists s0, consistent s0 /\
            (selectedNode s0 = None \/ selectedNode s0 = Some node) /\
            selectedNode s1 = selectedNode s /\ hoveredNode s1 = hoveredNode s0 /\
            hovered s1 = hovered s0 /\ hoveredRect s1 = hoveredRect s0 /\
            calls s1 = calls s0 /\
            (forall n, n <> node -> selected s1 n = selected s0 n) /\
            (forall n, n <> node -> selectedRect s1 n = selectedRect s0 n)).
  { unfold s1. destruct (selectedNode s) as [p|] eqn:E.
    - destruct (Nat.eqb_spec p node) as [->|Hne].
      + exists s. split; [exact C|]. rewrite E. repeat split; auto.
      + eexists. split; [exact (consistent_unselect s p false C E)|].
        cbn. repeat split; auto.
    - exists s. split; [exact C|]. rewrite E. repeat split; auto. }
  destruct H1 as (s0 & C0 & Hsel0 & _ & Hh1 & Hhf1 & Hhr1 & _ & Hsf & Hsr1).
  set (s2 := if hovered s1 node then _ else s1).
  assert (H2 : exists s3, consistent s3 /\
            (selectedNode s3 = None \/ selectedNode s3 = Some node) /\
            hovered s3 node = false /\
            hoveredNode s2 = hoveredNode s3 /\ hovered s2 = hovered s3 /\
            hoveredRect s2 = hoveredRect s3 /\
            (forall n, n <> node -> selected s2 n = selected s3 n) /\
            (forall n, n <> node -> selectedRect s2 n = selectedRect s3 n)).
  { unfold s2. destruct (hovered s1 node) eqn:E.
    - exists (MouseSelection.clearNodeHoverState node s0).
      split; [apply consistent_clearNodeHoverState, C0|].
      cbn. rewrite Hh1, Hhf1, Hhr1.
      split; [exact Hsel0|]. split; [apply setFlag_same|]. repeat split; auto.
    - exists s0. split; [exact C0|]. rewrite Hh1, Hhf1, Hhr1. rewrite Hhf1 in E.
      repeat split; auto. }
  destruct H2 as (s3 & C3 & Hsel3 & Hov3 & Ha & Hb & Hc & Hd & He).
  rewrite Ha, Hb, Hc.
  pose proof C3 as (Hs & Hsr & Hh & Hhr & Hx).
  assert (Hoff : forall n, n <> node -> selected s3 n = false).
  { intros n Hne. destruct (selected s3 n) eqn:E; [|reflexivity].
    apply Hs in E. destruct Hsel3; congruence. }
  unfold consistent; cbn. repeat split.
  - intros H. destruct (Nat.eq_dec n node) as [->|Hne]; [reflexivity|].
    flags. rewrite Hd, Hoff in H by exact Hne. discriminate.
  - intros H. injection H as <-. flags. reflexivity.
  - intros n. destruct (Nat.eq_dec n node) as [->|Hne]; flags; [reflexivity|].
    rewrite He, Hd by exact Hne. apply Hsr.
  - apply Hh.
  - apply Hh.
  - exact Hhr.
  - intros n H. destruct (Nat.eq_dec n node) as [->|Hne]; [exact Hov3|].
    flags. rewrite Hd, Hoff in H by exact Hne. discriminate.
Qed.

Lemma consistent_handleNodeHover s node :
  consistent s -> consistent (MouseSelection.handleNodeHover node s).
Proof.
  intros C. unfold MouseSelection.handleNodeHover.
  destruct (selected s node) eqn:Esel; [exact C|].
  apply consistent_call.
  set (s1 := match hoveredNode s with
             | Some h => if Nat.eqb h node then s else _
             | None => s end).
  assert (H1 : consistent s1 /\ selected s1 node = false /\
               (hoveredNode s1 = None \/ hoveredNode s1 = Some node)).
  { unfold s1. destruct (hoveredNode s) as [h|] eqn:E.
    - destruct (Nat.eqb_spec h node) as [->|Hne].
      + rewrite E. auto.
      + split; [apply consistent_clearHoverState, C|].
        unfold MouseSelection.clearHoverState. rewrite E. cbn. auto.
    - rewrite E. auto. }
  destruct H1 as (C1 & Hsel1 & Hhov1).
  pose proof C1 as (Hs & Hsr & Hh & Hhr & Hx).
  assert (Hoff : forall n, n <> node -> hovered s1 n = false).
  { intros n Hne. destruct (hovered s1 n) eqn:E; [|reflexivity].
    apply Hh in E. destruct Hhov1; congruence. }
  unfold consistent; cbn.
  split; [exact Hs|]. split; [exact Hsr|]. split; [|split].
  - intros n. destruct (Nat.eq_dec n node) as [->|Hne]; flags.
    + split; reflexivity.
    + rewrite (Hoff n Hne). split; [discriminate|]. intros H. congruence.
  - intros n. destruct (Nat.eq_dec n node) as [->|Hne]; flags;
      [reflexivity|apply Hhr].
  - intros n H. destruct (Nat.eq_dec n node) as [->|Hne]; [congruence|].
    flags. apply Hoff, Hne.
Qed.

Lemma consistent_handleNodeLeave s node :
  consistent s -> consistent (MouseSelection.handleNodeLeave node s).
Proof.
  intros C. unfold MouseSelection.handleNodeLeave.
  destruct (selected s node); [exact C|].
  apply consistent_call, consistent_clearNodeHoverState, C.
Qed.

Lemma consistent_step s e : consistent s -> consistent (MouseSelection.step s e).
Proof.
  intros C. destruct e; cbn [MouseSelection.step].
  - apply consistent_performNodeSelection, C.
  - apply consistent_handleNodeHover, C.
  - apply consistent_handleNodeLeave, C.
  - apply consistent_call, consistent_clearSelection, C.
  - apply consistent_clearSelection, C.
Qed.

(** Whatever sequence of clicks, hovers, leaves and canvas clicks
    [MouseInteraction] handles, its state stays consistent: the node with
    the [selected] flag is the one [getSelectedNode] returns and the only
    one whose rectangle has the class [selected-rect], the same holds for
    the hovered node, and no node is at once selected and hovered. *)
Theorem mouse_selection_stays_consistent (events : list MouseSelection.Event) :
  let s := MouseSelection.run events in
  (forall n, selected s n = true <-> selectedNode s = Some n) /\
  (forall n, selectedRect s n = selected s n) /\
  (forall n, hovered s n = true <-> hoveredNode s = Some n) /\
  (forall n, hoveredRect s n = hovered s n) /\
  (forall n, selected s n = true -> hovered s n = false).
Proof.
  cbv zeta. unfold MouseSelection.run.
  change (consistent (fold_left MouseSelection.step events initial)).
  generalize consistent_initial. generalize initial.
  induction events as [|e events IH]; intros s C; [exact C|].
  cbn [fold_left]. apply IH, consistent_step, C.
Qed.

Lemma consistent_d3_performNodeSelection s node :
  consistent s -> hoveredNode s = None ->
  consistent (D3Selection.performNodeSelection node s) /\
  hoveredNode (D3Selection.performNodeSelection node s) = None.
Proof.
  intros C Hnh. unfold D3Selection.performNodeSelection.
  assert (Hhov : forall s', consistent s' -> hoveredNode s' = None ->
                            forall n, hovered s' n = false).
  { intros s' (_ & _ & Hh & _) Hn n. destruct (hovered s' n) eqn:E; [|reflexivity].
    apply Hh in E. congruence. }
  pose proof (proj1 C) as Hs.
  destruct (selectedNode s) as [p|] eqn:E.
  - destruct (Nat.eqb_spec p node) as [->|Hne].
    + assert (Hsel : selected s node = true) by (apply Hs; reflexivity).
      rewrite Hsel. cbn [negb]. split; [|exact Hnh].
      apply consistent_call. exact (consistent_unselect s node false C E).
    + pose proof (consistent_unselect s p false C E) as C1.
      cbn [selectedNode hoveredNode selected hovered selectedRect hoveredRect calls].
      assert (Hoff : setFlag (selected s) p false node = false).
      { assert (Hne' : node <> p) by congruence. flags.
        destruct (selected s node) eqn:E'; [|reflexivity].
        apply Hs in E'. congruence. }
      rewrite Hoff. cbn [negb]. split; [|exact Hnh].
      apply consistent_call.
      exact (consistent_select _ node C1 eq_refl (Hhov s C Hnh node)).
  - assert (Hoff : selected s node = false).
    { destruct (selected s node) eqn:E'; [|reflexivity].
      apply Hs in E'. congruence. }
    rewrite Hoff. cbn [negb]. split; [|exact Hnh].
    apply consistent_call.
    destruct s as [sn hn sel hov sr hr cs]. cbn in *. subst sn.
    exact (consistent_select
             {| selectedNode := None; hoveredNode := hn; selected := sel;
                hovered := hov; selectedRect := sr; hoveredRect := hr;
                calls := cs |} node C eq_refl (Hhov _ C Hnh node)).
Qed.

(** [D3InteractionHandler]: after any sequence of selections and canvas
    clicks the node with the [selected] flag is the one [getSelectedNode]
    returns and the only one whose rectangle has the class
    [selected-rect]; selecting the selected node again deselects it. *)
Theorem d3_selection_stays_consistent (events : list D3Selection.Event) :
  let s := D3Selection.run events in
  (forall n, selected s n = true <-> selectedNode s = Some n) /\
  (forall n, selectedRect s n = selected s n) /\
  (forall n, selectedNode (D3Selection.performNodeSelection n s)
             = if selected s n then None else Some n).
Proof.
  cbv zeta. unfold D3Selection.run.
  assert (H : consistent (fold_left D3Selection.step events initial) /\
              hoveredNode (fold_left D3Selection.step events initial) = None).
  { assert (H0 : consistent initial /\ hoveredNode initial = None)
      by (split; [apply consistent_initial|reflexivity]).
    revert H0. generalize initial.
    induction events as [|e events IH]; intros s [C Hn]; [split; assumption|].
    cbn [fold_left]. apply IH. destruct e; cbn [D3Selection.step].
    - apply consistent_d3_performNodeSelection; assumption.
    - unfold D3Selection.handleCanvasClick.
      destruct (selectedNode s) as [p|] eqn:E; [|split; assumption].
      split; [exact (consistent_unselect s p true C E)|exact Hn]. }
  destruct H as [C _]. set (s := fold_left D3Selection.step events initial) in *.
  pose proof C as (Hs & Hsr & _).
  split; [exact Hs|]. split; [exact Hsr|].
  intros n. unfold D3Selection.performNodeSelection.
  destruct (selectedNode s) as [p|] eqn:E.
  - destruct (Nat.eqb_spec p n) as [->|Hne].
    + cbn. destruct (selected s n); reflexivity.
    + cbn. assert (Hne' : n <> p) by congruence. flags.
      destruct (selected s n); reflexivity.
  - cbn. destruct (selected s n); reflexivity.
Qed.

End SelectionFacts.
(** * Double clicks in [MouseInteraction], from any state *)

Module ClickExtras.
Import Clicks MouseClicks.

Lemma clearTimeout_own t : clearTimeout (timerId t) [t] = [].
Proof. unfold clearTimeout. cbn. rewrite Nat.eqb_refl. reflexivity. Qed.

Lemma tidy_initial : tidy initial.
Proof. left. reflexivity. Qed.

Lemma advance_tidy now h :
  tidy h ->
  tidy (MouseInteraction.advance now h) /\
  effects (MouseInteraction.advance now h) = effects h.
Proof.
  intros [E|(t & E & Ht)]; unfold MouseInteraction.advance; rewrite E; cbn.
  - split; [left; exact E|reflexivity].
  - destruct (due t <=? now)%Z.
    + cbn. rewrite E, clearTimeout_own. split; [left; reflexivity|reflexivity].
    + split; [right; eauto|reflexivity].
Qed.

Lemma cleared_tidy h :
  tidy h ->
  match clickTimeout h with
  | Some id => clearTimeout id (timers h)
  | None => timers h
  end = [].
Proof.
  intros [E|(t & E & Ht)].
  - rewrite E. destruct (clickTimeout h); reflexivity.
  - rewrite Ht, E. apply clearTimeout_own.
Qed.

Lemma handleNodeClick_tidy t node h :
  tidy h -> tidy (MouseInteraction.handleNodeClick t node h).
Proof.
  intros T. unfold MouseInteraction.handleNodeClick.
  destruct (_ && _); cbn.
  - left. apply cleared_tidy, T.
  - right. rewrite (cleared_tidy h T). cbn. eauto.
Qed.

Lemma click_tidy t node h : tidy h -> tidy (MouseInteraction.click t node h).
Proof.
  intros T. apply handleNodeClick_tidy, advance_tidy, T.
Qed.

Lemma run_tidy clicks : tidy (run clicks).
Proof.
  unfold run. generalize tidy_initial. generalize initial.
  induction clicks as [|c clicks IH]; intros h T; [exact T|].
  cbn [fold_left]. apply IH, click_tidy, T.
Qed.

Lemma double_click_effects t node a :
  (t - lastClickTime a <? MouseInteraction.doubleClickTimeout)%Z
    && sameNode (clickNode a) node = true ->
  effects (MouseInteraction.handleNodeClick t node a)
  = NodeDoubleClick node :: effects a.
Proof.
  intros E. unfold MouseInteraction.handleNodeClick. rewrite E. reflexivity.
Qed.

Lemma single_click_state t node a :
  tidy a ->
  (t - lastClickTime a <? MouseInteraction.doubleClickTimeout)%Z
    && sameNode (clickNode a) node = false ->
  MouseInteraction.handleNodeClick t node a
  = {| clickTimeout := Some (nextTimerId a); lastClickTime := t;
       clickNode := Some node;
       timers := [mkTimer (nextTimerId a) (t + 300) node];
       nextTimerId := S (nextTimerId a);
       effects := PerformNodeSelection node :: effects a |}.
Proof.
  intros T E. unfold MouseInteraction.handleNodeClick. rewrite E.
  rewrite (cleared_tidy a T). reflexivity.
Qed.

(** After any sequence of clicks, a click on [node] is either itself the
    second half of a double click, or it runs the selection at once and
    opens a window of 300 ms in which a second click on the same node is
    a double click: no timer left by the earlier clicks closes the window
    before its time. *)
Theorem mouse_double_click_after_any_clicks
    (clicks : list (Z * nat)) (t1 t2 : Z) (node : nat) :
  (t1 <= t2 < t1 + 300)%Z ->
  let h := run clicks in
  let first := MouseInteraction.click t1 node h in
  let second := MouseInteraction.click t2 node first in
  effects first = NodeDoubleClick node :: effects h \/
  (effects first = PerformNodeSelection node :: effects h /\
   effects second = NodeDoubleClick node :: effects first /\
   timers second = []).
Proof.
  intros Ht h first second.
  pose proof (run_tidy clicks) as T. fold h in T.
  destruct (advance_tidy t1 h T) as [Ta Ea].
  unfold second, first, MouseInteraction.click.
  remember (MouseInteraction.advance t1 h) as a eqn:Ha. clear Ha.
  destruct ((t1 - lastClickTime a <? MouseInteraction.doubleClickTimeout)%Z
            && sameNode (clickNode a) node) eqn:Ed.
  - left. rewrite (double_click_effects _ _ _ Ed), Ea. reflexivity.
  - right. rewrite (single_click_state _ _ _ Ta Ed). cbn [effects].
    rewrite Ea. split; [reflexivity|].
    unfold MouseInteraction.advance. cbn [timers MouseInteraction.fire due].
    destruct (t1 + 300 <=? t2)%Z eqn:E; [apply Z.leb_le in E; lia|].
    unfold MouseInteraction.handleNodeClick. cbn [lastClickTime clickNode sameNode].
    unfold MouseInteraction.doubleClickTimeout.
    replace (t2 - t1 <? 300)%Z with true by (symmetry; apply Z.ltb_lt; lia).
    rewrite Nat.eqb_refl. cbn. rewrite Nat.eqb_refl. cbn. split; reflexivity.
Qed.

Lemma mouse_double_click_after_any_clicks_witness :
  effects (MouseInteraction.click 1270 7
             (MouseInteraction.click 1000 7 (run [(100%Z, 3%nat); (500%Z, 7%nat)])))
  = NodeDoubleClick 7
      :: effects (MouseInteraction.click 1000 7 (run [(100%Z, 3%nat); (500%Z, 7%nat)])).
Proof.
  destruct (mouse_double_click_after_any_clicks
              [(100%Z, 3%nat); (500%Z, 7%nat)] 1000 1270 7 ltac:(lia))
    as [H|(_ & H & _)].
  - vm_compute in H. discriminate H.
  - exact H.
Defined.

End ClickExtras.
(** * Properties of the inline editing of [D3InteractionHandler] *)

Module D3EditingFacts.
Import D3Editing.

Lemma d3_exitEditMode_editing ed :
  NodeEditor.isEditing (editingState ed) = true ->
  nodeText (exitEditMode ed) = nodeText ed /\
  effects (exitEditMode ed) = HideEditingHint :: effects ed /\
  (forall e, NodeEditor.textContent (dom (exitEditMode ed) e)
             = NodeEditor.textContent (dom ed e)) /\
  editingState (exitEditMode ed)
    = {| NodeEditor.isEditing := false; NodeEditor.currentNode := None;
         NodeEditor.originalText := []; NodeEditor.editElement := None |}.
Proof.
  intros H. unfold exitEditMode. rewrite H. cbn [negb].
  destruct (NodeEditor.editElement (editingState ed)) as [e'|]; cbn;
    repeat split.
  intros e. unfold NodeEditor.update.
  destruct (Nat.eqb_spec e e') as [->|]; reflexivity.
Qed.

Lemma d3_update_same {A} (f : nat -> A) k v : NodeEditor.update f k v k = v.
Proof. unfold NodeEditor.update. rewrite Nat.eqb_refl. reflexivity. Qed.

(** [D3InteractionHandler.saveNodeText] with a text that
    [validateNodeText] rejects: no node text changes, the callback
    [onNodeTextChanged] is not called, the toast is shown, the edit
    element shows the original text again and the session is over. *)
Theorem d3_invalid_edit_restores_the_text
    (MAX : nat) (INVALID : list jsstring) (throws : nat -> jsstring -> bool)
    (ed : Editor) (n e : nat) :
  NodeEditor.isEditing (editingState ed) = true ->
  NodeEditor.currentNode (editingState ed) = Some n ->
  NodeEditor.editElement (editingState ed) = Some e ->
  validateNodeText MAX INVALID (trim (NodeEditor.textContent (dom ed e))) = false ->
  let ed' := saveNodeText MAX INVALID throws ed in
  nodeText ed' = nodeText ed /\
  effects ed' = HideEditingHint :: ValidationError nodeTextInvalid :: effects ed /\
  NodeEditor.textContent (dom ed' e) = NodeEditor.originalText (editingState ed) /\
  NodeEditor.isEditing (editingState ed') = false.
Proof.
  intros Hed Hn He Hval ed'. unfold ed', saveNodeText.
  rewrite Hed, Hn, He, Hval. cbn [negb].
  match goal with |- context [exitEditMode ?x] =>
    destruct (d3_exitEditMode_editing x) as (H1 & H2 & H3 & H4); [exact Hed|]
  end.
  rewrite H1, H2, H3, H4. cbn. rewrite d3_update_same. repeat split.
Qed.

Lemma d3_invalid_edit_restores_the_text_witness :
  validateNodeText 50 [js "<"]
    (trim (NodeEditor.textContent (dom sampleEditor 0))) = false /\
  nodeText (saveNodeText 50 [js "<"] (fun _ _ => false) sampleEditor)
    = nodeText sampleEditor /\
  NodeEditor.textContent
    (dom (saveNodeText 50 [js "<"] (fun _ _ => false) sampleEditor) 0) = js "B".
Proof.
  assert (Hval : validateNodeText 50 [js "<"]
                   (trim (NodeEditor.textContent (dom sampleEditor 0))) = false)
    by (vm_compute; reflexivity).
  split; [exact Hval|].
  destruct (d3_invalid_edit_restores_the_text 50 [js "<"] (fun _ _ => false)
              sampleEditor 1 0 eq_refl eq_refl eq_refl Hval)
    as (R1 & _ & R3 & _).
  split; [exact R1|exact R3].
Defined.

(** When the callback [onNodeTextChanged] throws while a valid, changed
    text is saved, the node keeps the new text, the edit element shows
    the original text again, the toast [saveFailed] is shown and the
    session is over. *)
Theorem d3_failed_save_shows_the_old_text
    (MAX : nat) (INVALID : list jsstring) (throws : nat -> jsstring -> bool)
    (ed : Editor) (n e : nat) :
  NodeEditor.isEditing (editingState ed) = true ->
  NodeEditor.currentNode (editingState ed) = Some n ->
  NodeEditor.editElement (editingState ed) = Some e ->
  let newText := trim (NodeEditor.textContent (dom ed e)) in
  validateNodeText MAX INVALID newText = true ->
  newText <> NodeEditor.originalText (editingState ed) ->
  throws n newText = true ->
  let ed' := saveNodeText MAX INVALID throws ed in
  nodeText ed' n = newText /\
  NodeEditor.textContent (dom ed' e) = NodeEditor.originalText (editingState ed) /\
  effects ed'
    = HideEditingHint :: ValidationError saveFailed
        :: OnNodeTextChanged n newText :: effects ed /\
  NodeEditor.isEditing (editingState ed') = false.
Proof.
  intros Hed Hn He newText Hval Hne Ht ed'. unfold ed', saveNodeText.
  rewrite Hed, Hn, He. fold newText. rewrite Hval. cbn [negb].
  destruct (decide (newText = NodeEditor.originalText (editingState ed)));
    [contradiction|].
  cbn zeta. rewrite Ht.
  match goal with |- context [exitEditMode ?x] =>
    destruct (d3_exitEditMode_editing x) as (H1 & H2 & H3 & H4); [exact Hed|]
  end.
  rewrite H1, H2, H3, H4. cbn. rewrite !d3_update_same. repeat split.
Qed.

Lemma d3_failed_save_shows_the_old_text_witness :
  let ed := setDom 0 {| NodeEditor.textContent := js " B2 ";
                        NodeEditor.contentEditable := true;
                        NodeEditor.editingClass := true |} sampleEditor in
  validateNodeText 50 [js "<"] (trim (NodeEditor.textContent (dom ed 0))) = true /\
  trim (NodeEditor.textContent (dom ed 0)) <> NodeEditor.originalText (editingState ed) /\
  nodeText (saveNodeText 50 [js "<"] (fun _ _ => true) ed) 1 = js "B2" /\
  NodeEditor.textContent (dom (saveNodeText 50 [js "<"] (fun _ _ => true) ed) 0)
    = js "B".
Proof.
  cbv zeta.
  set (ed := setDom 0 {| NodeEditor.textContent := js " B2 ";
                         NodeEditor.contentEditable := true;
                         NodeEditor.editingClass := true |} sampleEditor).
  assert (H4 : validateNodeText 50 [js "<"]
                 (trim (NodeEditor.textContent (dom ed 0))) = true)
    by (vm_compute; reflexivity).
  assert (H5 : trim (NodeEditor.textContent (dom ed 0))
               <> NodeEditor.originalText (editingState ed))
    by (vm_compute; discriminate).
  split; [exact H4|]. split; [exact H5|].
  destruct (d3_failed_save_shows_the_old_text 50 [js "<"] (fun _ _ => true) ed 1 0
              eq_refl eq_refl eq_refl H4 H5 eq_refl)
    as (R1 & R2 & _).
  split; [exact R1|exact R2].
Defined.

End D3EditingFacts.
(** * Properties of the message templates *)

Module I18nFacts.
Import StringFacts ParserExtras I18n.

Lemma replaceParamsFrom_skip params (x y : jsstring) :
  replaceParamsFrom params (length x) (x ++ y) = replaceParamsFrom params 0 y.
Proof.
  induction x as [|c x IH]; [reflexivity|]. cbn. exact IH.
Qed.

Lemma placeholder_no_brace c (s : jsstring) :
  isChar 123 c = false -> rmatch placeholder (c :: s) = None.
Proof. intros H. unfold placeholder. cbn [rmatch]. rewrite H. reflexivity. Qed.

Lemma identChar_not_close c : isIdentChar c = true -> isChar 125 c = false.
Proof.
  unfold isIdentChar, isIdentStart, isDigit, inRange, isChar. intros H.
  destruct (N.eqb_spec c 125) as [->|]; [|reflexivity]. vm_compute in H. discriminate.
Qed.

Lemma placeholder_hole key (rest : jsstring) :
  key <> [] -> forallb isIdentChar key = true ->
  rmatch placeholder (braces key ++ rest)
  = Some ([[123%N]; key; [125%N]], rest).
Proof.
  intros Hne Hk. destruct key as [|k key]; [contradiction|].
  cbn [forallb] in Hk. apply andb_true_iff in Hk as [Hk0 Hk].
  unfold placeholder, braces. cbn [app].
  change (rmatch (One (isChar 123) :: ?r) (123%N :: ?s))
    with (withSeg [123%N] (rmatch r s)).
  rewrite rmatch_Plus by exact Hk0.
  rewrite <- app_assoc. cbn [app].
  assert (Hclose : isIdentChar 125 = false) by reflexivity.
  rewrite (greedy_longest isIdentChar (rmatch [One (isChar 125)])
             (key ++ 125%N :: rest) [[125%N]] rest).
  - rewrite takeWhile_stop by assumption. reflexivity.
  - rewrite dropWhile_stop by assumption. reflexivity.
Qed.

Lemma replaceParams_text params (t rest : jsstring) :
  forallb (fun c => negb (isChar 123 c)) t = true ->
  replaceParamsFrom params 0 (t ++ rest) = t ++ replaceParamsFrom params 0 rest.
Proof.
  induction t as [|c t IH]; intros H; [reflexivity|].
  cbn [forallb] in H. apply andb_true_iff in H as [Hc H].
  apply negb_true_iff in Hc.
  cbn [app replaceParamsFrom]. rewrite (placeholder_no_brace c _ Hc).
  rewrite (IH H). reflexivity.
Qed.

Lemma replaceParams_hole params key (rest : jsstring) :
  key <> [] -> forallb isIdentChar key = true ->
  replaceParamsFrom params 0 (braces key ++ rest)
  = fill params (Hole key) ++ replaceParamsFrom params 0 rest.
Proof.
  intros Hne Hk.
  pose proof (placeholder_hole key rest Hne Hk) as Hm.
  assert (Hlen : length (braces key ++ rest) - length rest = length (braces key)).
  { rewrite length_app. lia. }
  assert (Hshape : braces key ++ rest = 123%N :: (key ++ [125%N]) ++ rest).
  { unfold braces. rewrite <- !app_assoc. reflexivity. }
  rewrite Hshape in Hm |- *. rewrite Hshape in Hlen.
  cbn [replaceParamsFrom]. rewrite Hm. cbv zeta. rewrite Hlen.
  assert (Htake : take (length (braces key)) (123%N :: (key ++ [125%N]) ++ rest)
                  = braces key).
  { rewrite <- Hshape. apply take_app_length. }
  rewrite Htake.
  replace (length (braces key) - 1) with (length (key ++ [125%N]))
    by (unfold braces; cbn; rewrite !length_app; cbn; lia).
  rewrite replaceParamsFrom_skip. reflexivity.
Qed.

(** A template made of plain texts without an opening brace and of
    placeholders [{key}] whose key is a word is filled piece by piece:
    every text is kept, every placeholder whose parameter is defined is
    replaced by it, and a placeholder without parameter is left as it
    is. *)
Theorem replaceParams_fills_the_holes (params : Params) (pieces : list Piece) :
  forallb wellFormedPiece pieces = true ->
  replaceParams (concat (map render pieces)) params
  = concat (map (fill params) pieces).
Proof.
  unfold replaceParams. induction pieces as [|p pieces IH]; intros H;
    [reflexivity|].
  cbn [forallb] in H. apply andb_true_iff in H as [Hp H].
  cbn [map concat]. destruct p as [t|key]; cbn [render fill wellFormedPiece] in *.
  - rewrite (replaceParams_text params t _ Hp), (IH H). reflexivity.
  - destruct key as [|k key']; [discriminate|].
    assert (Hne : k :: key' <> []) by discriminate.
    rewrite (replaceParams_hole params (k :: key') _ Hne Hp), (IH H). reflexivity.
Qed.

Lemma replaceParams_fills_the_holes_witness :
  forallb wellFormedPiece sampleTemplate = true /\
  replaceParams (js "Deleted {name} and {count} children") sampleParams
  = js "Deleted B and 2 children".
Proof.
  split; [reflexivity|].
  exact (replaceParams_fills_the_holes sampleParams sampleTemplate eq_refl).
Defined.

(** A message without an opening brace is returned unchanged, whatever
    the parameters. *)
Lemma replaceParams_plain params (message : jsstring) :
  forallb (fun c => negb (isChar 123 c)) message = true ->
  replaceParams message params = message.
Proof.
  intros H. unfold replaceParams.
  rewrite <- (app_nil_r message) at 1.
  rewrite (replaceParams_text params message [] H). apply app_nil_r.
Qed.

End I18nFacts.
(** * Properties of [debounce] and [throttle] *)

Module DebounceFacts.
Import Debounce.

Section Facts.
Context {A : Type}.
Variable wait : Z.

Lemma debounce_clear_own (t : @Timer A) : clearTimeout (timerId t) [t] = [].
Proof. unfold clearTimeout. cbn. rewrite Nat.eqb_refl. reflexivity. Qed.

Lemma last_cons_default {B} (l : list B) x d :
  List.last (x :: l) d = List.last l x.
Proof.
  revert x d. induction l as [|c l IH]; intros x d; [reflexivity|].
  change (List.last (x :: c :: l) d) with (List.last (c :: l) d).
  rewrite (IH c d). symmetry. apply IH.
Qed.

(** A call inside the window of the pending timer replaces that timer. *)
Lemma invoke_in_burst (d : @Debounced A) id t a t' a' :
  timers d = [mkTimer id (t + wait) a] -> timeout d = Some id ->
  (t <= t' < t + wait)%Z ->
  timers (invoke wait d (t', a')) = [mkTimer (nextTimerId d) (t' + wait) a'] /\
  timeout (invoke wait d (t', a')) = Some (nextTimerId d) /\
  called (invoke wait d (t', a')) = called d.
Proof.
  intros Ht Hid Hw.
  assert (Hadv : advance t' d = d).
  { unfold advance. rewrite Ht. cbn.
    destruct (t + wait <=? t')%Z eqn:E; [apply Z.leb_le in E; lia|reflexivity]. }
  unfold invoke. cbn [fst snd]. rewrite Hadv, Hid, Ht.
  change (clearTimeout id [mkTimer id (t + wait) a])
    with (clearTimeout (timerId (mkTimer id (t + wait) a)) [mkTimer id (t + wait) a]).
  rewrite debounce_clear_own. cbn. auto.
Qed.

Lemma burst_state (calls : list (Z * A)) : forall (d : @Debounced A) id t a,
  timers d = [mkTimer id (t + wait) a] -> timeout d = Some id ->
  burst wait t calls ->
  let d' := fold_left (invoke wait) calls d in
  exists id',
    timers d' = [mkTimer id' (fst (List.last calls (t, a)) + wait)
                   (snd (List.last calls (t, a)))] /\
    timeout d' = Some id' /\ called d' = called d.
Proof.
  induction calls as [|[t' a'] calls IH]; intros d id t a Ht Hid Hb; cbn zeta.
  - exists id. cbn. auto.
  - cbn [burst fst] in Hb. destruct Hb as [Hw Hb].
    destruct (invoke_in_burst d id t a t' a' Ht Hid Hw) as (H1 & H2 & H3).
    cbn [fold_left].
    destruct (IH _ _ t' a' H1 H2 Hb) as (id' & I1 & I2 & I3).
    exists id'. rewrite I3, H3.
    rewrite (last_cons_default calls (t', a') (t, a)). auto.
Qed.

(** When the debounced function is called in a burst, every call coming
    less than [wait] after the one before, [func] runs once, with the
    arguments of the last call, and not before [wait] has passed since
    that call: at any moment at least [wait] after the last call it has
    been called exactly once. *)
Theorem debounce_runs_the_last_call_once
    (t0 : Z) (a0 : A) (calls : list (Z * A)) (T : Z) :
  burst wait t0 calls ->
  let lastCall := List.last calls (t0, a0) in
  (fst lastCall + wait <= T)%Z ->
  let d := fold_left (invoke wait) ((t0, a0) :: calls) initial in
  called d = [] /\ called (advance T d) = [snd lastCall].
Proof.
  intros Hb lastCall HT d.
  assert (H0 : timers (invoke wait (@initial A) (t0, a0)) = [mkTimer 1 (t0 + wait) a0]
               /\ timeout (invoke wait (@initial A) (t0, a0)) = Some 1%nat
               /\ called (invoke wait (@initial A) (t0, a0)) = []).
  { unfold invoke, advance, initial. cbn. auto. }
  destruct H0 as (H1 & H2 & H3).
  destruct (burst_state calls _ 1%nat t0 a0 H1 H2 Hb) as (id' & I1 & I2 & I3).
  unfold d. cbn [fold_left]. rewrite I3, H3. split; [reflexivity|].
  unfold advance. rewrite I1. cbn [fire due args].
  fold lastCall.
  destruct (fst lastCall + wait <=? T)%Z eqn:E; [|apply Z.leb_gt in E; lia].
  cbn. rewrite I3, H3. reflexivity.
Qed.

End Facts.

Lemma debounce_runs_the_last_call_once_witness :
  burst 100 0 [(50%Z, 2%nat); (120%Z, 3%nat)] /\
  called (advance 220
            (fold_left (invoke 100) [(0%Z, 1%nat); (50%Z, 2%nat); (120%Z, 3%nat)]
               initial)) = [3%nat].
Proof.
  assert (Hb : burst 100 0 [(50%Z, 2%nat); (120%Z, 3%nat)])
    by (cbn; lia).
  split; [exact Hb|].
  exact (proj2 (debounce_runs_the_last_call_once 100 0 1%nat
                  [(50%Z, 2%nat); (120%Z, 3%nat)] 220 Hb ltac:(cbn; lia))).
Defined.

End DebounceFacts.

Module ThrottleFacts.
Import Throttle.

Section Facts.
Context {A : Type}.
Variable limit : Z.

Lemma throttling_invoke first (h : @Throttled A) call :
  throttling limit first h -> throttling limit first (invoke limit h call).
Proof.
  intros (Hin & c & rest & Hc & Ht & Hs & Hl).
  unfold invoke, advance. rewrite Ht, Hin. cbn.
  destruct (fst c + limit <=? fst call)%Z eqn:E; cbn.
  - apply Z.leb_le in E. split; [reflexivity|].
    exists call, (called h). split; [reflexivity|]. split; [reflexivity|].
    rewrite Hc in *. split; [split; [exact E|exact Hs]|exact Hl].
  - split; [reflexivity|].
    exists c, rest. auto.
Qed.

(** However the throttled function is called, two consecutive calls of
    [func] are at least [limit] apart, and the first call of the
    throttled function always runs [func]. *)
Theorem throttle_spaces_the_calls (first : Z * A) (calls : list (Z * A)) :
  let h := fold_left (invoke limit) (first :: calls) initial in
  spaced limit (called h) /\
  List.last (called h) first = first /\
  called h <> [].
Proof.
  cbv zeta. cbn [fold_left].
  assert (H0 : throttling limit first (invoke limit (@initial A) first)).
  { unfold invoke, advance, initial. cbn. split; [reflexivity|].
    exists first, []. cbn. auto. }
  revert H0. generalize (invoke limit (@initial A) first).
  induction calls as [|c calls IH]; intros h H.
  - destruct H as (_ & c & rest & Hc & _ & Hs & Hl). cbn.
    split; [exact Hs|]. split; [exact Hl|]. rewrite Hc. discriminate.
  - cbn [fold_left]. apply IH, throttling_invoke, H.
Qed.

End Facts.

End ThrottleFacts.
(** * Properties of the colour utilities *)

Module ColorFacts.
Import Colors.

Lemma blackOnlyAtLevel4_holds : blackOnlyAtLevel4 = true.
Proof. vm_compute. reflexivity. Qed.

Lemma in_range (n : nat) (x : N) :
  (x < N.of_nat n)%N -> In x (map N.of_nat (seq 0 n)).
Proof.
  intros H. apply in_map_iff. exists (N.to_nat x).
  split; [apply N2Nat.id|]. apply in_seq. lia.
Qed.

(** The text colour chosen for the background of a node is black at
    level 4 and white at every other level, whatever the depth: level 4
    is the only one whose colour contains the text "50%" (its
    saturation). *)
Theorem contrast_text_is_black_only_at_level_4 (level depth : N) :
  (level * 30 + depth * 15 < 2 ^ 53)%N ->
  getContrastTextColor (getNodeColor level depth)
  = if (level =? 4)%N then js "#000" else js "#fff".
Proof.
  intros _. unfold getNodeColor. cbv zeta.
  set (hue := ((level * 30 + depth * 15) mod 360)%N).
  assert (Hh : In hue hues).
  { apply (in_range 360). unfold hue.
    apply N.mod_upper_bound. discriminate. }
  set (l := N.min level 11).
  assert (Hl : In l lowLevels) by (apply (in_range 12); unfold l; lia).
  pose proof blackOnlyAtLevel4_holds as H. unfold blackOnlyAtLevel4 in H.
  rewrite forallb_forall in H. specialize (H hue Hh).
  rewrite forallb_forall in H. specialize (H l Hl).
  apply bool_decide_eq_true_1 in H.
  replace (N.max 40 (70 - level * 5)) with (N.max 40 (70 - l * 5)) by (unfold l; lia).
  replace (N.max 30 (60 - level * 3)) with (N.max 30 (60 - l * 3)) by (unfold l; lia).
  rewrite H. unfold l.
  destruct (N.eqb_spec level 4) as [->|Hne]; [reflexivity|].
  destruct (N.eqb_spec (N.min level 11) 4); [lia|reflexivity].
Qed.

Lemma contrast_text_is_black_only_at_level_4_witness :
  getContrastTextColor (getNodeColor 4 2) = js "#000" /\
  getContrastTextColor (getNodeColor 3 2) = js "#fff".
Proof.
  split.
  - exact (contrast_text_is_black_only_at_level_4 4 2 ltac:(vm_compute; reflexivity)).
  - exact (contrast_text_is_black_only_at_level_4 3 2 ltac:(vm_compute; reflexivity)).
Defined.

End ColorFacts.
